(** * ExifPhotoSorter: a shallow embedding of the classification pipeline

    The development follows [src/ExifPhotoSorter.py]: the EXIF extractor,
    the proximity geocode cache ([Geolocator]), and the per-photo pipeline
    of [PhotoProcessor] (path derivation, duplicate handling, placement,
    progress counters).

    Python floats are IEEE binary64 numbers, modelled by Rocq's primitive
    floats.  Python exceptions are modelled by a [result] type; mutable
    program state (the file system, the in-memory cache, the number of
    geocoding requests sent) is threaded explicitly through a small
    state-and-exception monad.  Functions of third-party libraries (geopy,
    exif, unidecode, json, float formatting) and what depends on the
    platform (the conversions of [strftime] beyond the numeric ones, the
    levels of [logging]) are collected in the class [Externals]. *)

From Stdlib Require Import Floats.
From stdpp Require Import gmap strings list pretty.
From Stdlib Require Import Ascii String.

Local Open Scope string_scope.
#[local] Set Warnings "-inexact-float".

(** ** Python runtime: exceptions, values, truthiness *)

(** [GeocoderServiceError] stands for geopy's class of that name and its
    subclasses (time-out, service unavailable, quota exceeded, ...);
    [OSError] for the errors of [shutil] that have no class of their own
    here ([shutil.Error], [SameFileError]). *)
Inductive exn :=
  | AttributeError | TypeError | IndexError | ValueError | KeyError
  | FileNotFoundError | FileExistsError | IsADirectoryError | NotADirectoryError
  | OSError
  | GeocoderServiceError.

Inductive result (A : Type) :=
  | Ok (a : A)
  | Raise (e : exn).
Arguments Ok {A} a.
Arguments Raise {A} e.

Definition exn_eqb (a b : exn) : bool :=
  match a, b with
  | AttributeError, AttributeError | TypeError, TypeError
  | IndexError, IndexError | ValueError, ValueError | KeyError, KeyError
  | FileNotFoundError, FileNotFoundError | FileExistsError, FileExistsError
  | IsADirectoryError, IsADirectoryError | NotADirectoryError, NotADirectoryError
  | OSError, OSError
  | GeocoderServiceError, GeocoderServiceError => true
  | _, _ => false
  end.

Definition rbind {A B} (r : result A) (k : A → result B) : result B :=
  match r with
  | Ok a => k a
  | Raise e => Raise e
  end.

(** [try: r  except classes: h] *)
Definition try_except {A} (r : result A) (classes : list exn) (h : result A) : result A :=
  match r with
  | Ok a => Ok a
  | Raise e => if existsb (exn_eqb e) classes then h else Raise e
  end.

(** The values an EXIF attribute can hold. *)
#[local] Unset Elimination Schemes.
Inductive pyval :=
  | PyNone
  | PyFloat (f : float)
  | PyStr (s : string)
  | PyTuple (l : list pyval).
#[local] Set Elimination Schemes.

(** [bool(v)]: [None], [0.0], [-0.0], the empty string and the empty tuple
    are falsy; NaN is truthy. *)
Definition truthy (v : pyval) : bool :=
  match v with
  | PyNone => false
  | PyFloat f => negb (PrimFloat.eqb f 0%float)
  | PyStr s => negb (String.eqb s "")
  | PyTuple l => match l with [] => false | _ => true end
  end.

Definition str_truthy (s : string) : bool := negb (String.eqb s "").

Definition opt_str_truthy (o : option string) : bool :=
  match o with
  | Some s => str_truthy s
  | None => false
  end.

(** [v[i]] *)
Definition py_index (v : pyval) (i : nat) : result pyval :=
  match v with
  | PyTuple l => match l !! i with Some x => Ok x | None => Raise IndexError end
  | PyStr s => match String.get i s with
               | Some c => Ok (PyStr (String c EmptyString))
               | None => Raise IndexError
               end
  | _ => Raise TypeError
  end.

(** [v / c] for an integer literal [c], given as a float *)
Definition py_div (v : pyval) (c : float) : result pyval :=
  match v with
  | PyFloat f => Ok (PyFloat (f / c)%float)
  | _ => Raise TypeError
  end.

(** [a + b] where the right operand is known to be a float when defined *)
Definition py_add (a b : pyval) : result pyval :=
  match a, b with
  | PyFloat x, PyFloat y => Ok (PyFloat (x + y)%float)
  | _, _ => Raise TypeError
  end.

Definition py_neg (a : pyval) : result pyval :=
  match a with
  | PyFloat x => Ok (PyFloat (- x)%float)
  | _ => Raise TypeError
  end.

Definition py_float (v : pyval) : option float :=
  match v with
  | PyFloat f => Some f
  | _ => None
  end.

Definition is_tuple (v : pyval) : bool :=
  match v with PyTuple _ => true | _ => false end.
Definition is_float (v : pyval) : bool :=
  match v with PyFloat _ => true | _ => false end.

(** ** Strings: [str.split(', ')], [', '.join], slicing *)

(** [s.split(', ')] *)
Fixpoint split_comma (s : string) : list string :=
  match s with
  | EmptyString => [EmptyString]
  | String ","%char (String " "%char rest) => EmptyString :: split_comma rest
  | String c rest =>
      match split_comma rest with
      | h :: t => String c h :: t
      | [] => [String c EmptyString]
      end
  end.

(** [', '.join(l)] *)
Fixpoint join_comma (l : list string) : string :=
  match l with
  | [] => ""
  | [x] => x
  | x :: rest => x ++ ", " ++ join_comma rest
  end.

(** [l[-1]] *)
Definition py_last (l : list string) : result string :=
  match last l with
  | Some x => Ok x
  | None => Raise IndexError
  end.

(** [l[-2:]] *)
Definition py_last_two (l : list string) : list string :=
  drop (List.length l - 2) l.

(** [filter(None, l)] on a list of optional strings *)
Definition filter_truthy (l : list (option string)) : list string :=
  omap (λ o, match o with
             | Some s => if str_truthy s then Some s else None
             | None => None
             end) l.

(** [a or b] on optional strings *)
Definition py_or (a b : option string) : option string :=
  if opt_str_truthy a then a else b.

Definition str_take (n : nat) (s : string) : string := String.substring 0 n s.
Definition str_drop (n : nat) (s : string) : string :=
  String.substring n (String.length s - n) s.

Fixpoint str_endswith_char (c : ascii) (s : string) : bool :=
  match s with
  | EmptyString => false
  | String a EmptyString => Ascii.eqb a c
  | String _ rest => str_endswith_char c rest
  end.

Definition str_startswith_char (c : ascii) (s : string) : bool :=
  match s with
  | String a _ => Ascii.eqb a c
  | EmptyString => false
  end.

(** [s.rfind(c)] as a position, [None] for -1 *)
Fixpoint rfind_from (c : ascii) (s : string) (i : nat) (best : option nat) : option nat :=
  match s with
  | EmptyString => best
  | String a rest =>
      rfind_from c rest (S i) (if Ascii.eqb a c then Some i else best)
  end.
Definition rfind (c : ascii) (s : string) : option nat := rfind_from c s 0 None.

Fixpoint str_all (p : ascii → bool) (s : string) : bool :=
  match s with
  | EmptyString => true
  | String a rest => p a && str_all p rest
  end.

(** ** [os.path] (POSIX flavour) *)

Definition sep : ascii := "/"%char.

(** One step of [os.path.join]'s loop. *)
Definition join2 (path b : string) : string :=
  if str_startswith_char sep b then b
  else if String.eqb path "" || str_endswith_char sep path then path ++ b
  else path ++ "/" ++ b.

(** [os.path.join(a, *p)] *)
Definition path_join (a : string) (p : list string) : string :=
  foldl join2 a p.

(** [os.path.basename(p)]: what follows the last separator. *)
Definition basename (p : string) : string :=
  match rfind sep p with
  | Some i => str_drop (S i) p
  | None => p
  end.

(** [s.rstrip('/')] *)
Fixpoint rstrip_sep (s : string) : string :=
  match s with
  | EmptyString => EmptyString
  | String c rest =>
      let r := rstrip_sep rest in
      if Ascii.eqb c sep && String.eqb r "" then "" else String c r
  end.

(** [os.path.dirname(p)]: what precedes the last separator, without the
    separators that end it unless it is made of separators only. *)
Definition dirname (p : string) : string :=
  match rfind sep p with
  | Some i =>
      let head := str_take (S i) p in
      if str_all (Ascii.eqb sep) head then head else rstrip_sep head
  | None => ""
  end.

(** [s.startswith(a)] *)
Fixpoint str_startswith (a s : string) : bool :=
  match a, s with
  | EmptyString, _ => true
  | String x a', String y s' => Ascii.eqb x y && str_startswith a' s'
  | String _ _, EmptyString => false
  end.

(** [os.path.splitext(p)]: the extension starts at the last dot, unless it
    comes before the last separator or only dots precede it in the file
    name. *)
Definition splitext (p : string) : string * string :=
  let start := match rfind sep p with Some i => S i | None => 0 end in
  match rfind "."%char p with
  | Some dot =>
      if bool_decide (start ≤ dot)%nat
         && negb (str_all (Ascii.eqb "."%char) (String.substring start (dot - start) p))
      then (str_take dot p, str_drop dot p)
      else (p, "")
  | None => (p, "")
  end.

(** ** [datetime] *)

Record datetime := {
  year : nat; month : nat; day : nat;
  hour : nat; minute : nat; second : nat
}.

(** ** Python dictionaries: insertion-ordered association lists *)

(** [d[k] = v]: an existing key keeps its position, a new key goes last. *)
Fixpoint dict_set (k v : string) (d : list (string * string)) : list (string * string) :=
  match d with
  | [] => [(k, v)]
  | (k', v') :: rest =>
      if String.eqb k' k then (k, v) :: rest else (k', v') :: dict_set k v rest
  end.

(** ** Configuration (the options of [config.ini] read by the pipeline) *)

Record Config := {
  copy_files : bool;
  sort_by_location : bool;
  sort_by_date : bool;
  group_by_country : bool;
  group_by_state : bool;
  group_by_city : bool;
  date_format : string;
  cache_distance_threshold : float;
  geocoding_timeout : nat;
  use_exif_date : bool;
  fallback_to_file_date : bool;
  date_taken_key : string;
  use_exif_gps : bool;
  skip_duplicates : bool;
  duplicate_suffix : string;
  unsortable_folder : string;
  cache_geocoding_results : bool;
  log_file : string;
  log_level : string
}.

(** ** EXIF images and geocoding answers *)

(** An [exif.Image]: whether the file carries EXIF data, and its
    attributes.  Reading an attribute that is not there raises
    [AttributeError]. *)
Record Image := {
  has_exif : bool;
  attrs : gmap string pyval
}.

Definition image_attr (img : Image) (name : string) : result pyval :=
  match attrs img !! name with
  | Some v => Ok v
  | None => Raise AttributeError
  end.

(** A geopy [Location]: its raw record may hold an [address] dictionary. *)
Record location := {
  raw_address : option (gmap string string)
}.

(** ** Library functions the program calls

    [float_str] is [str] on floats (as in an f-string), [float_of_str] is
    [float] on strings ([None] when it raises [ValueError]);
    [geodesic_km p q] is [geodesic(p, q).km] for a point and a tuple of
    numbers ([None] when geopy rejects the arguments); [transliterate] is
    unidecode's table for text that is not plain ASCII; [strptime] is
    [datetime.strptime] ([None] for [ValueError]); [exif_Image] parses the
    bytes of a file ([None] when [exif.Image] raises); [json_str] is json's
    string-literal encoder and [json_loads] its parser for a dictionary of
    strings; [nominatim_reverse n query timeout] is the outcome of the
    [n]-th request sent to Nominatim by [self.geolocator.reverse]: an
    exception (network error, timeout), no answer, or a location;
    [platform_strftime dt fmt] is [dt.strftime(fmt)] for the formats whose
    outcome depends on the C library, the locale or the version of Python;
    [logging_level name] is [handler.setLevel(getattr(logging, name))]:
    [AttributeError] when [logging] has no such attribute, [TypeError] or
    [ValueError] when the attribute is not a level. *)
Class Externals := {
  float_str : float → string;
  float_of_str : string → option float;
  geodesic_km : float * float → list float → option float;
  transliterate : string → string;
  strptime : string → string → option datetime;
  exif_Image : string → option Image;
  json_str : string → string;
  json_loads : string → option (list (string * string));
  nominatim_reverse : nat → string → nat → result (option location);
  platform_strftime : datetime → string → result string;
  logging_level : string → result unit
}.

(** ** [datetime.strftime] *)

Definition pad2 (n : nat) : string :=
  if bool_decide (n < 10)%nat then "0" ++ pretty n else pretty n.

(** The conversions whose outcome is the same everywhere: the numeric
    fields of a date and a time, and [%%].  A year below 1000 is padded by
    some C libraries and not by others, so it is left to the platform like
    every other conversion. *)
Definition strftime_directive (dt : datetime) (d : ascii) : option string :=
  if Ascii.eqb d "Y" then
    if bool_decide (1000 ≤ year dt)%nat then Some (pretty (year dt)) else None
  else if Ascii.eqb d "m" then Some (pad2 (month dt))
  else if Ascii.eqb d "d" then Some (pad2 (day dt))
  else if Ascii.eqb d "H" then Some (pad2 (hour dt))
  else if Ascii.eqb d "M" then Some (pad2 (minute dt))
  else if Ascii.eqb d "S" then Some (pad2 (second dt))
  else if Ascii.eqb d "%" then Some "%"
  else None.

(** [dt.strftime(fmt)].  The format is expanded from left to right.  Text
    is copied and the conversions above are expanded here; from the first
    place where the format holds anything else (another conversion, a flag
    or a width, a percent sign at the very end, a null character) the rest
    of the format is expanded by the platform, which may also reject it. *)
Fixpoint strftime `{Externals} (dt : datetime) (fmt : string) : result string :=
  match fmt with
  | EmptyString => Ok EmptyString
  | String c rest =>
      if Ascii.eqb c "%" then
        match rest with
        | String d rest' =>
            match strftime_directive dt d with
            | Some s => rbind (strftime dt rest') (λ t, Ok (s ++ t))
            | None => platform_strftime dt fmt
            end
        | EmptyString => platform_strftime dt fmt
        end
      else if Ascii.eqb c zero then platform_strftime dt fmt
      else rbind (strftime dt rest) (λ t, Ok (String c t))
  end.

(** ** The file system and the program state *)

Inductive node :=
  | File (content : string)
  | Dir.

(** The state the pipeline works on: the file system (paths are compared
    as written, not normalised), the geolocator's in-memory
    [location_cache] in insertion order, and the number of requests sent to
    the geocoding service so far. *)
Record world := {
  fs : gmap string node;
  location_cache : list (string * string);
  requests : nat
}.

Definition set_fs (f : gmap string node) (w : world) : world :=
  {| fs := f; location_cache := location_cache w; requests := requests w |}.
Definition set_cache (c : list (string * string)) (w : world) : world :=
  {| fs := fs w; location_cache := c; requests := requests w |}.
Definition count_request (w : world) : world :=
  {| fs := fs w; location_cache := location_cache w; requests := S (requests w) |}.
Definition count_requests (n : nat) (w : world) : world := Nat.iter n count_request w.
Arguments count_requests : simpl never.

(** Computations that read and update the state and may raise. *)
Definition M (A : Type) : Type := world → result A * world.

Definition ret {A} (a : A) : M A := λ w, (Ok a, w).
Definition raise {A} (e : exn) : M A := λ w, (Raise e, w).
Definition bind {A B} (m : M A) (k : A → M B) : M B :=
  λ w, match m w with
       | (Ok a, w') => k a w'
       | (Raise e, w') => (Raise e, w')
       end.
Definition lift {A} (r : result A) : M A := λ w, (r, w).
Definition get_world : M world := λ w, (Ok w, w).

(** [try: m  except Exception: h] *)
Definition try_all {A} (m : M A) (h : M A) : M A :=
  λ w, match m w with
       | (Ok a, w') => (Ok a, w')
       | (Raise _, w') => h w'
       end.

Notation "'let*' x ':=' m 'in' k" := (bind m (λ x, k))
  (at level 10, x pattern, m at level 100, k at level 200).

(** [os.path.exists] *)
Definition path_exists (f : gmap string node) (p : string) : bool :=
  bool_decide (is_Some (f !! p)).

(** The elementary effects of writing a file. *)
Inductive fs_op :=
  | OpenTruncate (p : string)
  | WriteChunk (p : string) (data : string).

Definition apply_op (f : gmap string node) (op : fs_op) : result (gmap string node) :=
  match op with
  | OpenTruncate p =>
      match f !! p with
      | Some Dir => Raise IsADirectoryError
      | _ => Ok (<[p := File ""]> f)
      end
  | WriteChunk p data =>
      match f !! p with
      | Some (File c) => Ok (<[p := File (c ++ data)]> f)
      | _ => Raise OSError
      end
  end.

(** Runs the effects in order; an effect that raises leaves the file
    system as the earlier ones made it. *)
Fixpoint run_ops (f : gmap string node) (ops : list fs_op) : result unit * gmap string node :=
  match ops with
  | [] => (Ok tt, f)
  | op :: rest =>
      match apply_op f op with
      | Ok f' => run_ops f' rest
      | Raise e => (Raise e, f)
      end
  end.

(** The directories [os.makedirs] has to find or create above a path. *)
Fixpoint dir_prefixes (seen : string) (s : string) : list string :=
  match s with
  | EmptyString => []
  | String c rest =>
      (if Ascii.eqb c sep && str_truthy seen && negb (str_endswith_char sep seen)
       then [seen] else [])
      ++ dir_prefixes (seen ++ String c EmptyString) rest
  end%list.

Definition mkdir_exist_ok (f : gmap string node) (d : string) : result (gmap string node) :=
  match f !! d with
  | Some (File _) => Raise FileExistsError
  | _ => Ok (<[d := Dir]> f)
  end.

(** [os.makedirs(p, exist_ok=True)] *)
Definition makedirs (p : string) : M unit :=
  λ w,
    if String.eqb p "" then (Raise FileNotFoundError, w)
    else
      match foldl (λ r d, rbind r (λ f, mkdir_exist_ok f d)) (Ok (fs w))
                  (dir_prefixes "" p ++ [p])%list with
      | Ok f' => (Ok tt, set_fs f' w)
      | Raise e => (Raise e, w)
      end.

(** Creating an entry at [p] needs the directory part of [p] to be a
    directory: the working directory (an empty directory part), the root,
    or a directory of the file system. *)
Definition dir_ready (f : gmap string node) (p : string) : result unit :=
  let d := dirname p in
  if str_all (Ascii.eqb sep) d then Ok tt
  else
    match f !! d with
    | Some Dir => Ok tt
    | Some (File _) => Raise NotADirectoryError
    | None => Raise FileNotFoundError
    end.

(** [shutil.copy2(src, dst)]: a destination that is a directory receives
    the file under its own name; copying a file onto itself is refused;
    the source must be a regular file, and the target must be a file or a
    new name in a directory that exists. *)
Definition copy2 (src dst : string) : M unit :=
  λ w,
    let target := match fs w !! dst with
                  | Some Dir => path_join dst [basename src]
                  | _ => dst
                  end in
    match fs w !! src with
    | None => (Raise FileNotFoundError, w)
    | Some source =>
        if String.eqb target src then (Raise OSError, w)
        else
          match source with
          | Dir => (Raise IsADirectoryError, w)
          | File c =>
              match fs w !! target with
              | Some Dir => (Raise IsADirectoryError, w)
              | Some (File _) => (Ok tt, set_fs (<[target := File c]> (fs w)) w)
              | None =>
                  match dir_ready (fs w) target with
                  | Ok _ => (Ok tt, set_fs (<[target := File c]> (fs w)) w)
                  | Raise e => (Raise e, w)
                  end
              end
          end
    end.

(** [shutil._destinsrc(src, dst)]: [dst] is [src] or lies under it. *)
Definition destinsrc (src dst : string) : bool :=
  let with_sep := λ p, if str_endswith_char sep p then p else p ++ "/" in
  str_startswith (with_sep src) (with_sep dst).

(** The name of the path [p] once the directory [src] has become [dst]:
    [src] and the paths under it move along. *)
Definition rebase (src dst p : string) : string :=
  if String.eqb p src then dst
  else if str_startswith (src ++ "/") p
       then dst ++ str_drop (String.length src) p
       else p.

Definition rename_tree (src dst : string) (f : gmap string node) : gmap string node :=
  list_to_map ((λ e, (rebase src dst e.1, e.2)) <$> map_to_list f).

(** [os.rename(src, real_dst)] to a name that is free, with the fall-back
    of [shutil.move] when it fails: a file needs the directory of
    [real_dst] to exist (the fall-back, [copy2], fails like the renaming);
    a directory cannot go under itself, and when the directory of
    [real_dst] is missing the fall-back, [copytree], makes it. *)
Definition move_to_new (src real_dst dst : string) : M unit :=
  λ w,
    match fs w !! src with
    | None => (Raise FileNotFoundError, w)
    | Some (File c) =>
        match dir_ready (fs w) real_dst with
        | Ok _ => (Ok tt, set_fs (<[real_dst := File c]> (delete src (fs w))) w)
        | Raise e => (Raise e, w)
        end
    | Some Dir =>
        if destinsrc src dst then (Raise OSError, w)
        else
          match dir_ready (fs w) real_dst with
          | Ok _ => (Ok tt, set_fs (rename_tree src real_dst (fs w)) w)
          | Raise _ =>
              match makedirs real_dst w with
              | (Ok _, w1) => (Ok tt, set_fs (rename_tree src real_dst (fs w1)) w1)
              | (Raise e, _) => (Raise e, w)
              end
          end
    end.

(** [shutil.move(src, dst)].  A destination that is a directory receives
    the source under its own name, unless it is the source itself or that
    name is taken; a destination that is a file is replaced by a file and
    stops a directory; otherwise the source is renamed to [dst]. *)
Definition move (src dst : string) : M unit :=
  λ w,
    match fs w !! dst with
    | Some Dir =>
        if String.eqb src dst then (Ok tt, w)
        else
          let real_dst := path_join dst [basename (rstrip_sep src)] in
          if path_exists (fs w) real_dst then (Raise OSError, w)
          else move_to_new src real_dst dst w
    | Some (File _) =>
        match fs w !! src with
        | None => (Raise FileNotFoundError, w)
        | Some (File c) =>
            if String.eqb dst src then (Ok tt, w)
            else (Ok tt, set_fs (<[dst := File c]> (delete src (fs w))) w)
        | Some Dir =>
            if destinsrc src dst then (Raise OSError, w) else (Raise FileExistsError, w)
        end
    | None => move_to_new src dst dst w
    end.

(** ** class ExifExtractor *)

Module ExifExtractor.

(** [extract_exif_data]: opening a missing file or parsing its bytes
    may raise; both handlers log and the method returns [None]. *)
Definition extract_exif_data `{Externals} (photo_path : string) : M (option Image) :=
  λ w,
    match fs w !! photo_path with
    | Some (File bytes) => (Ok (exif_Image bytes), w)
    | _ => (Ok None, w)
    end.

(** [_convert_to_decimal_degrees(coord, ref)] *)
Definition _convert_to_decimal_degrees (coord ref : pyval) : option float :=
  let body :=
    rbind (py_index coord 0) (λ c0,
    rbind (py_index coord 1) (λ c1,
    rbind (py_div c1 60) (λ m,
    rbind (py_add c0 m) (λ dm,
    rbind (py_index coord 2) (λ c2,
    rbind (py_div c2 3600) (λ s,
    rbind (py_add dm s) (λ decimal_degrees,
    match ref with
    | PyStr r =>
        if String.eqb r "S" || String.eqb r "W"
        then py_neg decimal_degrees
        else Ok decimal_degrees
    | _ => Ok decimal_degrees
    end))))))) in
  match try_except (rbind body (λ v, Ok (py_float v))) [TypeError; IndexError] (Ok None) with
  | Ok r => r
  | Raise _ => None
  end.

(** [get_gps_coordinates(image)] *)
Definition get_gps_coordinates (cfg : Config) (image : option Image)
  : result (option float * option float) :=
  match image with
  | None => Ok (None, None)
  | Some img =>
      if negb (has_exif img) then Ok (None, None)
      else
        let body :=
          if use_exif_gps cfg then
            rbind (image_attr img "gps_latitude") (λ latitude,
            rbind (image_attr img "gps_longitude") (λ longitude,
            if negb (truthy latitude && truthy longitude) then Ok (None, None)
            else if is_tuple latitude && is_tuple longitude then
              rbind (image_attr img "gps_latitude_ref") (λ lat_ref,
              rbind (image_attr img "gps_longitude_ref") (λ lon_ref,
              let lat := _convert_to_decimal_degrees latitude lat_ref in
              let lon := _convert_to_decimal_degrees longitude lon_ref in
              Ok (lat, lon)))
            else if is_float latitude && is_float longitude then
              Ok (py_float latitude, py_float longitude)
            else Ok (None, None)))
          else Ok (None, None) in
        try_except body [AttributeError; TypeError; IndexError] (Ok (None, None))
  end.

(** [get_photo_date(image)]: the attribute named by [date_taken_key] is
    read with a default of [None]; [strptime] raises [TypeError] on a
    value that is not a string and [ValueError] on a malformed one. *)
Definition get_photo_date `{Externals} (cfg : Config) (image : option Image)
  : result (option datetime) :=
  match image with
  | None => Ok None
  | Some img =>
      if negb (has_exif img) then Ok None
      else
        let body :=
          if use_exif_date cfg then
            match attrs img !! date_taken_key cfg with
            | Some date_str =>
                if truthy date_str then
                  match date_str with
                  | PyStr s =>
                      match strptime s "%Y:%m:%d %H:%M:%S" with
                      | Some dt => Ok (Some dt)
                      | None => Raise ValueError
                      end
                  | _ => Raise TypeError
                  end
                else Ok None
            | None => Ok None
            end
          else Ok None in
        try_except body [AttributeError] (Ok None)
  end.

End ExifExtractor.

(** ** class Geolocator *)

Module Geolocator.

Definition cache_file : string := "location_cache.json".

(** [_load_cache] *)
Definition _load_cache `{Externals} (f : gmap string node) : result (list (string * string)) :=
  match f !! cache_file with
  | Some (File text) =>
      match json_loads text with
      | Some d => Ok d
      | None => Raise ValueError
      end
  | Some Dir => Raise IsADirectoryError
  | None => Ok []
  end.

(** The pieces [json.dump] writes for a dictionary of strings. *)
Fixpoint json_items `{Externals} (first : bool) (d : list (string * string)) : list string :=
  match d with
  | [] => []
  | (k, v) :: rest =>
      ((if first then [] else [", "])
         ++ [json_str k; ": "; json_str v] ++ json_items false rest)%list
  end.

Definition json_chunks `{Externals} (d : list (string * string)) : list string :=
  match d with
  | [] => ["{}"]
  | _ => ("{" :: json_items true d ++ ["}"])%list
  end.

(** The effects of [_save_cache]: [open(cache_file, 'w')] empties the
    file, then [json.dump] writes the dictionary piece by piece. *)
Definition save_ops `{Externals} (d : list (string * string)) : list fs_op :=
  OpenTruncate cache_file :: map (WriteChunk cache_file) (json_chunks d).

(** [_save_cache] *)
Definition _save_cache `{Externals} : M unit :=
  λ w,
    let '(r, f) := run_ops (fs w) (save_ops (location_cache w)) in
    (r, set_fs f w).

(** [address.get(k)] *)
Definition address_get (address : gmap string string) (k : string) : option string :=
  address !! k.

(** [_parse_location(location)] *)
Definition _parse_location (loc : option location) : result (option string) :=
  match loc with
  | Some l =>
      match raw_address l with
      | Some address =>
          let city := py_or (py_or (address_get address "city")
                                   (address_get address "town"))
                            (address_get address "village") in
          let state := py_or (address_get address "state")
                             (address_get address "county") in
          let country := address_get address "country" in
          Ok (Some (join_comma (filter_truthy [city; state; country])))
      | None => Raise KeyError
      end
  | None => Ok None
  end.

(** [tuple(map(float, cached_location.split(', ')))] *)
Definition key_coords `{Externals} (cached_location : string) : result (list float) :=
  match mapM float_of_str (split_comma cached_location) with
  | Some l => Ok l
  | None => Raise ValueError
  end.

(** The distance in km between the query and a cached key. *)
Definition key_distance `{Externals} (latitude longitude : float) (cached_location : string)
  : result float :=
  rbind (key_coords cached_location) (λ p,
    match geodesic_km (latitude, longitude) p with
    | Some d => Ok d
    | None => Raise ValueError
    end).

(** [_is_cached_location_nearby]: the first entry, in the order of the
    dictionary, at most the threshold away. *)
Fixpoint scan_cache `{Externals} (threshold latitude longitude : float)
    (d : list (string * string)) : result (option string) :=
  match d with
  | [] => Ok None
  | (cached_location, location_str) :: rest =>
      rbind (key_distance latitude longitude cached_location) (λ km,
        if (km <=? threshold)%float then Ok (Some location_str)
        else scan_cache threshold latitude longitude rest)
  end.

Definition _is_cached_location_nearby `{Externals} (cfg : Config)
    (latitude longitude : float) : M (option string) :=
  λ w, (scan_cache (cache_distance_threshold cfg) latitude longitude (location_cache w), w).

(** The key of a coordinate: [f"{latitude}, {longitude}"] *)
Definition cache_key `{Externals} (latitude longitude : float) : string :=
  float_str latitude ++ ", " ++ float_str longitude.

(** [RateLimiter(self.geolocator.reverse, min_delay_seconds=1.5)] keeps
    geopy's defaults [max_retries=2], [swallow_exceptions=True] and
    [return_value_on_exception=None]. *)
Definition max_retries : nat := 2.

(** [RateLimiter.__call__], started when [sent] requests have been sent:
    its outcome and the number of requests it sends.  A request that fails
    with a geocoder service error is sent again, up to [retries] more
    times; the last such failure is swallowed and the call returns [None].
    Any other exception escapes at once.  (The pauses between the requests
    are not modelled.) *)
Fixpoint limited `{Externals} (retries sent : nat) (query : string) (timeout : nat)
  : result (option location) * nat :=
  match nominatim_reverse sent query timeout with
  | Ok loc => (Ok loc, 1)
  | Raise e =>
      if exn_eqb e GeocoderServiceError then
        match retries with
        | S k => let '(r, n) := limited k (S sent) query timeout in (r, S n)
        | 0 => (Ok None, 1)
        end
      else (Raise e, 1)
  end.

Definition limited_reverse `{Externals} (sent : nat) (query : string) (timeout : nat)
  : result (option location) :=
  fst (limited max_retries sent query timeout).

Definition limited_requests `{Externals} (sent : nat) (query : string) (timeout : nat) : nat :=
  snd (limited max_retries sent query timeout).

(** [self.reverse(query, timeout=...)]: one call through the rate
    limiter. *)
Definition call_reverse `{Externals} (query : string) (timeout : nat) : M (option location) :=
  λ w, (limited_reverse (requests w) query timeout,
        count_requests (limited_requests (requests w) query timeout) w).

(** [self.location_cache[key] = location_str] *)
Definition store (key location_str : string) : M unit :=
  λ w, (Ok tt, set_cache (dict_set key location_str (location_cache w)) w).

(** [reverse_geocode(latitude, longitude)] *)
Definition reverse_geocode `{Externals} (cfg : Config) (latitude longitude : float)
  : M (option string) :=
  try_all
    (let* cached :=
       (if cache_geocoding_results cfg
        then _is_cached_location_nearby cfg latitude longitude
        else ret None) in
     if opt_str_truthy cached then ret cached
     else
       let* loc := call_reverse (cache_key latitude longitude) (geocoding_timeout cfg) in
       let* location_str := lift (_parse_location loc) in
       let* _ :=
         (match location_str with
          | Some s =>
              if str_truthy s && cache_geocoding_results cfg then
                let* _ := store (cache_key latitude longitude) s in
                _save_cache
              else ret tt
          | None => ret tt
          end) in
       ret location_str)
    (ret None).

End Geolocator.

(** ** class PhotoProcessor *)

(** [unidecode(s)]: plain ASCII text is returned as it is, anything else
    goes through the transliteration tables. *)
Definition unidecode `{Externals} (s : string) : string :=
  if str_all (λ c, bool_decide (nat_of_ascii c < 128)%nat) s then s else transliterate s.

(** The counters of [process_photos]. *)
Record counters := {
  processed_photos : nat;
  sortable_photos : nat;
  unsortable_photos : nat
}.

(** A progress event:
    [(processed, total, sortable, unsortable, photo_path)]. *)
Record event := {
  ev_processed : nat;
  ev_total : nat;
  ev_sortable : nat;
  ev_unsortable : nat;
  ev_path : string
}.

(** The primitive that transfers the file. *)
Inductive transfer := Copy | Move.

Module PhotoProcessor.

(** [_get_gps_coordinates(exif_data)] *)
Definition _get_gps_coordinates (cfg : Config) (exif_data : option Image)
  : option float * option float :=
  match ExifExtractor.get_gps_coordinates cfg exif_data with
  | Ok r => r
  | Raise _ => (None, None)
  end.

(** [_validate_gps_coordinates(latitude, longitude)] *)
Definition _validate_gps_coordinates (latitude longitude : option float) : bool :=
  match latitude, longitude with
  | Some lat, Some lon =>
      if negb ((24 <=? lat)%float && (lat <=? 49)%float
               && (-125 <=? lon)%float && (lon <=? -66)%float)
      then false else true
  | _, _ => false
  end.

(** [_reverse_geocode(latitude, longitude)] *)
Definition _reverse_geocode `{Externals} (cfg : Config) (latitude longitude : float)
  : M (option string) :=
  try_all
    (let* city := Geolocator.reverse_geocode cfg latitude longitude in
     match city with
     | Some s => if str_truthy s then ret (Some (unidecode s)) else ret city
     | None => ret city
     end)
    (ret None).

(** [_apply_location_filters(city_rgeo)]; [None] has no [split]. *)
Definition _apply_location_filters (cfg : Config) (city_rgeo : option string) : result string :=
  match city_rgeo with
  | None => Raise AttributeError
  | Some s =>
      let location_parts := split_comma s in
      if group_by_country cfg then py_last location_parts
      else if group_by_state cfg then Ok (join_comma (py_last_two location_parts))
      else if group_by_city cfg then Ok (join_comma (reverse location_parts))
      else Ok (join_comma (reverse location_parts))
  end.

(** [_get_photo_date(exif_data)] *)
Definition _get_photo_date `{Externals} (cfg : Config) (exif_data : option Image)
  : option datetime :=
  match ExifExtractor.get_photo_date cfg exif_data with
  | Ok r => r
  | Raise _ => None
  end.

(** [_create_output_path(output_directory, city, photo_date)]; the
    handler logs and re-raises. *)
Definition _create_output_path `{Externals} (cfg : Config) (output_directory city : string)
    (photo_date : option datetime) : M string :=
  let* output_path :=
    lift (match (if sort_by_date cfg then photo_date else None) with
          | Some d =>
              rbind (strftime d (date_format cfg)) (λ date_dir,
                if sort_by_location cfg
                then Ok (path_join output_directory [city; date_dir])
                else Ok (path_join output_directory [date_dir]))
          | None =>
              if sort_by_location cfg
              then Ok (path_join output_directory [city])
              else Ok output_directory
          end) in
  let* _ := makedirs output_path in
  ret output_path.

(** [_create_unsortable_path(output_directory, photo_date)] *)
Definition _create_unsortable_path `{Externals} (cfg : Config) (output_directory : string)
    (photo_date : option datetime) : M string :=
  let unsortable_dir := path_join output_directory [unsortable_folder cfg] in
  let* output_path :=
    lift (match (if sort_by_date cfg then photo_date else None) with
          | Some d =>
              rbind (strftime d (date_format cfg)) (λ date_dir,
                Ok (path_join unsortable_dir [date_dir]))
          | None => Ok unsortable_dir
          end) in
  let* _ := makedirs output_path in
  ret output_path.

(** The name tried at round [i] of the duplicate loop:
    [f"{base}{duplicate_suffix}{i}{ext}"] under [output_path]. *)
Definition candidate (cfg : Config) (output_path photo_name : string) (i : nat) : string :=
  let '(base, ext) := splitext photo_name in
  path_join output_path [base ++ duplicate_suffix cfg ++ pretty i ++ ext].

(** [while os.path.exists(candidate i): i += 1], for at most [fuel]
    rounds. *)
Fixpoint first_free (f : gmap string node) (name : nat → string) (fuel i : nat) : option nat :=
  match fuel with
  | 0 => None
  | S fuel' => if path_exists f (name i) then first_free f name fuel' (S i) else Some i
  end.

(** The body shared by [_copy_photo] and [_move_photo], which differ in
    the primitive only.  The loop is given one round more than there are
    paths in the file system (see [first_free_total]). *)
Definition place (how : transfer) (cfg : Config) (photo_path output_path : string)
  : M (option string) :=
  try_all
    (let photo_name := basename photo_path in
     let destination_path := path_join output_path [photo_name] in
     let* w := get_world in
     if skip_duplicates cfg && path_exists (fs w) destination_path then ret None
     else
       let* destination_path :=
         (if path_exists (fs w) destination_path then
            match first_free (fs w) (candidate cfg output_path photo_name)
                             (S (size (fs w))) 1 with
            | Some i => ret (candidate cfg output_path photo_name i)
            | None => raise OSError
            end
          else ret destination_path) in
       let* _ := (match how with
                  | Copy => copy2 photo_path destination_path
                  | Move => move photo_path destination_path
                  end) in
       ret (Some destination_path))
    (ret None).

(** [_copy_photo(photo_path, output_path)] *)
Definition _copy_photo := place Copy.

(** [_move_photo(photo_path, output_path)] *)
Definition _move_photo := place Move.

(** The destination of a photo with EXIF data and whether it counts as
    sortable: the branch on [_validate_gps_coordinates] in the loop of
    [process_photos]. *)
Definition resolve_output_path `{Externals} (cfg : Config) (output_directory : string)
    (exif_data : Image) : M (string * bool) :=
  let '(latitude, longitude) := _get_gps_coordinates cfg (Some exif_data) in
  let photo_date := _get_photo_date cfg (Some exif_data) in
  if _validate_gps_coordinates latitude longitude then
    let* city_rgeo := _reverse_geocode cfg (default 0%float latitude)
                                       (default 0%float longitude) in
    let* city := lift (_apply_location_filters cfg city_rgeo) in
    if str_truthy city then
      let* output_path := _create_output_path cfg output_directory city photo_date in
      ret (output_path, true)
    else
      let* output_path := _create_unsortable_path cfg output_directory photo_date in
      ret (output_path, false)
  else
    let* output_path := _create_unsortable_path cfg output_directory photo_date in
    ret (output_path, false).

(** What one round of the loop of [process_photos] does before it
    yields: [None] for a photo without EXIF data, otherwise whether the
    photo was sortable. *)
Definition handle_photo `{Externals} (cfg : Config) (output_directory photo_path : string)
  : M (option bool) :=
  let* exif_data := ExifExtractor.extract_exif_data photo_path in
  match exif_data with
  | None => ret None
  | Some img =>
      let* (output_path, is_sortable) := resolve_output_path cfg output_directory img in
      let* _ := (if copy_files cfg
                 then _copy_photo cfg photo_path output_path
                 else _move_photo cfg photo_path output_path) in
      ret (Some is_sortable)
  end.

Definition bump_unsortable (c : counters) : counters :=
  {| processed_photos := processed_photos c;
     sortable_photos := sortable_photos c;
     unsortable_photos := S (unsortable_photos c) |}.

Definition bump_processed (is_sortable : bool) (c : counters) : counters :=
  {| processed_photos := S (processed_photos c);
     sortable_photos := if is_sortable then S (sortable_photos c) else sortable_photos c;
     unsortable_photos := if is_sortable then unsortable_photos c else S (unsortable_photos c) |}.

Definition yield (processed total : nat) (c : counters) (photo_path : string) : event :=
  {| ev_processed := processed; ev_total := total;
     ev_sortable := sortable_photos c; ev_unsortable := unsortable_photos c;
     ev_path := photo_path |}.

(** One round of the loop: the counters after it, and the event it
    yields. *)
Definition process_photo `{Externals} (cfg : Config) (output_directory : string)
    (total_photos : nat) (c : counters) (photo_path : string) (w : world)
  : event * counters * world :=
  match handle_photo cfg output_directory photo_path w with
  | (Ok None, w') =>
      let c' := bump_unsortable c in
      (yield (processed_photos c' + 1) total_photos c' photo_path, c', w')
  | (Ok (Some is_sortable), w') =>
      let c' := bump_processed is_sortable c in
      (yield (processed_photos c') total_photos c' photo_path, c', w')
  | (Raise _, w') =>
      let c' := bump_unsortable c in
      (yield (processed_photos c') total_photos c' photo_path, c', w')
  end.

Fixpoint process_loop `{Externals} (cfg : Config) (output_directory : string)
    (total_photos : nat) (c : counters) (photo_paths : list string) (w : world)
  : list event * counters * world :=
  match photo_paths with
  | [] => ([], c, w)
  | photo_path :: rest =>
      let '(ev, c', w') := process_photo cfg output_directory total_photos c photo_path w in
      let '(evs, c'', w'') := process_loop cfg output_directory total_photos c' rest w' in
      (ev :: evs, c'', w'')
  end.

(** [process_photos(photo_paths, output_directory)]: the events yielded,
    the counters when the generator is exhausted, and the final state. *)
Definition process_photos `{Externals} (cfg : Config) (photo_paths : list string)
    (output_directory : string) (w : world) : list event * counters * world :=
  process_loop cfg output_directory (List.length photo_paths)
    {| processed_photos := 0; sortable_photos := 0; unsortable_photos := 0 |}
    photo_paths w.

End PhotoProcessor.

(** ** A concrete setting for the examples

    Stand-ins for the library functions, defined on the few values the
    examples use: two coordinates with their printed forms, a flat-earth
    distance, one timestamp, three photo files. *)

Definition nyc_lat : float := 40.7128%float.
Definition nyc_lon : float := (-74.006)%float.

Definition demo_float_str (f : float) : string :=
  if (f =? nyc_lat)%float then "40.7128"
  else if (f =? nyc_lon)%float then "-74.006"
  else if (f =? 40.713)%float then "40.713"
  else "0.0".

Definition demo_float_of_str (s : string) : option float :=
  if String.eqb s "40.7128" then Some nyc_lat
  else if String.eqb s "-74.006" then Some nyc_lon
  else if String.eqb s "40.713" then Some 40.713%float
  else if String.eqb s "0.0" then Some 0%float
  else None.

(** About 111 km per degree, along both axes. *)
Definition demo_geodesic_km (p : float * float) (q : list float) : option float :=
  match q with
  | [lat; lon] => Some (111 * (abs (fst p - lat) + abs (snd p - lon)))%float
  | _ => None
  end.

Definition march_15 : datetime :=
  {| year := 2024; month := 3; day := 15; hour := 10; minute := 30; second := 0 |}.

Definition demo_strptime (s fmt : string) : option datetime :=
  if String.eqb s "2024:03:15 10:30:00" then Some march_15 else None.

Definition dms (d m s : float) : pyval := PyTuple [PyFloat d; PyFloat m; PyFloat s].

(** A photo taken in New York on 2024-03-15. *)
Definition nyc_image : Image :=
  {| has_exif := true;
     attrs := list_to_map
       [("gps_latitude", PyFloat nyc_lat); ("gps_longitude", PyFloat nyc_lon);
        ("DateTime", PyStr "2024:03:15 10:30:00")] |}.

(** A photo tagged with the placeholder coordinate (0.0, 0.0), as
    degrees, minutes and seconds. *)
Definition null_island_image : Image :=
  {| has_exif := true;
     attrs := list_to_map
       [("gps_latitude", dms 0 0 0); ("gps_latitude_ref", PyStr "N");
        ("gps_longitude", dms 0 0 0); ("gps_longitude_ref", PyStr "E");
        ("DateTime", PyStr "2024:03:15 10:30:00")] |}.

(** A photo with a date and no GPS tags. *)
Definition dated_image : Image :=
  {| has_exif := true;
     attrs := list_to_map [("DateTime", PyStr "2024:03:15 10:30:00")] |}.

Definition demo_exif_Image (bytes : string) : option Image :=
  if String.eqb bytes "nyc" then Some nyc_image
  else if String.eqb bytes "null-island" then Some null_island_image
  else if String.eqb bytes "dated" then Some dated_image
  else None.

Definition quote : string := String (ascii_of_nat 34) EmptyString.

(** Text without characters to escape, between quotes. *)
Definition demo_json_str (s : string) : string := quote ++ s ++ quote.

(** A platform that knows one more format, with a two-digit year, and
    rejects everything else. *)
Definition demo_platform_strftime (dt : datetime) (fmt : string) : result string :=
  if String.eqb fmt "%y%m%d"
  then Ok (pad2 (year dt mod 100) ++ pad2 (month dt) ++ pad2 (day dt))
  else Raise ValueError.

(** The levels of [logging]. *)
Definition demo_logging_level (name : string) : result unit :=
  if existsb (String.eqb name) ["DEBUG"; "INFO"; "WARNING"; "ERROR"; "CRITICAL"]
  then Ok tt else Raise AttributeError.

Definition demo_externals (backend : nat → string → nat → result (option location))
  : Externals :=
  {| float_str := demo_float_str;
     float_of_str := demo_float_of_str;
     geodesic_km := demo_geodesic_km;
     transliterate := λ s, s;
     strptime := demo_strptime;
     exif_Image := demo_exif_Image;
     json_str := demo_json_str;
     json_loads := λ _, None;
     nominatim_reverse := backend;
     platform_strftime := demo_platform_strftime;
     logging_level := demo_logging_level |}.

Definition new_york : location :=
  {| raw_address := Some (list_to_map
       [("city", "New York"); ("state", "New York"); ("country", "United States")]) |}.

(** A service that always answers New York. *)
Definition backend_new_york : nat → string → nat → result (option location) :=
  λ _ _ _, Ok (Some new_york).

(** A service that is down. *)
Definition backend_down : nat → string → nat → result (option location) :=
  λ _ _ _, Raise GeocoderServiceError.

(** A service that times out on the first three requests and answers
    afterwards. *)
Definition backend_flaky : nat → string → nat → result (option location) :=
  λ n _ _, if bool_decide (n < 3)%nat then Raise GeocoderServiceError else Ok (Some new_york).

(** The defaults of [load_config], with a date format of [%Y-%m-%d]. *)
Definition default_config : Config :=
  {| copy_files := true;
     sort_by_location := true; sort_by_date := true;
     group_by_country := false; group_by_state := false; group_by_city := true;
     date_format := "%Y-%m-%d";
     cache_distance_threshold := 1%float;
     geocoding_timeout := 10;
     use_exif_date := true; fallback_to_file_date := true;
     date_taken_key := "DateTime"; use_exif_gps := true;
     skip_duplicates := true; duplicate_suffix := "_duplicate";
     unsortable_folder := "Unsortable";
     cache_geocoding_results := true;
     log_file := "photo_sort.log"; log_level := "INFO" |}.

Definition with_skip_duplicates (b : bool) (suffix : string) (cfg : Config) : Config :=
  {| copy_files := copy_files cfg;
     sort_by_location := sort_by_location cfg; sort_by_date := sort_by_date cfg;
     group_by_country := group_by_country cfg; group_by_state := group_by_state cfg;
     group_by_city := group_by_city cfg;
     date_format := date_format cfg;
     cache_distance_threshold := cache_distance_threshold cfg;
     geocoding_timeout := geocoding_timeout cfg;
     use_exif_date := use_exif_date cfg; fallback_to_file_date := fallback_to_file_date cfg;
     date_taken_key := date_taken_key cfg; use_exif_gps := use_exif_gps cfg;
     skip_duplicates := b; duplicate_suffix := suffix;
     unsortable_folder := unsortable_folder cfg;
     cache_geocoding_results := cache_geocoding_results cfg;
     log_file := log_file cfg; log_level := log_level cfg |}.

Definition with_date_format (fmt : string) (cfg : Config) : Config :=
  {| copy_files := copy_files cfg;
     sort_by_location := sort_by_location cfg; sort_by_date := sort_by_date cfg;
     group_by_country := group_by_country cfg; group_by_state := group_by_state cfg;
     group_by_city := group_by_city cfg;
     date_format := fmt;
     cache_distance_threshold := cache_distance_threshold cfg;
     geocoding_timeout := geocoding_timeout cfg;
     use_exif_date := use_exif_date cfg; fallback_to_file_date := fallback_to_file_date cfg;
     date_taken_key := date_taken_key cfg; use_exif_gps := use_exif_gps cfg;
     skip_duplicates := skip_duplicates cfg; duplicate_suffix := duplicate_suffix cfg;
     unsortable_folder := unsortable_folder cfg;
     cache_geocoding_results := cache_geocoding_results cfg;
     log_file := log_file cfg; log_level := log_level cfg |}.

Definition empty_world : world :=
  {| fs := ∅; location_cache := []; requests := 0 |}.

(** Three photos in [/in]: one from New York, one without EXIF data, one
    with a date only. *)
Definition demo_world : world :=
  {| fs := list_to_map [("/in/a.jpg", File "nyc"); ("/in/b.jpg", File "junk");
                        ("/in/c.jpg", File "dated"); ("/in/d.jpg", File "null-island")];
     location_cache := [];
     requests := 0 |}.

(** An output directory that already holds [a.jpg] and two suffixed
    copies of it. *)
Definition crowded_world : world :=
  {| fs := list_to_map [("/in/a.jpg", File "nyc"); ("/out/d", Dir);
                        ("/out/d/a.jpg", File "old");
                        ("/out/d/a_dup1.jpg", File "older");
                        ("/out/d/a_dup2.jpg", File "oldest")];
     location_cache := [];
     requests := 0 |}.

(** A cache that already knows a far-away place and a spot some twenty
    metres from the New York coordinate. *)
Definition cached_world : world :=
  {| fs := ∅;
     location_cache := [("0.0, 0.0", "Null Island");
                        ("40.713, -74.006", "New York, New York, United States")];
     requests := 0 |}.


(** A disk on which an earlier run has saved a cache of one entry. *)
Definition saved_fs : gmap string node :=
  {[ Geolocator.cache_file :=
       File (quote ++ "0.0, 0.0" ++ quote ++ ": " ++ quote ++ "Null Island" ++ quote) ]}.

(** ** Vocabulary of the statements *)

(** A string that starts with a character other than the separator. *)
Definition starts_plain (s : string) : Prop :=
  ∃ c rest, s = String c rest ∧ c ≠ sep.

(** The cached key [k] is at most [threshold] km from the query. *)
Definition within `{Externals} (threshold latitude longitude : float) (k : string) : Prop :=
  ∃ km, Geolocator.key_distance latitude longitude k = Ok km
        ∧ (km <=? threshold)%float = true.

(** The cached key [k] is further than [threshold] km from the query. *)
Definition beyond `{Externals} (threshold latitude longitude : float) (k : string) : Prop :=
  ∃ km, Geolocator.key_distance latitude longitude k = Ok km
        ∧ (km <=? threshold)%float = false.



(** Resolving a coordinate twice in a row: the second answer is the first
    and the cache has not grown. *)
Definition resolve_twice_idempotent `{Externals} (cfg : Config) (latitude longitude : float)
    (w : world) : Prop :=
  let '(r1, w1) := Geolocator.reverse_geocode cfg latitude longitude w in
  let '(r2, w2) := Geolocator.reverse_geocode cfg latitude longitude w1 in
  r2 = r1 ∧ List.length (location_cache w2) = List.length (location_cache w1).

(** The text of the cache file. *)
Definition cache_file_text (f : gmap string node) : option string :=
  match f !! Geolocator.cache_file with
  | Some (File text) => Some text
  | _ => None
  end.

(** The complete JSON text of a cache. *)
Definition json_text `{Externals} (d : list (string * string)) : string :=
  foldr String.append "" (Geolocator.json_chunks d).

(** Saving is atomic when, wherever the write is interrupted, the cache
    file holds either what it held before or the complete new text. *)
Definition save_is_atomic `{Externals} (f : gmap string node) (d : list (string * string))
  : Prop :=
  ∀ n, let f' := snd (run_ops f (take n (Geolocator.save_ops d))) in
       cache_file_text f' = cache_file_text f
       ∨ cache_file_text f' = Some (json_text d).

(** ** Further vocabulary and examples *)

(** [d.get(k)] on a dictionary of strings. *)
Fixpoint dict_get (k : string) (d : list (string * string)) : option string :=
  match d with
  | [] => None
  | (k', v) :: rest => if String.eqb k' k then Some v else dict_get k rest
  end.

(** The cache file holds the JSON text of the cache in memory. *)
Definition in_sync `{Externals} (w : world) : Prop :=
  cache_file_text (fs w) = Some (json_text (location_cache w)).

(** The file [p], when there is one, is still there with its content. *)
Definition keeps_file (f f' : gmap string node) (p : string) : Prop :=
  ∀ content, f !! p = Some (File content) → f' !! p = Some (File content).

(** There is a regular file at [p]. *)
Definition is_file (f : gmap string node) (p : string) : Prop :=
  ∃ content, f !! p = Some (File content).

(** [", " in s] *)
Fixpoint has_comma_space (s : string) : bool :=
  match s with
  | EmptyString => false
  | String ","%char (String " "%char _) => true
  | String _ rest => has_comma_space rest
  end.

(** A service that finds a location whose address names no place. *)
Definition backend_nameless : nat → string → nat → result (option location) :=
  λ _ _ _, Ok (Some {| raw_address := Some ∅ |}).

(** The stand-ins again, with a parser that reads back the two texts the
    examples save. *)
Definition demo_externals_loads : Externals :=
  {| float_str := demo_float_str;
     float_of_str := demo_float_of_str;
     geodesic_km := demo_geodesic_km;
     transliterate := λ s, s;
     strptime := demo_strptime;
     exif_Image := demo_exif_Image;
     json_str := demo_json_str;
     json_loads := λ s,
       if String.eqb s "{}" then Some []
       else if String.eqb s ("{" ++ quote ++ "a" ++ quote ++ ": " ++ quote ++ "b" ++ quote ++ "}")
            then Some [("a", "b")]
       else None;
     nominatim_reverse := backend_new_york;
     platform_strftime := demo_platform_strftime;
     logging_level := demo_logging_level |}.

(** A state whose cache file matches its cache. *)
Definition synced_world : world :=
  {| fs := {[ Geolocator.cache_file := File "{}" ]};
     location_cache := [];
     requests := 0 |}.

(** A state in which the cache file cannot be written: its path is a
    directory. *)
Definition blocked_world : world :=
  {| fs := {[ Geolocator.cache_file := Dir ]};
     location_cache := [];
     requests := 0 |}.

Definition with_caching (b : bool) (cfg : Config) : Config :=
  {| copy_files := copy_files cfg;
     sort_by_location := sort_by_location cfg; sort_by_date := sort_by_date cfg;
     group_by_country := group_by_country cfg; group_by_state := group_by_state cfg;
     group_by_city := group_by_city cfg;
     date_format := date_format cfg;
     cache_distance_threshold := cache_distance_threshold cfg;
     geocoding_timeout := geocoding_timeout cfg;
     use_exif_date := use_exif_date cfg; fallback_to_file_date := fallback_to_file_date cfg;
     date_taken_key := date_taken_key cfg; use_exif_gps := use_exif_gps cfg;
     skip_duplicates := skip_duplicates cfg; duplicate_suffix := duplicate_suffix cfg;
     unsortable_folder := unsortable_folder cfg;
     cache_geocoding_results := b;
     log_file := log_file cfg; log_level := log_level cfg |}.

(** A cache with a far entry, a near entry and, after it, the exact
    coordinate. *)
Definition layered_world : world :=
  {| fs := ∅;
     location_cache := [("0.0, 0.0", "Null Island");
                        ("40.713, -74.006", "Near");
                        ("40.7128, -74.006", "Exact")];
     requests := 0 |}.

(** A state with one cached entry and no cache file yet. *)
Definition unsaved_world : world :=
  {| fs := ∅; location_cache := [("a", "b")]; requests := 0 |}.

(** The parts [_parse_location] joins: the locality, the region and the
    country of an address, those that are present and not empty. *)
Definition address_parts (address : gmap string string) : list string :=
  filter_truthy
    [py_or (py_or (Geolocator.address_get address "city")
                  (Geolocator.address_get address "town"))
           (Geolocator.address_get address "village");
     py_or (Geolocator.address_get address "state")
           (Geolocator.address_get address "county");
     Geolocator.address_get address "country"].

Definition with_grouping (country state city : bool) (cfg : Config) : Config :=
  {| copy_files := copy_files cfg;
     sort_by_location := sort_by_location cfg; sort_by_date := sort_by_date cfg;
     group_by_country := country; group_by_state := state; group_by_city := city;
     date_format := date_format cfg;
     cache_distance_threshold := cache_distance_threshold cfg;
     geocoding_timeout := geocoding_timeout cfg;
     use_exif_date := use_exif_date cfg; fallback_to_file_date := fallback_to_file_date cfg;
     date_taken_key := date_taken_key cfg; use_exif_gps := use_exif_gps cfg;
     skip_duplicates := skip_duplicates cfg; duplicate_suffix := duplicate_suffix cfg;
     unsortable_folder := unsortable_folder cfg;
     cache_geocoding_results := cache_geocoding_results cfg;
     log_file := log_file cfg; log_level := log_level cfg |}.

(** A village in a county, with no state. *)
Definition hamlet_address : gmap string string :=
  list_to_map [("village", "Grafton"); ("county", "Windham County");
               ("country", "United States")].

(** The photos of [demo_world], with an output directory that exists. *)
Definition ready_world : world :=
  {| fs := <["/out" := Dir]> (fs demo_world); location_cache := []; requests := 0 |}.

(** The state after a first batch that copied [/in/a.jpg]. *)
Definition sorted_once_world : world :=
  (PhotoProcessor.process_photos (H := demo_externals backend_new_york)
     default_config ["/in/a.jpg"] "/out" demo_world).2.

(** ** Logging to a file *)

(** [configure_file_logging(log_file, log_level)].  Logging is left out of
    this development: the log file and the text written to it are not part
    of the modelled file system.  What is kept is how the set-up can fail:
    [logging.FileHandler] opens the file for appending, which needs a path
    that is not a directory, in a directory that exists; the level is then
    looked up in [logging] and given to the handler. *)
Definition configure_file_logging `{Externals} (log_file log_level : string) : M unit :=
  λ w,
    let opened :=
      match fs w !! log_file with
      | Some Dir => Raise IsADirectoryError
      | Some (File _) => Ok tt
      | None => dir_ready (fs w) log_file
      end in
    (rbind opened (λ _, logging_level log_level), w).

(** ** class GUI: running a batch *)

Module GUI.

Definition newline : string := String (ascii_of_nat 10) EmptyString.

(** The text [show_completion_message] puts in its dialog. *)
Definition completion_message (total_photos processed_photos sortable_photos
    unsortable_photos : nat) : string :=
  "Photo sorting completed." ++ newline
  ++ "Total photos: " ++ pretty total_photos ++ newline
  ++ "Processed photos: " ++ pretty processed_photos ++ newline
  ++ "Sortable photos: " ++ pretty sortable_photos ++ newline
  ++ "Unsortable photos: " ++ pretty unsortable_photos.

(** [process_photos_async].  The log file is set up first, outside the
    [try]: an error there escapes and nothing else is done.  Then the
    events are consumed, the last one is unpacked as
    [total_photos, processed_photos, sortable_photos, unsortable_photos, _]
    and shown; with no event at all the name [progress_info] is unbound and
    the handler shows the error box instead ([None] here).  The cache is
    saved in either case, and an error of that save escapes. *)
Definition process_photos_async `{Externals} (cfg : Config) (photo_paths : list string)
    (output_directory : string) : M (option string) :=
  let log_file_path := path_join output_directory [log_file cfg] in
  let* _ := configure_file_logging log_file_path (log_level cfg) in
  λ w,
    let '(events, _, w1) :=
      PhotoProcessor.process_photos cfg photo_paths output_directory w in
    let shown :=
      match last events with
      | Some progress_info =>
          let total_photos := ev_processed progress_info in
          let processed_photos := ev_total progress_info in
          let sortable_photos := ev_sortable progress_info in
          let unsortable_photos := ev_unsortable progress_info in
          Some (completion_message total_photos processed_photos
                                   sortable_photos unsortable_photos)
      | None => None
      end in
    match Geolocator._save_cache w1 with
    | (Ok _, w2) => (Ok shown, w2)
    | (Raise e, w2) => (Raise e, w2)
    end.

End GUI.

(** ** [load_config] and the configuration parser *)

Module Configuration.

(** [c.lower()] on an ASCII character. *)
Definition ascii_lower (c : ascii) : ascii :=
  let n := nat_of_ascii c in
  if bool_decide (65 ≤ n)%nat && bool_decide (n ≤ 90)%nat
  then ascii_of_nat (n + 32) else c.

(** [optionxform]: option names are lower-cased. *)
Fixpoint optionxform (s : string) : string :=
  match s with
  | EmptyString => EmptyString
  | String c rest => String (ascii_lower c) (optionxform rest)
  end.

(** A [ConfigParser]: the options of the [DEFAULT] section and, for each
    other section, its own options. *)
Record ini := {
  ini_defaults : gmap string string;
  ini_sections : gmap string (gmap string string)
}.

Definition empty_ini : ini := {| ini_defaults := ∅; ini_sections := ∅ |}.

Inductive config_error :=
  | DuplicateSectionError
  | NoSectionError
  | NoOptionError
  | InvalidSectionName
  | InvalidInterpolation
  | InterpolationSyntaxError
  | InterpolationMissingOptionError
  | InterpolationDepthError
  | ParsingError.

Inductive outcome (A : Type) :=
  | Done (a : A)
  | Failed (e : config_error).
Arguments Done {A} a.
Arguments Failed {A} e.

Definition default_section : string := "DEFAULT".

(** [config.has_section(section)] *)
Definition has_section (section : string) (c : ini) : bool :=
  bool_decide (is_Some (ini_sections c !! section)).

(** [config.has_option(section, option)]: an option of [DEFAULT] counts
    for every section that exists. *)
Definition has_option (section name : string) (c : ini) : bool :=
  if String.eqb section "" || String.eqb section default_section
  then bool_decide (is_Some (ini_defaults c !! optionxform name))
  else match ini_sections c !! section with
       | None => false
       | Some options =>
           bool_decide (is_Some (options !! optionxform name))
           || bool_decide (is_Some (ini_defaults c !! optionxform name))
       end.

(** [config.add_section(section)] *)
Definition add_section (section : string) (c : ini) : outcome ini :=
  if String.eqb section default_section then Failed InvalidSectionName
  else if has_section section c then Failed DuplicateSectionError
  else Done {| ini_defaults := ini_defaults c;
               ini_sections := <[section := ∅]> (ini_sections c) |}.

(** [value.replace('%%', '')] *)
Fixpoint drop_escaped_percent (s : string) : string :=
  match s with
  | EmptyString => EmptyString
  | String "%"%char (String "%"%char rest) => drop_escaped_percent rest
  | String c rest => String c (drop_escaped_percent rest)
  end.

(** The length of a match of [[^)]+\)s] at the start of [s], after [seen]
    characters of the name. *)
Fixpoint key_tail (seen : nat) (s : string) : option nat :=
  match s with
  | EmptyString => None
  | String ")"%char rest =>
      match seen, rest with
      | S _, String "s"%char _ => Some (seen + 2)%nat
      | _, _ => None
      end
  | String _ rest => key_tail (S seen) rest
  end.

(** The length of a match of the pattern [%\(([^)]+)\)s] at the start of
    [s]. *)
Definition key_match (s : string) : option nat :=
  match s with
  | String "%"%char (String "("%char rest) =>
      match key_tail 0 rest with
      | Some n => Some (n + 2)%nat
      | None => None
      end
  | _ => None
  end.

(** [_KEYCRE.sub('', s)]: every match is taken out, left to right;
    [skip] counts the characters of the current match still to drop. *)
Fixpoint drop_keys (skip : nat) (s : string) : string :=
  match s with
  | EmptyString => EmptyString
  | String c rest =>
      match skip with
      | S k => drop_keys k rest
      | O =>
          match key_match s with
          | Some n => drop_keys (n - 1) rest
          | None => String c (drop_keys 0 rest)
          end
      end
  end.

Fixpoint str_contains (c : ascii) (s : string) : bool :=
  match s with
  | EmptyString => false
  | String a rest => Ascii.eqb a c || str_contains c rest
  end.

(** [BasicInterpolation.before_set]: a percent sign must be doubled or
    start a reference. *)
Definition before_set_ok (value : string) : bool :=
  negb (str_contains "%"%char (drop_keys 0 (drop_escaped_percent value))).

(** [config.set(section, option, value)] *)
Definition set (section name value : string) (c : ini) : outcome ini :=
  if str_truthy value && negb (before_set_ok value) then Failed InvalidInterpolation
  else if String.eqb section "" || String.eqb section default_section
  then Done {| ini_defaults := <[optionxform name := value]> (ini_defaults c);
               ini_sections := ini_sections c |}
  else match ini_sections c !! section with
       | None => Failed NoSectionError
       | Some options =>
           Done {| ini_defaults := ini_defaults c;
                   ini_sections :=
                     <[section := <[optionxform name := value]> options]>
                       (ini_sections c) |}
       end.

(** [config.get(section, option, raw=True)], [None] when it raises. *)
Definition get_raw (section name : string) (c : ini) : option string :=
  match ini_sections c !! section with
  | Some options =>
      match options !! optionxform name with
      | Some v => Some v
      | None => ini_defaults c !! optionxform name
      end
  | None =>
      if String.eqb section default_section
      then ini_defaults c !! optionxform name
      else None
  end.

Definition backslash : string := String (ascii_of_nat 92) EmptyString.

(** The table [default_config] of [load_config]. *)
Definition default_options : list (string * list (string * string)) :=
  [("general",
    [("operation_mode", "sort"); ("copy_files", "True");
     ("preserve_directory_structure", "True"); ("min_file_size", "0");
     ("max_file_size", "0")]);
   ("input",
    [("input_directory", "C:" ++ backslash ++ "Users" ++ backslash);
     ("recursive_search", "True");
     ("file_extensions", ".jpg, .jpeg, .png, .bmp, .tiff, .heic")]);
   ("output",
    [("output_directory", "C:" ++ backslash ++ "Users" ++ backslash);
     ("create_date_subdirectories", "True"); ("log_file", "photo_sort.log");
     ("log_level", "INFO")]);
   ("sorting",
    [("sort_by_location", "True"); ("sort_by_date", "True");
     ("group_by_country", "False"); ("group_by_state", "False");
     ("group_by_city", "True"); ("date_format", "%%Y-%%m-%%d");
     ("group_by_year", "False"); ("group_by_month", "False")]);
   ("renaming",
    [("rename_photos", "False");
     ("rename_format", "{date}_{location}_{original_name}");
     ("original_name_placeholder", "{original_name}");
     ("date_placeholder", "{date}"); ("location_placeholder", "{location}")]);
   ("geocoding",
    [("cache_distance_threshold", "1.0"); ("geocoding_service", "nominatim");
     ("geocoding_api_key", ""); ("geocoding_timeout", "10");
     ("geocoding_max_retries", "3")]);
   ("exif",
    [("use_exif_date", "True"); ("fallback_to_file_date", "True");
     ("date_taken_key", "DateTime"); ("use_exif_gps", "True")]);
   ("preprocessing",
    [("rotate_images", "False"); ("optimize_images", "False");
     ("target_quality", "85"); ("resize_images", "False");
     ("max_width", "1920"); ("max_height", "1080")]);
   ("duplicates",
    [("skip_duplicates", "True"); ("duplicate_suffix", "_duplicate");
     ("duplicate_check_method", "hash");
     ("duplicate_similarity_threshold", "0.9")]);
   ("unsortable",
    [("unsortable_folder", "Unsortable"); ("move_unsortable", "False");
     ("copy_unsortable", "True")]);
   ("interface",
    [("theme", "default"); ("show_preview", "True"); ("confirm_actions", "True")]);
   ("advanced",
    [("parallel_processing", "True"); ("max_processes", "4");
     ("cache_geocoding_results", "True"); ("geocoding_cache_size", "100");
     ("ignore_errors", "False")])].

(** The inner loop of [load_config]: an option that is missing gets its
    default value. *)
Definition fill_option (section : string) (r : outcome ini) (entry : string * string)
  : outcome ini :=
  match r with
  | Done c =>
      if has_option section entry.1 c then Done c
      else set section entry.1 entry.2 c
  | Failed e => Failed e
  end.

(** The outer loop: a section that is missing is added, then its options
    are filled. *)
Definition fill_section (r : outcome ini) (entry : string * list (string * string))
  : outcome ini :=
  match r with
  | Done c =>
      let r' := if has_section entry.1 c then Done c else add_section entry.1 c in
      foldl (fill_option entry.1) r' entry.2
  | Failed e => Failed e
  end.

Definition fill_defaults (table : list (string * list (string * string))) (c : ini)
  : outcome ini :=
  foldl fill_section (Done c) table.

(** [load_config(config_file)].  [config.read] leaves out a file it
    cannot open (here: a directory) and raises on text it cannot parse;
    [parse] is the parser of the INI syntax.  When the file is missing, an
    empty one is written before the defaults are filled in; as for the
    cache file, the directory of the path is taken to exist (both calls of
    the program pass the bare name [config.ini]). *)
Definition load_config (parse : string → outcome ini) (config_file : string)
    (f : gmap string node) : outcome ini * gmap string node :=
  match f !! config_file with
  | Some (File text) =>
      match parse text with
      | Done c => (fill_defaults default_options c, f)
      | Failed e => (Failed e, f)
      end
  | Some Dir => (fill_defaults default_options empty_ini, f)
  | None => (fill_defaults default_options empty_ini, <[config_file := File ""]> f)
  end.

(** The options a value of [section] may refer to: its own, then those
    of [DEFAULT]. *)
Definition unify_values (section : string) (c : ini) : outcome (string → option string) :=
  match ini_sections c !! section with
  | Some options =>
      Done (λ name, match options !! name with
                    | Some v => Some v
                    | None => ini_defaults c !! name
                    end)
  | None =>
      if String.eqb section default_section
      then Done (λ name, ini_defaults c !! name)
      else Failed NoSectionError
  end.

(** [BasicInterpolation._interpolate_some]: [%%] stands for a percent
    sign and [%(name)s] for the value of the option [name], itself
    interpolated when it holds a percent sign; any other use of a percent
    sign is an error.  [levels] is the number of nested values that may
    still be entered (ten at the start); [skip] counts the characters of a
    reference still to pass over. *)
Fixpoint interpolate_some (levels : nat) (values : string → option string)
  : nat → string → outcome string :=
  match levels with
  | O => λ _ _, Failed InterpolationDepthError
  | S levels' =>
      fix scan (skip : nat) (rest : string) {struct rest} : outcome string :=
        match rest with
        | EmptyString => Done EmptyString
        | String c tail =>
            match skip with
            | S k => scan k tail
            | O =>
                if negb (Ascii.eqb c "%") then
                  match scan 0 tail with
                  | Done t => Done (String c t)
                  | Failed e => Failed e
                  end
                else if str_startswith_char "%" tail then
                  match scan 1 tail with
                  | Done t => Done (String "%"%char t)
                  | Failed e => Failed e
                  end
                else if str_startswith_char "(" tail then
                  match key_match rest with
                  | Some n =>
                      let var := optionxform (String.substring 2 (n - 4) rest) in
                      match values var with
                      | Some v =>
                          match (if str_contains "%"%char v
                                 then interpolate_some levels' values 0 v
                                 else Done v) with
                          | Done v' =>
                              match scan (n - 1) tail with
                              | Done t => Done (v' ++ t)
                              | Failed e => Failed e
                              end
                          | Failed e => Failed e
                          end
                      | None => Failed InterpolationMissingOptionError
                      end
                  | None => Failed InterpolationSyntaxError
                  end
                else Failed InterpolationSyntaxError
            end
        end
  end.

Definition MAX_INTERPOLATION_DEPTH : nat := 10.

(** [config.get(section, option)], with interpolation. *)
Definition get (section name : string) (c : ini) : outcome string :=
  match unify_values section c with
  | Done values =>
      match values (optionxform name) with
      | Some value => interpolate_some MAX_INTERPOLATION_DEPTH values 0 value
      | None => Failed NoOptionError
      end
  | Failed e => Failed e
  end.

(** [option_value.replace('%', '%%')], as [GUI.save_config] does for the
    date format before it sets it. *)
Fixpoint escape_percent (s : string) : string :=
  match s with
  | EmptyString => EmptyString
  | String c rest =>
      if Ascii.eqb c "%" then String "%"%char (String "%"%char (escape_percent rest))
      else String c (escape_percent rest)
  end.

(** A configuration file that sets one option of [DEFAULT] and one of
    [sorting], and a parser for this one text. *)
Definition demo_config_text : string :=
  "[DEFAULT] copy_files=no [sorting] date_format=%%Y".

Definition demo_config : ini :=
  {| ini_defaults := {[ "copy_files" := "no" ]};
     ini_sections := {[ "sorting" := {[ "date_format" := "%%Y" ]} ]} |}.

Definition demo_parse (text : string) : outcome ini :=
  if String.eqb text demo_config_text then Done demo_config else Failed ParsingError.

Definition demo_config_fs : gmap string node :=
  {[ "config.ini" := File demo_config_text ]}.

End Configuration.

(** ** Vocabulary for the configuration *)

(** The value stored for an option name, in the section or else in
    [DEFAULT]. *)
Definition find_raw (section name : string) (c : Configuration.ini) : option string :=
  match Configuration.ini_sections c !! section ≫= (λ options, options !! name) with
  | Some v => Some v
  | None => Configuration.ini_defaults c !! name
  end.

(** The value a table of defaults gives to an option of a section. *)
Fixpoint table_get (section name : string) (table : list (string * list (string * string)))
  : option string :=
  match table with
  | [] => None
  | (s, options) :: rest =>
      if String.eqb s section then
        match dict_get name options with
        | Some v => Some v
        | None => table_get section name rest
        end
      else table_get section name rest
  end.

(** A default that [set] accepts under a lower-case name. *)
Definition option_ok (entry : string * string) : bool :=
  String.eqb (Configuration.optionxform entry.1) entry.1
  && negb (str_truthy entry.2 && negb (Configuration.before_set_ok entry.2)).

Definition section_ok (entry : string * list (string * string)) : bool :=
  negb (String.eqb entry.1 "")
  && negb (String.eqb entry.1 Configuration.default_section)
  && forallb option_ok entry.2.

(** * Properties *)

Import ExifExtractor Geolocator PhotoProcessor.
Local Open Scope nat_scope.

(** ** Coordinate extraction *)

Lemma truthy_zero : truthy (PyFloat 0) = false.
Proof. reflexivity. Qed.

Lemma truthy_neg_zero : truthy (PyFloat (-0)) = false.
Proof. reflexivity. Qed.

(** C6: for every triple of degrees, minutes and seconds and every
    reference string, the conversion returns [d + m/60 + s/3600], negated
    exactly when the reference is ["S"] or ["W"]. *)
Theorem convert_to_decimal_degrees_formula (d m s : float) (ref : string) :
  _convert_to_decimal_degrees (PyTuple [PyFloat d; PyFloat m; PyFloat s]) (PyStr ref)
  = Some (if bool_decide (ref = "S" ∨ ref = "W")
          then (- (d + m / 60 + s / 3600))%float
          else (d + m / 60 + s / 3600)%float).
Proof.
  unfold _convert_to_decimal_degrees. cbn [py_index lookup list_lookup rbind py_div py_add].
  destruct (String.eqb_spec ref "S") as [->|HS].
  - reflexivity.
  - destruct (String.eqb_spec ref "W") as [->|HW].
    + reflexivity.
    + rewrite bool_decide_eq_false_2; [reflexivity|]. by intros [?|?].
Qed.

Example convert_new_york_latitude :
  _convert_to_decimal_degrees (dms 40 42 46.08) (PyStr "N") = Some 40.7128%float.
Proof. reflexivity. Qed.

Example convert_new_york_longitude :
  _convert_to_decimal_degrees (dms 74 0 21.6) (PyStr "W") = Some (-74.006)%float.
Proof. reflexivity. Qed.

(** A tuple that is too short, or holds something that is not a number,
    makes the conversion return [None]. *)
Example convert_short_tuple :
  _convert_to_decimal_degrees (PyTuple [PyFloat 40; PyFloat 42]) (PyStr "N") = None.
Proof. reflexivity. Qed.

(** C10: when the latitude or the longitude read from the image is falsy
    (the float 0.0 in particular), [get_gps_coordinates] returns
    [(None, None)], whatever the other field holds. *)
Theorem get_gps_coordinates_falsy (cfg : Config) (img : Image) (v : pyval) :
  (attrs img !! "gps_latitude" = Some v ∨ attrs img !! "gps_longitude" = Some v) →
  truthy v = false →
  get_gps_coordinates cfg (Some img) = Ok (None, None).
Proof.
  intros Hattr Hv. unfold get_gps_coordinates.
  destruct (has_exif img); simpl; [|done].
  destruct (use_exif_gps cfg); [|done].
  unfold image_attr.
  destruct (attrs img !! "gps_latitude") as [lat|] eqn:Hlat; simpl; [|done].
  destruct (attrs img !! "gps_longitude") as [lon|] eqn:Hlon; simpl; [|done].
  assert (truthy lat && truthy lon = false) as ->; [|done].
  destruct Hattr as [[= ->]|[= ->]]; rewrite Hv; [done|apply andb_false_r].
Qed.

Lemma get_gps_coordinates_falsy_witness :
  get_gps_coordinates default_config
    (Some {| has_exif := true;
             attrs := list_to_map [("gps_latitude", PyFloat 0);
                                   ("gps_longitude", PyFloat nyc_lon)] |})
  = Ok (None, None).
Proof.
  apply (get_gps_coordinates_falsy _ _ (PyFloat 0)); [left|]; reflexivity.
Defined.

(** A coordinate given as the tuple (0, 0, 0) is not falsy: it converts
    to 0.0 and is left to the bounding box. *)
Example get_gps_coordinates_null_island :
  get_gps_coordinates default_config (Some null_island_image) = Ok (Some 0%float, Some 0%float).
Proof. reflexivity. Qed.

(** ** Paths *)

Lemma string_app_cons (x : ascii) (a b : string) : String x a ++ b = String x (a ++ b).
Proof. reflexivity. Qed.

Lemma string_app_nil_l (b : string) : "" ++ b = b.
Proof. reflexivity. Qed.

Lemma string_app_nil_r (a : string) : a ++ "" = a.
Proof. induction a as [|x a IH]; [done|]. by rewrite string_app_cons, IH. Qed.

Lemma string_app_assoc (a b c : string) : (a ++ b) ++ c = a ++ (b ++ c).
Proof.
  induction a as [|x a IH]; [done|].
  by rewrite !string_app_cons, IH.
Qed.

Lemma string_app_length (a b : string) :
  String.length (a ++ b) = (String.length a + String.length b)%nat.
Proof.
  induction a as [|x a IH]; [done|].
  rewrite string_app_cons. simpl. by rewrite IH.
Qed.

Lemma string_app_nonempty_r (a b : string) : b ≠ "" → a ++ b ≠ "".
Proof. destruct a; [done|]. rewrite string_app_cons. discriminate. Qed.

Lemma string_app_inj_l (a b c : string) : a ++ c = b ++ c → a = b.
Proof.
  revert b. induction a as [|x a IH]; intros [|y b] Heq; [done| | |].
  - apply (f_equal String.length) in Heq.
    rewrite string_app_nil_l, string_app_cons in Heq. simpl in Heq.
    rewrite string_app_length in Heq. lia.
  - apply (f_equal String.length) in Heq.
    rewrite string_app_nil_l, string_app_cons in Heq. simpl in Heq.
    rewrite string_app_length in Heq. lia.
  - rewrite !string_app_cons in Heq. injection Heq as -> Heq.
    by rewrite (IH _ Heq).
Qed.

Lemma str_endswith_char_app (c : ascii) (a b : string) :
  b ≠ "" → str_endswith_char c (a ++ b) = str_endswith_char c b.
Proof.
  intros Hb. induction a as [|x a IH]; [done|].
  rewrite string_app_cons. pose proof (string_app_nonempty_r a b Hb) as Hab.
  destruct (a ++ b) eqn:E; [done|]. simpl. exact IH.
Qed.

Lemma str_startswith_char_app (c : ascii) (a b : string) :
  a ≠ "" → str_startswith_char c (a ++ b) = str_startswith_char c a.
Proof. destruct a; [done|]. by rewrite string_app_cons. Qed.

Lemma join2_plain (path b : string) :
  path ≠ "" → str_endswith_char sep path = false → str_startswith_char sep b = false →
  join2 path b = path ++ "/" ++ b.
Proof.
  intros Hne Hend Hstart. unfold join2. rewrite Hstart, Hend.
  destruct (String.eqb_spec path ""); [done|reflexivity].
Qed.

Lemma makedirs_keeps (p : string) (w : world) :
  requests (snd (makedirs p w)) = requests w
  ∧ location_cache (snd (makedirs p w)) = location_cache w.
Proof.
  unfold makedirs. destruct (String.eqb p ""); [done|].
  by destruct (foldl _ _ _).
Qed.

Lemma makedirs_fst_snd (p : string) (w : world) :
  makedirs p w = (fst (makedirs p w), snd (makedirs p w)).
Proof. by destruct (makedirs p w). Qed.

(** ** Destination of a photo *)

(** The bounding box rejects the placeholder coordinate and absent
    coordinates. *)
Lemma validate_null_island : _validate_gps_coordinates (Some 0%float) (Some 0%float) = false.
Proof. reflexivity. Qed.

Lemma validate_absent (lat lon : option float) :
  lat = None ∨ lon = None → _validate_gps_coordinates lat lon = false.
Proof. intros [->| ->]; [done|by destruct lat]. Qed.

Lemma validate_new_york : _validate_gps_coordinates (Some nyc_lat) (Some nyc_lon) = true.
Proof. reflexivity. Qed.

(** Making the directory whose name has been computed. *)
Lemma create_path_run (computed : result string) (w : world) :
  (let* output_path := lift computed in
   let* _ := makedirs output_path in
   ret output_path) w
  = match computed with
    | Ok p => (match fst (makedirs p w) with Ok _ => Ok p | Raise e => Raise e end,
               snd (makedirs p w))
    | Raise e => (Raise e, w)
    end.
Proof.
  unfold bind, lift, ret. destruct computed as [p|e]; [|done].
  rewrite (makedirs_fst_snd p w). by destruct (fst (makedirs p w)).
Qed.

Lemma create_unsortable_path_eq `{Externals} (cfg : Config) (output : string)
    (date : option datetime) (date_dir : string) (w : world) :
  (∀ d, sort_by_date cfg = true → date = Some d →
        strftime d (date_format cfg) = Ok date_dir) →
  let unsortable_dir := path_join output [unsortable_folder cfg] in
  let p := match (if sort_by_date cfg then date else None) with
           | Some _ => path_join unsortable_dir [date_dir]
           | None => unsortable_dir
           end in
  _create_unsortable_path cfg output date w
  = (match fst (makedirs p w) with Ok _ => Ok p | Raise e => Raise e end,
     snd (makedirs p w)).
Proof.
  intros Hfmt unsortable_dir p. unfold _create_unsortable_path.
  fold unsortable_dir. rewrite create_path_run. subst p.
  destruct (sort_by_date cfg); [|done].
  destruct date as [d|]; [|done]. by rewrite (Hfmt d).
Qed.

(** C9: a photo whose coordinates are absent or outside the bounding box
    is sent to the unsortable folder under the output directory, in a date
    subdirectory (named [date_dir], the capture date in the configured
    format) when it has a capture date and sorting by date is on; the path
    holds no place name, and neither the geocoding service nor the cache is
    touched. *)
Theorem invalid_coordinates_route_to_unsortable `{Externals} (cfg : Config)
    (output : string) (img : Image) (lat lon : option float) (date_dir : string)
    (w : world) :
  _get_gps_coordinates cfg (Some img) = (lat, lon) →
  _validate_gps_coordinates lat lon = false →
  let date := _get_photo_date cfg (Some img) in
  (∀ d, sort_by_date cfg = true → date = Some d →
        strftime d (date_format cfg) = Ok date_dir) →
  let unsortable_dir := path_join output [unsortable_folder cfg] in
  let p := match (if sort_by_date cfg then date else None) with
           | Some _ => path_join unsortable_dir [date_dir]
           | None => unsortable_dir
           end in
  let r := resolve_output_path cfg output img w in
  requests (snd r) = requests w
  ∧ location_cache (snd r) = location_cache w
  ∧ (fst (makedirs p w) = Ok tt → fst r = Ok (p, false))
  ∧ (∀ q, fst r = Ok q → q = (p, false)).
Proof.
  intros Hgps Hval date Hfmt unsortable_dir p r.
  assert (r = (match fst (makedirs p w) with Ok _ => Ok (p, false) | Raise e => Raise e end,
               snd (makedirs p w))) as ->.
  { unfold r, resolve_output_path. rewrite Hgps, Hval. unfold bind.
    fold date. rewrite (create_unsortable_path_eq cfg output date date_dir w Hfmt).
    fold unsortable_dir. fold p. by destruct (fst (makedirs p w)). }
  simpl. destruct (makedirs_keeps p w) as [Hr Hc].
  repeat split; [done|done| |].
  - by intros ->.
  - intros q. destruct (fst (makedirs p w)); [by intros [= <-]|done].
Qed.

Lemma invalid_coordinates_route_to_unsortable_witness :
  let r := @resolve_output_path (demo_externals backend_new_york) default_config
             "/out" null_island_image demo_world in
  requests (snd r) = 0
  ∧ location_cache (snd r) = []
  ∧ fst r = Ok ("/out/Unsortable/2024-03-15", false).
Proof.
  destruct (@invalid_coordinates_route_to_unsortable (demo_externals backend_new_york)
              default_config "/out" null_island_image (Some 0%float) (Some 0%float)
              "2024-03-15" demo_world eq_refl validate_null_island)
    as (Hr & Hc & Hp & _).
  - intros d _ [= <-]. reflexivity.
  - exact (conj Hr (conj Hc (Hp eq_refl))).
Defined.

(** With a date format the model does not expand itself, the name of the
    date directory is the platform's. *)
Example unsortable_two_digit_year :
  fst (@resolve_output_path (demo_externals backend_new_york)
         (with_date_format "%y%m%d" default_config) "/out" null_island_image demo_world)
  = Ok ("/out/Unsortable/240315", false).
Proof. reflexivity. Qed.

(** The same holds for a photo that has a date and no GPS tags at all. *)
Example no_gps_destination :
  fst (@resolve_output_path (demo_externals backend_new_york) default_config
         "/out" dated_image demo_world)
  = Ok ("/out/Unsortable/2024-03-15", false).
Proof. reflexivity. Qed.

Lemma create_output_path_eq `{Externals} (cfg : Config) (output city date_dir : string)
    (d : datetime) (w : world) :
  sort_by_date cfg = true → sort_by_location cfg = true →
  strftime d (date_format cfg) = Ok date_dir →
  let p := path_join output [city; date_dir] in
  _create_output_path cfg output city (Some d) w
  = (match fst (makedirs p w) with Ok _ => Ok p | Raise e => Raise e end,
     snd (makedirs p w)).
Proof.
  intros Hd Hl Hfmt p. unfold _create_output_path. rewrite create_path_run.
  by rewrite Hd, Hfmt, Hl.
Qed.

Lemma strftime_iso_date `{Externals} (y mo d h mi s : nat) :
  1000 ≤ y →
  strftime {| year := y; month := mo; day := d; hour := h; minute := mi; second := s |}
           "%Y-%m-%d"
  = Ok (pretty y ++ "-" ++ pad2 mo ++ "-" ++ pad2 d).
Proof.
  intros Hy. cbn -[pretty pad2 String.append bool_decide].
  rewrite bool_decide_eq_true_2 by done.
  cbn -[pretty pad2 String.append]. by rewrite string_app_nil_r.
Qed.

(** With [group_by_city] the parts come out in reverse order. *)
Lemma apply_location_filters_city (cfg : Config) (s : string) :
  group_by_country cfg = false → group_by_state cfg = false →
  _apply_location_filters cfg (Some s) = Ok (join_comma (reverse (split_comma s))).
Proof.
  intros Hc Hs. unfold _apply_location_filters. rewrite Hc, Hs.
  by destruct (group_by_city cfg).
Qed.

(** C1, as the code has it: with sorting by location and date and
    grouping by city, a photo geocoded to New York, New York, United States
    and taken on 2024-03-15 goes to
    [<output>/United States, New York, New York/2024-03-15]: the place name
    is rendered country first. *)
Theorem new_york_destination `{Externals} (cfg : Config) (output : string) (img : Image)
    (lat lon : float) (h mi s : nat) (w w1 : world) :
  sort_by_location cfg = true → sort_by_date cfg = true →
  group_by_city cfg = true → group_by_country cfg = false → group_by_state cfg = false →
  date_format cfg = "%Y-%m-%d" →
  output ≠ "" → str_endswith_char sep output = false →
  _get_gps_coordinates cfg (Some img) = (Some lat, Some lon) →
  _validate_gps_coordinates (Some lat) (Some lon) = true →
  _get_photo_date cfg (Some img)
    = Some {| year := 2024; month := 3; day := 15; hour := h; minute := mi; second := s |} →
  _reverse_geocode cfg lat lon w = (Ok (Some "New York, New York, United States"), w1) →
  fst (makedirs (output ++ "/United States, New York, New York/2024-03-15") w1) = Ok tt →
  fst (resolve_output_path cfg output img w)
  = Ok (output ++ "/United States, New York, New York/2024-03-15", true).
Proof.
  intros Hloc Hdate Hcity Hcountry Hstate Hfmt Hne Hend Hgps Hval Hpd Hgeo Hmk.
  unfold resolve_output_path. rewrite Hgps, Hpd, Hval. simpl default.
  unfold bind at 1. rewrite Hgeo.
  unfold bind at 1. unfold lift.
  rewrite (apply_location_filters_city cfg _ Hcountry Hstate).
  change (join_comma (reverse (split_comma "New York, New York, United States")))
    with "United States, New York, New York".
  change (str_truthy "United States, New York, New York") with true. cbv iota.
  unfold bind.
  rewrite (create_output_path_eq cfg output _ "2024-03-15") by
    (try done; rewrite Hfmt, strftime_iso_date by lia; reflexivity).
  assert (path_join output ["United States, New York, New York"; "2024-03-15"]
          = output ++ "/United States, New York, New York/2024-03-15") as ->.
  { unfold path_join. simpl foldl.
    rewrite (join2_plain output) by done.
    rewrite join2_plain; [by rewrite string_app_assoc| | |done].
    - by apply string_app_nonempty_r.
    - by rewrite str_endswith_char_app. }
  by rewrite Hmk.
Qed.

Lemma new_york_destination_witness :
  fst (@resolve_output_path (demo_externals backend_new_york) default_config
         "/out" nyc_image demo_world)
  = Ok ("/out/United States, New York, New York/2024-03-15", true).
Proof.
  apply (@new_york_destination (demo_externals backend_new_york) default_config "/out"
           nyc_image nyc_lat nyc_lon 10 30 0 demo_world
           (snd (@_reverse_geocode (demo_externals backend_new_york) default_config
                   nyc_lat nyc_lon demo_world)));
    try reflexivity; try discriminate.
Defined.

(** The destination the specification names, with the locality first, is
    not the one the code resolves. *)
Lemma locality_first_destination_refuted :
  @_parse_location (Some new_york) = Ok (Some "New York, New York, United States")
  ∧ fst (@resolve_output_path (demo_externals backend_new_york) default_config
           "/out" nyc_image demo_world)
    ≠ Ok ("/out/New York, New York, United States/2024-03-15", true).
Proof. split; [reflexivity|]. vm_compute. discriminate. Qed.

(** ** Placement and duplicates *)

Lemma path_exists_true (f : gmap string node) (p : string) :
  path_exists f p = true ↔ p ∈ dom f.
Proof. unfold path_exists. rewrite bool_decide_eq_true. by rewrite elem_of_dom. Qed.

Lemma path_exists_false (f : gmap string node) (p : string) :
  path_exists f p = false ↔ f !! p = None.
Proof.
  unfold path_exists. rewrite bool_decide_eq_false.
  by rewrite <- eq_None_not_Some.
Qed.

(** What the loop returns is the least free index from its start. *)
Lemma first_free_some (f : gmap string node) (name : nat → string) (fuel i k : nat) :
  first_free f name fuel i = Some k →
  i ≤ k ∧ (∀ j, i ≤ j < k → path_exists f (name j) = true) ∧ path_exists f (name k) = false.
Proof.
  revert i. induction fuel as [|fuel IH]; intros i; simpl; [done|].
  destruct (path_exists f (name i)) eqn:Hi.
  - intros Hk. destruct (IH _ Hk) as (Hle & Hbelow & Hfree).
    split; [lia|]. split; [|done].
    intros j Hj. destruct (decide (j = i)) as [->|]; [done|]. apply Hbelow. lia.
  - intros [= <-]. split; [done|]. split; [|done]. intros j Hj. lia.
Qed.

Lemma first_free_none (f : gmap string node) (name : nat → string) (fuel i : nat) :
  first_free f name fuel i = None →
  ∀ j, i ≤ j < i + fuel → path_exists f (name j) = true.
Proof.
  revert i. induction fuel as [|fuel IH]; intros i; simpl; [intros _ j Hj; lia|].
  destruct (path_exists f (name i)) eqn:Hi; [|done].
  intros Hnone j Hj. destruct (decide (j = i)) as [->|]; [done|].
  apply (IH _ Hnone). lia.
Qed.

(** Distinct names that all exist are no more than the paths there are. *)
Lemma existing_names_bounded (f : gmap string node) (name : nat → string) (i n : nat) :
  (∀ a b, name a = name b → a = b) →
  (∀ j, i ≤ j < i + n → path_exists f (name j) = true) →
  n ≤ size f.
Proof.
  intros Hinj Hall.
  assert (Inj (=) (=) name) as Hinj' by (intros a b; apply Hinj).
  assert (n = size (list_to_set (C := gset string) (name <$> seq i n))) as ->.
  { rewrite size_list_to_set by (apply NoDup_fmap_2, NoDup_seq; done).
    by rewrite length_fmap, length_seq. }
  rewrite <- (size_dom f). apply subseteq_size. intros p. rewrite elem_of_list_to_set, list_elem_of_fmap.
  intros (j & -> & Hj). apply path_exists_true, Hall.
  apply elem_of_seq in Hj. lia.
Qed.

Lemma first_free_total (f : gmap string node) (name : nat → string) (i : nat) :
  (∀ a b, name a = name b → a = b) →
  is_Some (first_free f name (S (size f)) i).
Proof.
  intros Hinj. destruct (first_free f name (S (size f)) i) eqn:Hff; [by eexists|].
  pose proof (existing_names_bounded f name i (S (size f)) Hinj (first_free_none _ _ _ _ Hff)).
  lia.
Qed.

Lemma pretty_N_char_plain (x : N) : pretty_N_char x ≠ sep.
Proof. unfold pretty_N_char. by repeat case_match. Qed.

Lemma pretty_N_go_plain (x : N) (s : string) :
  starts_plain s → starts_plain (pretty_N_go x s).
Proof.
  revert s. induction (N.lt_wf_0 x) as [x _ IH]; intros s Hs.
  destruct (decide (x = 0)%N) as [->|Hx]; [by rewrite pretty_N_go_0|].
  rewrite pretty_N_go_step by lia. apply IH; [apply N.div_lt; lia|].
  eexists _, _. split; [done|]. apply pretty_N_char_plain.
Qed.

Lemma pretty_nat_plain (n : nat) : starts_plain (pretty n).
Proof.
  unfold pretty, pretty_nat, pretty, pretty_N.
  case_decide as Hn; [by eexists _, _|].
  rewrite pretty_N_go_step by lia. apply pretty_N_go_plain.
  eexists _, _. split; [done|]. apply pretty_N_char_plain.
Qed.

Lemma starts_plain_startswith (s t : string) :
  starts_plain s → str_startswith_char sep (s ++ t) = false.
Proof.
  intros (c & rest & -> & Hc). rewrite string_app_cons. simpl.
  by destruct (Ascii.eqb_spec c sep).
Qed.

(** Whether a candidate name starts with a separator does not depend on
    the number in it. *)
Lemma numbered_name_start (base suffix ext : string) (i j : nat) :
  str_startswith_char sep (base ++ suffix ++ pretty i ++ ext)
  = str_startswith_char sep (base ++ suffix ++ pretty j ++ ext).
Proof.
  destruct base as [|c base]; [|by rewrite !string_app_cons].
  rewrite !string_app_nil_l.
  destruct suffix as [|c suffix]; [|by rewrite !string_app_cons].
  rewrite !string_app_nil_l.
  by rewrite !starts_plain_startswith by apply pretty_nat_plain.
Qed.

Lemma candidate_inj (cfg : Config) (output_path photo_name : string) (i j : nat) :
  candidate cfg output_path photo_name i = candidate cfg output_path photo_name j → i = j.
Proof.
  unfold candidate. destruct (splitext photo_name) as [base ext].
  unfold path_join. simpl foldl. unfold join2.
  rewrite (numbered_name_start base (duplicate_suffix cfg) ext i j).
  intros Heq.
  assert (base ++ duplicate_suffix cfg ++ pretty i ++ ext
          = base ++ duplicate_suffix cfg ++ pretty j ++ ext) as Hnames.
  { destruct (str_startswith_char sep _); [done|].
    destruct (_ || _).
    - by apply (inj (String.app output_path)) in Heq.
    - apply (inj (String.app output_path)) in Heq.
      by apply (inj (String.app "/")) in Heq. }
  apply (inj (String.app base)), (inj (String.app (duplicate_suffix cfg))) in Hnames.
  apply string_app_inj_l in Hnames. by apply (inj pretty) in Hnames.
Qed.

(** Transferring a file to a path that does not exist yet: it succeeds
    when the directory of the path is there, and fails without a trace
    otherwise. *)
Lemma transfer_fresh (how : transfer) (src dst content : string) (w : world) :
  fs w !! src = Some (File content) → fs w !! dst = None →
  (match how with Copy => copy2 src dst | Move => move src dst end) w
  = match dir_ready (fs w) dst with
    | Ok _ => (Ok tt, set_fs (match how with
                              | Copy => <[dst := File content]> (fs w)
                              | Move => <[dst := File content]> (delete src (fs w))
                              end) w)
    | Raise e => (Raise e, w)
    end.
Proof.
  intros Hsrc Hdst.
  assert (String.eqb dst src = false) as Hne.
  { destruct (String.eqb_spec dst src) as [->|]; [congruence|done]. }
  destruct how; unfold copy2, move, move_to_new; rewrite Hdst, Hsrc; [|done].
  by rewrite Hne, Hdst.
Qed.

Lemma place_fresh (how : transfer) (cfg : Config) (photo_path output_path content : string)
    (w : world) (dst : string) :
  fs w !! photo_path = Some (File content) → fs w !! dst = None →
  try_all (let* _ := (match how with
                      | Copy => copy2 photo_path dst
                      | Move => move photo_path dst
                      end) in ret (Some dst)) (ret None) w
  = match dir_ready (fs w) dst with
    | Ok _ => (Ok (Some dst), set_fs (match how with
                                      | Copy => <[dst := File content]> (fs w)
                                      | Move => <[dst := File content]> (delete photo_path (fs w))
                                      end) w)
    | Raise _ => (Ok None, w)
    end.
Proof.
  intros Hsrc Hdst. unfold try_all, bind.
  rewrite (transfer_fresh how _ _ _ _ Hsrc Hdst). by destruct (dir_ready (fs w) dst).
Qed.

(** What [place] does, by cases on the duplicate policy: the photo is
    skipped, or a free path is chosen and the transfer to it is tried. *)
Lemma place_cases (how : transfer) (cfg : Config) (photo_path output_path content : string)
    (w : world) :
  fs w !! photo_path = Some (File content) →
  let destination_path := path_join output_path [basename photo_path] in
  let name := candidate cfg output_path (basename photo_path) in
  (path_exists (fs w) destination_path = true ∧ skip_duplicates cfg = true
   ∧ place how cfg photo_path output_path w = (Ok None, w))
  ∨ (∃ dst,
       fs w !! dst = None
       ∧ place how cfg photo_path output_path w
         = match dir_ready (fs w) dst with
           | Ok _ => (Ok (Some dst),
                      set_fs (match how with
                              | Copy => <[dst := File content]> (fs w)
                              | Move => <[dst := File content]> (delete photo_path (fs w))
                              end) w)
           | Raise _ => (Ok None, w)
           end
       ∧ ((path_exists (fs w) destination_path = false ∧ dst = destination_path)
          ∨ (path_exists (fs w) destination_path = true ∧ skip_duplicates cfg = false
             ∧ ∃ i, first_free (fs w) name (S (size (fs w))) 1 = Some i ∧ dst = name i))).
Proof.
  intros Hsrc destination_path name. unfold place.
  fold destination_path. fold name.
  destruct (path_exists (fs w) destination_path) eqn:Hex.
  - destruct (skip_duplicates cfg) eqn:Hskip.
    + left. repeat split. unfold try_all, bind, get_world. by rewrite Hex.
    + right.
      destruct (first_free_total (fs w) name 1 (candidate_inj cfg _ _)) as [i Hi].
      pose proof (first_free_some _ _ _ _ _ Hi) as (_ & _ & Hfree).
      apply path_exists_false in Hfree.
      exists (name i). split; [done|]. split; [|right; eauto].
      rewrite <- (place_fresh how cfg photo_path output_path content w (name i) Hsrc Hfree).
      unfold try_all, bind, get_world, ret. by rewrite Hex, Hi.
  - right. pose proof Hex as Hfree. apply path_exists_false in Hfree.
    exists destination_path. split; [done|]. split; [|by left].
    rewrite <- (place_fresh how cfg photo_path output_path content w _ Hsrc Hfree).
    unfold try_all, bind, get_world, ret. rewrite Hex. by rewrite andb_false_r.
Qed.

(** C7: placing a photo.  With [skip_duplicates], an existing file of the
    same name makes the method return [None] and leaves the file system as
    it is.  Without it, the only path the photo can go to is the base name
    followed by the suffix and the least integer from 1 whose name is free,
    before the extension, and it does go there when the directory of that
    path exists; after [n] consecutive suffixed siblings that integer is
    [n + 1].  The path written to is never one that existed, and no other
    path changes. *)
Theorem place_duplicate_policy (how : transfer) (cfg : Config)
    (photo_path output_path content : string) (w : world) :
  fs w !! photo_path = Some (File content) →
  let photo_name := basename photo_path in
  let destination_path := path_join output_path [photo_name] in
  let name := λ i, path_join output_path
                     [fst (splitext photo_name) ++ duplicate_suffix cfg
                        ++ pretty i ++ snd (splitext photo_name)] in
  let r := place how cfg photo_path output_path w in
  (path_exists (fs w) destination_path = true → skip_duplicates cfg = true →
     r = (Ok None, w))
  ∧ (path_exists (fs w) destination_path = true → skip_duplicates cfg = false →
     ∃ i, 1 ≤ i
        ∧ (∀ j, 1 ≤ j < i → path_exists (fs w) (name j) = true)
        ∧ path_exists (fs w) (name i) = false
        ∧ (∀ p, fst r = Ok (Some p) → p = name i)
        ∧ (dir_ready (fs w) (name i) = Ok tt → fst r = Ok (Some (name i)))
        ∧ (∀ n, (∀ j, 1 ≤ j ≤ n → path_exists (fs w) (name j) = true) →
                path_exists (fs w) (name (S n)) = false → i = S n))
  ∧ (path_exists (fs w) destination_path = false →
     (∀ p, fst r = Ok (Some p) → p = destination_path)
     ∧ (dir_ready (fs w) destination_path = Ok tt → fst r = Ok (Some destination_path)))
  ∧ (∀ p, fst r = Ok (Some p) →
       path_exists (fs w) p = false
       ∧ fs (snd r) !! p = Some (File content)
       ∧ ∀ q, q ≠ p → (how = Copy ∨ q ≠ photo_path) →
              fs (snd r) !! q = fs w !! q).
Proof.
  intros Hsrc photo_name destination_path name r.
  assert (name = candidate cfg output_path photo_name) as Hname.
  { unfold name, candidate. by destruct (splitext photo_name). }
  pose proof (place_cases how cfg photo_path output_path content w Hsrc) as Hcases.
  fold photo_name in Hcases. fold destination_path in Hcases.
  rewrite <- Hname in Hcases. fold r in Hcases.
  destruct Hcases as [(Hex & Hskip & Hr)|(dst & Hfree & Hr & Hdst)].
  - (* skipped *)
    rewrite Hr. simpl. repeat split; try congruence; done.
  - assert (∀ p, fst r = Ok (Some p) → p = dst) as Honly.
    { intros p. rewrite Hr. by destruct (dir_ready (fs w) dst); intros [= <-]. }
    assert (dir_ready (fs w) dst = Ok tt → fst r = Ok (Some dst)) as Hgoes.
    { intros Hready. by rewrite Hr, Hready. }
    split; [|split; [|split]].
    + intros Hex Hskip. destruct Hdst as [[? _]|(_ & ? & _)]; congruence.
    + intros Hex Hskip. destruct Hdst as [[? _]|(_ & _ & i & Hi & ->)]; [congruence|].
      pose proof (first_free_some _ _ _ _ _ Hi) as (Hle & Hbelow & Hfree').
      exists i. repeat split; try done.
      intros n Hall Hn. destruct (decide (i < S n)) as [Hlt|Hge].
      * rewrite Hall in Hfree' by lia. done.
      * destruct (decide (S n < i)) as [Hlt|]; [|lia].
        rewrite Hbelow in Hn by lia. done.
    + intros Hex. destruct Hdst as [[_ ->]|(? & _)]; [done|congruence].
    + intros p Hp. rewrite (Honly p Hp) in *. clear Honly Hgoes.
      rewrite Hr in Hp |- *. destruct (dir_ready (fs w) dst) as [[]|e]; [|done].
      simpl. split; [by apply path_exists_false|].
      split.
      * destruct how; apply lookup_insert_eq.
      * intros q Hq Hhow. destruct how.
        -- by rewrite lookup_insert_ne.
        -- destruct Hhow as [?|Hqs]; [done|].
           rewrite lookup_insert_ne by done. by rewrite lookup_delete_ne.
Qed.

Lemma place_duplicate_policy_witness :
  fst (place Copy (with_skip_duplicates false "_dup" default_config)
         "/in/a.jpg" "/out/d" crowded_world)
  = Ok (Some "/out/d/a_dup3.jpg").
Proof.
  destruct (place_duplicate_policy Copy (with_skip_duplicates false "_dup" default_config)
              "/in/a.jpg" "/out/d" "nyc" crowded_world eq_refl) as (_ & Hdup & _).
  destruct (Hdup eq_refl eq_refl) as (i & _ & _ & _ & _ & Hr & Hnext).
  rewrite (Hnext 2) in Hr; [exact (Hr eq_refl)| |reflexivity].
  intros j Hj. assert (j = 1 ∨ j = 2) as [-> | ->] by lia; reflexivity.
Defined.

(** With [skip_duplicates] the same photo is left where it is. *)
Example place_skips_duplicate :
  place Move default_config "/in/a.jpg" "/out/d" crowded_world = (Ok None, crowded_world).
Proof. reflexivity. Qed.

(** Two photos of the same name copied to one directory: the second one
    gets the suffix and the number 1. *)
Example place_second_copy :
  let cfg := with_skip_duplicates false "_dup" default_config in
  let w1 := snd (place Copy cfg "/in/a.jpg" "/out" ready_world) in
  fst (place Copy cfg "/in/a.jpg" "/out" ready_world) = Ok (Some "/out/a.jpg")
  ∧ fst (place Copy cfg "/in/a.jpg" "/out" w1) = Ok (Some "/out/a_dup1.jpg").
Proof. split; vm_compute; reflexivity. Qed.

(** Into a directory that is not there nothing is copied or moved: the
    primitive fails and the method returns [None]. *)
Example place_without_directory (how : transfer) :
  place how default_config "/in/a.jpg" "/out/e" demo_world = (Ok None, demo_world).
Proof. destruct how; reflexivity. Qed.

(** ** The proximity cache *)

Section cache.
Context `{Externals}.
Variables (threshold latitude longitude : float).

Lemma within_beyond (k : string) :
  within threshold latitude longitude k → beyond threshold latitude longitude k → False.
Proof. intros (d & Hd & Hle) (d' & Hd' & Hgt). congruence. Qed.


(** The scan stops at the first entry within the threshold. *)
Lemma scan_cache_hit (pre post : list (string * string)) (k location_str : string) :
  Forall (λ e, beyond threshold latitude longitude e.1) pre →
  within threshold latitude longitude k →
  scan_cache threshold latitude longitude (pre ++ (k, location_str) :: post)
  = Ok (Some location_str).
Proof.
  intros Hpre (d & Hd & Hle). induction Hpre as [|[k' v'] pre (d' & Hd' & Hgt) _ IH]; simpl.
  - by rewrite Hd; simpl; rewrite Hle.
  - simpl in Hd'. by rewrite Hd'; simpl; rewrite Hgt.
Qed.

Lemma scan_cache_none (d : list (string * string)) :
  scan_cache threshold latitude longitude d = Ok None →
  Forall (λ e, beyond threshold latitude longitude e.1) d.
Proof.
  induction d as [|[k v] d IH]; simpl; [by constructor|].
  destruct (key_distance latitude longitude k) as [km|] eqn:Hkm; simpl; [|done].
  destruct (km <=? threshold)%float eqn:Hle; [done|].
  intros Hrest. constructor; [by exists km|by apply IH].
Qed.

Lemma scan_cache_some (d : list (string * string)) (location_str : string) :
  scan_cache threshold latitude longitude d = Ok (Some location_str) →
  ∃ k, (k, location_str) ∈ d ∧ within threshold latitude longitude k.
Proof.
  induction d as [|[k v] d IH]; simpl; [done|].
  destruct (key_distance latitude longitude k) as [km|] eqn:Hkm; simpl; [|done].
  destruct (km <=? threshold)%float eqn:Hle.
  - intros [= ->]. exists k. split; [left|by exists km].
  - intros Hrest. destruct (IH Hrest) as (k' & Hin & Hw).
    exists k'. split; [by right|done].
Qed.


Lemma dict_set_fresh (k v : string) (d : list (string * string)) :
  Forall (λ e, e.1 ≠ k) d → dict_set k v d = (d ++ [(k, v)])%list.
Proof.
  induction 1 as [|[k' v'] d Hne _ IH]; simpl; [done|].
  simpl in Hne. destruct (String.eqb_spec k' k); [done|]. by rewrite IH.
Qed.

Lemma dict_set_elem (k v : string) (d : list (string * string)) (k' v' : string) :
  (k', v') ∈ dict_set k v d → (k', v') ∈ d ∨ (k', v') = (k, v).
Proof.
  induction d as [|[k0 v0] d IH]; simpl.
  - intros ->%list_elem_of_singleton. by right.
  - destruct (String.eqb_spec k0 k) as [->|].
    + intros [->|?]%elem_of_cons; [by right|left; by right].
    + intros [->|Hin]%elem_of_cons; [left; by left|].
      destruct (IH Hin); [left; by right|by right].
Qed.

End cache.

Lemma str_truthy_nonempty (s : string) : s ≠ "" → str_truthy s = true.
Proof. intros Hs. unfold str_truthy. by destruct (String.eqb_spec s ""). Qed.

Lemma str_truthy_true (s : string) : str_truthy s = true → s ≠ "".
Proof. by intros Hs ->. Qed.

(** The rate limiter sends at least one request and at most three. *)
Lemma limited_bound `{Externals} (retries sent : nat) (query : string) (timeout : nat) :
  1 ≤ snd (limited retries sent query timeout) ≤ S retries.
Proof.
  revert sent. induction retries as [|k IH]; intros sent; simpl.
  - destruct (nominatim_reverse sent query timeout) as [loc|e]; simpl; [lia|].
    destruct (exn_eqb e GeocoderServiceError); simpl; lia.
  - destruct (nominatim_reverse sent query timeout) as [loc|e]; simpl; [lia|].
    destruct (exn_eqb e GeocoderServiceError); simpl; [|lia].
    specialize (IH (S sent)). destruct (limited k (S sent) query timeout). simpl in *. lia.
Qed.

Lemma limited_requests_bound `{Externals} (sent : nat) (query : string) (timeout : nat) :
  1 ≤ limited_requests sent query timeout ≤ 3.
Proof. apply (limited_bound max_retries). Qed.

(** A request that is answered is the only one sent. *)
Lemma limited_first_answer `{Externals} (sent : nat) (query : string) (timeout : nat)
    (loc : option location) :
  nominatim_reverse sent query timeout = Ok loc →
  limited_reverse sent query timeout = Ok loc ∧ limited_requests sent query timeout = 1.
Proof. intros Hloc. unfold limited_reverse, limited_requests. simpl. by rewrite Hloc. Qed.

Lemma count_requests_eq (n : nat) (w : world) :
  count_requests n w
  = {| fs := fs w; location_cache := location_cache w; requests := n + requests w |}.
Proof.
  unfold count_requests. induction n as [|n IH]; simpl; [by destruct w|].
  by rewrite IH.
Qed.

(** On a cache hit the method answers from the cache and changes nothing. *)
Lemma reverse_geocode_on_hit `{Externals} (cfg : Config) (latitude longitude : float)
    (w : world) (v : string) :
  cache_geocoding_results cfg = true →
  scan_cache (cache_distance_threshold cfg) latitude longitude (location_cache w)
    = Ok (Some v) →
  v ≠ "" →
  reverse_geocode cfg latitude longitude w = (Ok (Some v), w).
Proof.
  intros Hcache Hscan Hv.
  unfold reverse_geocode, try_all, bind, _is_cached_location_nearby.
  rewrite Hcache, Hscan. simpl. by rewrite (str_truthy_nonempty v Hv).
Qed.




(** The entries the method stores are non-empty place names, so caches
    built by the program satisfy the first assumption above. *)
Lemma reverse_geocode_stores_names `{Externals} (cfg : Config) (latitude longitude : float)
    (w : world) :
  (∀ k v, (k, v) ∈ location_cache w → v ≠ "") →
  ∀ k v, (k, v) ∈ location_cache (snd (reverse_geocode cfg latitude longitude w)) → v ≠ "".
Proof.
  intros Hwf k v. unfold reverse_geocode, try_all, bind, _is_cached_location_nearby.
  destruct (cache_geocoding_results cfg) eqn:Hcache.
  - destruct (scan_cache _ _ _ _) as [cached|e]; simpl; [|apply Hwf].
    destruct (opt_str_truthy cached); simpl; [apply Hwf|].
    unfold call_reverse, lift. rewrite count_requests_eq.
    destruct (limited_reverse _ _ _) as [loc|e]; simpl; [|apply Hwf].
    destruct (_parse_location loc) as [[s|]|e]; simpl; [|apply Hwf..].
    destruct (str_truthy s) eqn:Hs; simpl; [|apply Hwf].
    unfold _save_cache. destruct (run_ops _ _) as [[[]|e] f]; simpl;
      (intros [Hin|[= _ ->]]%dict_set_elem; [by apply (Hwf k)|by apply str_truthy_true]).
  - unfold ret at 1. simpl. unfold call_reverse, lift. rewrite count_requests_eq.
    destruct (limited_reverse _ _ _) as [loc|e]; simpl; [|apply Hwf].
    destruct (_parse_location loc) as [[s|]|e]; simpl; [|apply Hwf..].
    rewrite andb_false_r. simpl. apply Hwf.
Qed.

(** A coordinate is within a non-negative threshold of its own key. *)
Lemma own_key_within `{Externals} (threshold latitude longitude : float) :
  key_coords (cache_key latitude longitude) = Ok [latitude; longitude] →
  geodesic_km (latitude, longitude) [latitude; longitude] = Some 0%float →
  (0 <=? threshold)%float = true →
  within threshold latitude longitude (cache_key latitude longitude).
Proof.
  intros Hkey Hzero Hthr. exists 0%float. split; [|done].
  unfold key_distance. rewrite Hkey. simpl. by rewrite Hzero.
Qed.

(** After a miss that was stored, the scan finds the new entry. *)
Lemma scan_cache_after_store `{Externals} (threshold latitude longitude : float)
    (d : list (string * string)) (v : string) :
  within threshold latitude longitude (cache_key latitude longitude) →
  scan_cache threshold latitude longitude d = Ok None →
  scan_cache threshold latitude longitude (dict_set (cache_key latitude longitude) v d)
  = Ok (Some v).
Proof.
  intros Hself Hscan. apply scan_cache_none in Hscan.
  rewrite dict_set_fresh.
  - by apply scan_cache_hit.
  - eapply Forall_impl; [exact Hscan|]. intros [k v'] Hk Heq. simpl in *. subst k.
    exact (within_beyond _ _ _ _ Hself Hk).
Qed.

(** C5, as the code has it: with caching enabled and a non-negative
    threshold, in a cache whose place names are all non-empty, once a
    resolve has returned a non-empty place name, resolving the same
    coordinate again returns that name and changes nothing: the cache does
    not grow and no request is sent.  The key of the coordinate is taken to
    read back as the coordinate, at distance zero from it. *)
Theorem reverse_geocode_twice `{Externals} (cfg : Config) (latitude longitude : float)
    (w w1 : world) (name : string) :
  cache_geocoding_results cfg = true →
  key_coords (cache_key latitude longitude) = Ok [latitude; longitude] →
  geodesic_km (latitude, longitude) [latitude; longitude] = Some 0%float →
  (0 <=? cache_distance_threshold cfg)%float = true →
  (∀ k v, (k, v) ∈ location_cache w → v ≠ "") →
  reverse_geocode cfg latitude longitude w = (Ok (Some name), w1) →
  name ≠ "" →
  reverse_geocode cfg latitude longitude w1 = (Ok (Some name), w1).
Proof.
  intros Hcache Hkey Hzero Hthr Hwf Hfirst Hname.
  pose proof (own_key_within _ _ _ Hkey Hzero Hthr) as Hself.
  destruct (scan_cache (cache_distance_threshold cfg) latitude longitude (location_cache w))
    as [[v|]|e] eqn:Hscan.
  - (* the first resolve was a hit *)
    destruct (scan_cache_some _ _ _ _ _ Hscan) as (k & Hin & _).
    pose proof (Hwf _ _ Hin) as Hv.
    rewrite (reverse_geocode_on_hit cfg _ _ w v Hcache Hscan Hv) in Hfirst.
    injection Hfirst as -> <-. by apply reverse_geocode_on_hit.
  - (* the first resolve was a miss *)
    revert Hfirst.
    unfold reverse_geocode at 1.
    unfold try_all, bind, _is_cached_location_nearby, call_reverse, lift.
    rewrite Hcache, Hscan. simpl. rewrite count_requests_eq.
    destruct (limited_reverse _ _ _) as [loc|e]; simpl; [|done].
    destruct (_parse_location loc) as [[s|]|e]; simpl; [|done..].
    destruct (str_truthy s) eqn:Hs; simpl.
    + unfold _save_cache. destruct (run_ops _ _) as [[[]|e] f] eqn:Hsave; simpl; [|done].
      intros [= -> <-]. apply reverse_geocode_on_hit; [done| |done].
      simpl. by apply scan_cache_after_store.
    + intros [= -> _]. unfold str_truthy in Hs.
      by destruct (String.eqb_spec name "").
  - revert Hfirst.
    unfold reverse_geocode, try_all, bind, _is_cached_location_nearby.
    by rewrite Hcache, Hscan.
Qed.

Lemma reverse_geocode_twice_witness :
  let E := demo_externals backend_new_york in
  let w1 := snd (@reverse_geocode E default_config nyc_lat nyc_lon empty_world) in
  @reverse_geocode E default_config nyc_lat nyc_lon w1
  = (Ok (Some "New York, New York, United States"), w1).
Proof.
  intros E w1.
  apply (@reverse_geocode_twice E default_config nyc_lat nyc_lon empty_world w1
           "New York, New York, United States");
    try reflexivity; try discriminate.
  intros k v Hin. by apply elem_of_nil in Hin.
Defined.

(** When the service fails on the three requests of the first resolve and
    answers afterwards, the two resolves differ and the cache grows on the
    second one. *)
Lemma flaky_service_breaks_idempotence :
  cache_geocoding_results default_config = true
  ∧ (0 <=? cache_distance_threshold default_config)%float = true
  ∧ ¬ @resolve_twice_idempotent (demo_externals backend_flaky) default_config
        nyc_lat nyc_lon empty_world.
Proof.
  split; [reflexivity|]. split; [reflexivity|].
  unfold resolve_twice_idempotent. vm_compute. intros [Heq _]. discriminate Heq.
Qed.

Example reverse_geocode_flaky_trace :
  let E := demo_externals backend_flaky in
  let '(r1, w1) := @reverse_geocode E default_config nyc_lat nyc_lon empty_world in
  let '(r2, w2) := @reverse_geocode E default_config nyc_lat nyc_lon w1 in
  r1 = Ok None ∧ location_cache w1 = []
  ∧ r2 = Ok (Some "New York, New York, United States")
  ∧ location_cache w2 = [("40.7128, -74.006", "New York, New York, United States")].
Proof. vm_compute. done. Qed.

(** ** Saving the cache *)

Lemma run_writes (f : gmap string node) (p text : string) (chunks : list string) :
  f !! p = Some (File text) →
  run_ops f (map (WriteChunk p) chunks)
  = (Ok tt, <[p := File (text ++ foldr String.append "" chunks)]> f).
Proof.
  revert f text. induction chunks as [|x chunks IH]; intros f text Hp; simpl.
  - rewrite string_app_nil_r. by rewrite insert_id.
  - rewrite Hp. rewrite (IH _ (text ++ x)) by apply lookup_insert_eq.
    by rewrite insert_insert_eq, string_app_assoc.
Qed.

Lemma foldr_append_app (a b : list string) :
  foldr String.append "" (a ++ b)%list
  = foldr String.append "" a ++ foldr String.append "" b.
Proof.
  induction a as [|x a IH]; simpl; [done|]. by rewrite IH, string_app_assoc.
Qed.

(** C3, as the code has it: [_save_cache] rewrites the cache file in
    place.  Opening it empties it, and the JSON text is then written piece
    by piece: if the write is interrupted, the file holds the part of the
    new text written so far, and it holds the complete new text once every
    piece is written.  No other path is touched. *)
Theorem save_cache_in_place `{Externals} (f : gmap string node) (d : list (string * string))
    (n : nat) :
  f !! cache_file ≠ Some Dir →
  1 ≤ n →
  let f' := snd (run_ops f (take n (save_ops d))) in
  (∃ written rest,
      cache_file_text f' = Some written
      ∧ json_text d = written ++ rest
      ∧ (List.length (save_ops d) ≤ n → written = json_text d))
  ∧ (∀ p, p ≠ cache_file → f' !! p = f !! p).
Proof.
  intros Hdir Hn f'. unfold save_ops in *.
  destruct n as [|m]; [lia|]. simpl in f'.
  assert (apply_op f (OpenTruncate cache_file) = Ok (<[cache_file := File ""]> f)) as Hopen.
  { simpl. by destruct (f !! cache_file) as [[]|]. }
  unfold f'. simpl. simpl in Hopen. rewrite Hopen.
  rewrite firstn_map, (run_writes _ _ "") by apply lookup_insert_eq.
  simpl. rewrite insert_insert_eq, string_app_nil_l. split.
  - exists (foldr String.append "" (take m (json_chunks d))),
           (foldr String.append "" (drop m (json_chunks d))).
    split; [|split].
    + unfold cache_file_text. by rewrite lookup_insert_eq.
    + unfold json_text. by rewrite <- foldr_append_app, take_drop.
    + rewrite length_map. intros Hlen. unfold json_text.
      rewrite take_ge; [done|lia].
  - intros p Hp. by rewrite lookup_insert_ne.
Qed.

Lemma save_cache_in_place_witness :
  let E := demo_externals backend_down in
  let f' := snd (run_ops saved_fs (take 3 (@save_ops E (location_cache cached_world)))) in
  (∃ written rest,
      cache_file_text f' = Some written
      ∧ @json_text E (location_cache cached_world) = written ++ rest
      ∧ (List.length (@save_ops E (location_cache cached_world)) ≤ 3 →
         written = @json_text E (location_cache cached_world)))
  ∧ (∀ p, p ≠ cache_file → f' !! p = saved_fs !! p).
Proof.
  apply (@save_cache_in_place (demo_externals backend_down) saved_fs
           (location_cache cached_world) 3); [discriminate|lia].
Defined.

(** A save interrupted right after the file is opened leaves it empty:
    neither the old text nor the new one. *)
Lemma save_cache_not_atomic :
  ¬ @save_is_atomic (demo_externals backend_down) saved_fs (location_cache cached_world).
Proof.
  intros Hatomic. specialize (Hatomic 1).
  vm_compute in Hatomic. destruct Hatomic as [Hold|Hnew]; discriminate.
Qed.

(** A save that runs to the end leaves the complete new text. *)
Lemma save_cache_complete `{Externals} (w : world) :
  fs w !! cache_file ≠ Some Dir →
  fst (_save_cache w) = Ok tt
  ∧ cache_file_text (fs (snd (_save_cache w))) = Some (json_text (location_cache w)).
Proof.
  intros Hdir. unfold _save_cache, save_ops. simpl.
  assert (match fs w !! cache_file with
          | Some Dir => Raise IsADirectoryError
          | _ => Ok (<[cache_file := File ""]> (fs w))
          end = Ok (<[cache_file := File ""]> (fs w))) as ->.
  { by destruct (fs w !! cache_file) as [[]|]. }
  rewrite (run_writes _ _ "") by apply lookup_insert_eq. simpl.
  split; [done|]. unfold cache_file_text. by rewrite lookup_insert_eq.
Qed.

(** ** The batch *)

(** Geocoding never raises; when the service fails on a miss it answers
    none and stores nothing. *)
Lemma reverse_geocode_never_raises `{Externals} (cfg : Config) (latitude longitude : float)
    (w : world) :
  ∃ r, fst (reverse_geocode cfg latitude longitude w) = Ok r.
Proof.
  unfold reverse_geocode, try_all, ret.
  destruct (bind _ _ w) as [[r|e] w']; by eexists.
Qed.

Lemma reverse_geocode_backend_error `{Externals} (cfg : Config) (latitude longitude : float)
    (w : world) :
  let key := cache_key latitude longitude in
  location_cache w = [] →
  (∃ e, limited_reverse (requests w) key (geocoding_timeout cfg) = Raise e)
  ∨ limited_reverse (requests w) key (geocoding_timeout cfg) = Ok None →
  reverse_geocode cfg latitude longitude w
  = (Ok None, count_requests (limited_requests (requests w) key (geocoding_timeout cfg)) w).
Proof.
  intros key Hempty Hdown.
  unfold reverse_geocode, try_all, bind, _is_cached_location_nearby, call_reverse, lift, ret.
  fold key.
  destruct (cache_geocoding_results cfg); rewrite ?Hempty; simpl;
    by destruct Hdown as [[e ->]| ->].
Qed.

(** A service that is down is asked three times by each call. *)
Example reverse_geocode_retries :
  @reverse_geocode (demo_externals backend_down) default_config nyc_lat nyc_lon empty_world
  = (Ok None, count_requests 3 empty_world).
Proof. reflexivity. Qed.

(** A photo with valid coordinates for which geocoding answers none:
    [_apply_location_filters] is handed [None] and raises, so no
    destination is resolved. *)
Lemma resolve_output_path_without_city `{Externals} (cfg : Config) (output : string)
    (img : Image) (lat lon : float) (w w1 : world) :
  _get_gps_coordinates cfg (Some img) = (Some lat, Some lon) →
  _validate_gps_coordinates (Some lat) (Some lon) = true →
  _reverse_geocode cfg lat lon w = (Ok None, w1) →
  resolve_output_path cfg output img w = (Raise AttributeError, w1).
Proof.
  intros Hgps Hval Hgeo. unfold resolve_output_path. rewrite Hgps, Hval. simpl default.
  unfold bind at 1. by rewrite Hgeo.
Qed.

(** C8, at a photo from New York while the geocoding service is down:
    geocoding returns none without raising and the batch goes on to the
    next photo, but the first photo is only counted as unsortable: nothing
    is copied for it and no unsortable folder is made. *)
Theorem backend_error_photo_not_placed :
  let E := demo_externals backend_down in
  fst (@reverse_geocode E default_config nyc_lat nyc_lon demo_world) = Ok None
  ∧ fst (@handle_photo E default_config "/out" "/in/a.jpg" demo_world) = Raise AttributeError
  ∧ fs (@process_photos E default_config ["/in/a.jpg"] "/out" demo_world).2 = fs demo_world
  ∧ (@process_photos E default_config ["/in/a.jpg"; "/in/c.jpg"] "/out" demo_world).1
    = ([{| ev_processed := 0; ev_total := 2; ev_sortable := 0; ev_unsortable := 1;
           ev_path := "/in/a.jpg" |};
        {| ev_processed := 1; ev_total := 2; ev_sortable := 0; ev_unsortable := 2;
           ev_path := "/in/c.jpg" |}],
       {| processed_photos := 1; sortable_photos := 0; unsortable_photos := 2 |})
  ∧ fs (@process_photos E default_config ["/in/a.jpg"; "/in/c.jpg"] "/out" demo_world).2
        !! "/out/Unsortable/2024-03-15/a.jpg" = None
  ∧ fs (@process_photos E default_config ["/in/a.jpg"; "/in/c.jpg"] "/out" demo_world).2
        !! "/out/Unsortable/2024-03-15/c.jpg" = Some (File "dated").
Proof. vm_compute. done. Qed.

(** Every round of the loop yields one event and counts the photo as
    sortable or unsortable. *)
Lemma process_loop_counts `{Externals} (cfg : Config) (output : string) (total : nat)
    (c : counters) (photo_paths : list string) (w : world) :
  let '(events, c', _) := process_loop cfg output total c photo_paths w in
  List.length events = List.length photo_paths
  ∧ sortable_photos c' + unsortable_photos c'
    = sortable_photos c + unsortable_photos c + List.length photo_paths
  ∧ processed_photos c ≤ processed_photos c'
  ∧ sortable_photos c ≤ sortable_photos c'
  ∧ unsortable_photos c ≤ unsortable_photos c'
  ∧ processed_photos c' ≤ processed_photos c + List.length photo_paths.
Proof.
  revert c w. induction photo_paths as [|p rest IH]; intros c w; simpl.
  - repeat split; lia.
  - destruct (process_photo cfg output total c p w) as [[ev c1] w1] eqn:Hstep.
    specialize (IH c1 w1).
    destruct (process_loop cfg output total c1 rest w1) as [[evs c2] w2].
    assert (sortable_photos c1 + unsortable_photos c1
            = S (sortable_photos c + unsortable_photos c)
            ∧ processed_photos c ≤ processed_photos c1 ≤ S (processed_photos c)
            ∧ sortable_photos c ≤ sortable_photos c1
            ∧ unsortable_photos c ≤ unsortable_photos c1) as Hone.
    { unfold process_photo in Hstep.
      destruct (handle_photo cfg output p w) as [[[[]|]|e] w'];
        injection Hstep as <- <- <-; simpl; lia. }
    simpl. lia.
Qed.

(** C2, at a batch of two photos of which the first has no EXIF data: two
    events are yielded and the sortable and unsortable counts add up to
    the total, but the processed count ends at 1 of 2, because the photo
    without EXIF data is reported as processed in its event and never
    counted. *)
Theorem processed_count_lags :
  let E := demo_externals backend_new_york in
  @process_photos E default_config ["/in/b.jpg"; "/in/a.jpg"] "/out" demo_world
  = ([{| ev_processed := 1; ev_total := 2; ev_sortable := 0; ev_unsortable := 1;
         ev_path := "/in/b.jpg" |};
      {| ev_processed := 1; ev_total := 2; ev_sortable := 1; ev_unsortable := 1;
         ev_path := "/in/a.jpg" |}],
     {| processed_photos := 1; sortable_photos := 1; unsortable_photos := 1 |},
     (@process_photos E default_config ["/in/b.jpg"; "/in/a.jpg"] "/out" demo_world).2).
Proof. vm_compute. done. Qed.

(** The processed count of the events can also go down: a photo without
    EXIF data is announced as processed, a photo that fails afterwards is
    not. *)
Example processed_count_decreases :
  let E := demo_externals backend_down in
  map ev_processed
      (@process_photos E default_config ["/in/b.jpg"; "/in/a.jpg"] "/out" demo_world).1.1
  = [1; 0].
Proof. vm_compute. done. Qed.

(** * Further properties *)

(** ** Geolocator: what a call may change *)

Lemma run_save_ops `{Externals} (f : gmap string node) (d : list (string * string)) :
  run_ops f (save_ops d)
  = match f !! cache_file with
    | Some Dir => (Raise IsADirectoryError, f)
    | _ => (Ok tt, <[cache_file := File (json_text d)]> f)
    end.
Proof.
  unfold save_ops. simpl.
  destruct (f !! cache_file) as [[text|]|] eqn:Hf; [|done|].
  - rewrite (run_writes _ _ "") by apply lookup_insert_eq.
    by rewrite insert_insert_eq, string_app_nil_l.
  - rewrite (run_writes _ _ "") by apply lookup_insert_eq.
    by rewrite insert_insert_eq, string_app_nil_l.
Qed.

Lemma save_cache_eq `{Externals} (w : world) :
  _save_cache w
  = match fs w !! cache_file with
    | Some Dir => (Raise IsADirectoryError, w)
    | _ => (Ok tt, set_fs (<[cache_file := File (json_text (location_cache w))]> (fs w)) w)
    end.
Proof.
  unfold _save_cache. rewrite run_save_ops. destruct w as [f c n]. simpl.
  by destruct (f !! cache_file) as [[]|].
Qed.

(** The four ways a call to [reverse_geocode] can go: answered from the
    cache, stopped by an error during the scan, answered by the service
    without storing, or answered and stored (the save may then fail).
    [asked] is the state once the rate limiter has returned. *)
Lemma reverse_geocode_outcomes `{Externals} (cfg : Config) (latitude longitude : float)
    (w : world) :
  let key := cache_key latitude longitude in
  let scan := scan_cache (cache_distance_threshold cfg) latitude longitude (location_cache w) in
  let asked := count_requests (limited_requests (requests w) key (geocoding_timeout cfg)) w in
  (∃ v, cache_geocoding_results cfg = true ∧ scan = Ok (Some v) ∧ str_truthy v = true
        ∧ reverse_geocode cfg latitude longitude w = (Ok (Some v), w))
  ∨ (∃ e, cache_geocoding_results cfg = true ∧ scan = Raise e
          ∧ reverse_geocode cfg latitude longitude w = (Ok None, w))
  ∨ (∃ r, reverse_geocode cfg latitude longitude w = (Ok r, asked)
          ∧ (r = None ∨ ∃ s, r = Some s
                             ∧ (str_truthy s = false ∨ cache_geocoding_results cfg = false)))
  ∨ (∃ s, cache_geocoding_results cfg = true ∧ str_truthy s = true
          ∧ (∃ loc, limited_reverse (requests w) key (geocoding_timeout cfg) = Ok loc
                    ∧ _parse_location loc = Ok (Some s))
          ∧ let stored := dict_set key s (location_cache w) in
            reverse_geocode cfg latitude longitude w
            = match fs w !! cache_file with
              | Some Dir => (Ok None, set_cache stored asked)
              | _ => (Ok (Some s),
                      set_fs (<[cache_file := File (json_text stored)]> (fs w))
                             (set_cache stored asked))
              end).
Proof.
  intros key scan asked. subst asked.
  unfold reverse_geocode, try_all, bind, _is_cached_location_nearby, call_reverse, lift, ret.
  fold key. destruct (cache_geocoding_results cfg) eqn:Hcache.
  - fold scan. destruct scan as [[v|]|e] eqn:Hscan; simpl.
    + destruct (str_truthy v) eqn:Hv; [left; by exists v|].
      destruct (limited_reverse _ _ _) as [loc|e] eqn:Hrev; simpl;
        [|right; right; left; exists None; by split; [|left]].
      destruct (_parse_location loc) as [[s|]|e] eqn:Hparse; simpl;
        [|right; right; left; exists None; by split; [|left]..].
      destruct (str_truthy s) eqn:Hs; simpl.
      * right; right; right. exists s. split; [done|]. split; [done|].
        split; [by exists loc|].
        unfold store. rewrite save_cache_eq, !count_requests_eq. simpl.
        by destruct (fs w !! cache_file) as [[]|].
      * right; right; left. exists (Some s). split; [done|]. right. exists s. by split; [|left].
    + destruct (limited_reverse _ _ _) as [loc|e] eqn:Hrev; simpl;
        [|right; right; left; exists None; by split; [|left]].
      destruct (_parse_location loc) as [[s|]|e] eqn:Hparse; simpl;
        [|right; right; left; exists None; by split; [|left]..].
      destruct (str_truthy s) eqn:Hs; simpl.
      * right; right; right. exists s. split; [done|]. split; [done|].
        split; [by exists loc|].
        unfold store. rewrite save_cache_eq, !count_requests_eq. simpl.
        by destruct (fs w !! cache_file) as [[]|].
      * right; right; left. exists (Some s). split; [done|]. right. exists s. by split; [|left].
    + right; left. by exists e.
  - simpl. right; right; left.
    destruct (limited_reverse _ _ _) as [loc|e] eqn:Hrev; simpl;
      [|exists None; by split; [|left]].
    destruct (_parse_location loc) as [[s|]|e]; simpl;
      [|exists None; by split; [|left]..].
    rewrite andb_false_r. simpl.
    exists (Some s). split; [done|]. right. exists s. by split; [|right].
Qed.

Lemma dict_get_set (k v : string) (d : list (string * string)) :
  dict_get k (dict_set k v d) = Some v.
Proof.
  induction d as [|[k' v'] d IH]; simpl.
  - by rewrite String.eqb_refl.
  - destruct (String.eqb k' k) eqn:Hk; simpl; [by rewrite String.eqb_refl|].
    by rewrite Hk.
Qed.

Lemma dict_set_length (k v : string) (d : list (string * string)) :
  List.length d ≤ List.length (dict_set k v d) ≤ S (List.length d).
Proof.
  induction d as [|[k' v'] d IH]; simpl; [lia|].
  destruct (String.eqb k' k); simpl; lia.
Qed.

(** X1: a call to [reverse_geocode] never raises, makes at most one call
    through the rate limiter and so sends at most three requests, touches
    no file other than the cache file, and either leaves the cache as it is
    or sets the key of the queried coordinate to the non-empty place name
    parsed from what the rate limiter returned. *)
Theorem reverse_geocode_footprint `{Externals} (cfg : Config) (latitude longitude : float)
    (w : world) :
  let key := cache_key latitude longitude in
  let w' := snd (reverse_geocode cfg latitude longitude w) in
  (∃ r, fst (reverse_geocode cfg latitude longitude w) = Ok r)
  ∧ requests w ≤ requests w' ≤ requests w + 3
  ∧ (∀ p, p ≠ cache_file → fs w' !! p = fs w !! p)
  ∧ (location_cache w' = location_cache w
     ∨ ∃ loc s, limited_reverse (requests w) key (geocoding_timeout cfg) = Ok loc
                ∧ _parse_location loc = Ok (Some s) ∧ s ≠ ""
                ∧ requests w < requests w'
                ∧ location_cache w' = dict_set key s (location_cache w)).
Proof.
  intros key w'. subst key w'.
  pose proof (limited_requests_bound (requests w) (cache_key latitude longitude)
                (geocoding_timeout cfg)) as Hreq.
  destruct (reverse_geocode_outcomes cfg latitude longitude w)
    as [(v & _ & _ & _ & ->)|[(e & _ & _ & ->)|[(r & -> & _)|(s & _ & Hs & (loc & Hloc & Hparse) & Hr)]]].
  - simpl. split; [by eexists|]. split; [lia|]. split; [done|by left].
  - simpl. split; [by eexists|]. split; [lia|]. split; [done|by left].
  - rewrite count_requests_eq. simpl.
    split; [by eexists|]. split; [lia|]. split; [done|by left].
  - cbv zeta in Hr. rewrite Hr, count_requests_eq.
    assert (s ≠ "") as Hne by by apply str_truthy_true.
    destruct (fs w !! cache_file) as [[text|]|] eqn:Hf; simpl;
      (split; [by eexists|]; split; [lia|]; split;
       [intros p Hp; by rewrite ?lookup_insert_ne
       |right; exists loc, s; repeat split; try done; lia]).
Qed.

(** X2: with [cache_geocoding_results] off, every call goes through the
    rate limiter, which sends one request when it is answered and up to
    three when the service fails, and returns what is parsed from the
    outcome; the cache and the files are left alone, even when the cache
    holds a nearby entry. *)
Theorem reverse_geocode_without_cache `{Externals} (cfg : Config)
    (latitude longitude : float) (w : world) :
  cache_geocoding_results cfg = false →
  let key := cache_key latitude longitude in
  let w' := snd (reverse_geocode cfg latitude longitude w) in
  fst (reverse_geocode cfg latitude longitude w)
  = Ok (match limited_reverse (requests w) key (geocoding_timeout cfg) with
        | Ok loc => match _parse_location loc with Ok r => r | Raise _ => None end
        | Raise _ => None
        end)
  ∧ fs w' = fs w ∧ location_cache w' = location_cache w
  ∧ requests w < requests w' ≤ requests w + 3
  ∧ (∀ loc, nominatim_reverse (requests w) key (geocoding_timeout cfg) = Ok loc →
            limited_reverse (requests w) key (geocoding_timeout cfg) = Ok loc
            ∧ requests w' = S (requests w)).
Proof.
  intros Hcache key w'. subst w' key.
  pose proof (limited_requests_bound (requests w) (cache_key latitude longitude)
                (geocoding_timeout cfg)) as Hreq.
  assert (reverse_geocode cfg latitude longitude w
          = (Ok (match limited_reverse (requests w) (cache_key latitude longitude)
                                       (geocoding_timeout cfg) with
                 | Ok loc => match _parse_location loc with Ok r => r | Raise _ => None end
                 | Raise _ => None
                 end),
             count_requests (limited_requests (requests w) (cache_key latitude longitude)
                                              (geocoding_timeout cfg)) w))
    as Hcall.
  { unfold reverse_geocode, try_all, bind, call_reverse, lift, ret. rewrite Hcache. simpl.
    destruct (limited_reverse _ _ _) as [loc|e]; simpl; [|done].
    destruct (_parse_location loc) as [[s|]|e]; simpl; [|done..].
    by rewrite andb_false_r. }
  rewrite Hcall, count_requests_eq. simpl.
  split; [done|]. split; [done|]. split; [done|]. split; [lia|].
  intros loc Hloc. destruct (limited_first_answer _ _ _ _ Hloc) as [Hr Hone].
  split; [done|]. by rewrite Hone.
Qed.

Lemma reverse_geocode_without_cache_witness :
  let r := @reverse_geocode (demo_externals backend_new_york)
             (with_caching false default_config) nyc_lat nyc_lon cached_world in
  fst r = Ok (Some "New York, New York, United States")
  ∧ location_cache (snd r) = location_cache cached_world
  ∧ requests (snd r) = 1.
Proof.
  destruct (@reverse_geocode_without_cache (demo_externals backend_new_york)
              (with_caching false default_config) nyc_lat nyc_lon cached_world eq_refl)
    as (Hr & _ & Hc & _ & Hone).
  split; [exact Hr|]. split; [exact Hc|].
  exact (proj2 (Hone (Some new_york) eq_refl)).
Defined.

(** X3: when a call asks the service and returns a place name, that name
    is in the cache under the key of the coordinate, the cache has grown by
    at most one entry, and the cache file already holds the new cache. *)
Theorem reverse_geocode_stores_and_persists `{Externals} (cfg : Config)
    (latitude longitude : float) (w w1 : world) (name : string) :
  cache_geocoding_results cfg = true →
  reverse_geocode cfg latitude longitude w = (Ok (Some name), w1) →
  requests w < requests w1 →
  name ≠ "" →
  dict_get (cache_key latitude longitude) (location_cache w1) = Some name
  ∧ List.length (location_cache w1) ≤ S (List.length (location_cache w))
  ∧ in_sync w1.
Proof.
  intros Hcache Hcall Hreq Hname.
  destruct (reverse_geocode_outcomes cfg latitude longitude w)
    as [(v & _ & _ & _ & Hr)|[(e & _ & _ & Hr)|[(r & Hr & Hcases)|(s & _ & Hs & _ & Hr)]]];
    rewrite Hr in Hcall.
  - injection Hcall as _ <-. lia.
  - done.
  - injection Hcall as -> _. destruct Hcases as [?|(s & [= <-] & [Hs|?])]; [done| |congruence].
    by rewrite (str_truthy_nonempty _ Hname) in Hs.
  - cbv zeta in Hcall. rewrite count_requests_eq in Hcall.
    destruct (fs w !! cache_file) as [[text|]|] eqn:Hf;
      [|done|]; injection Hcall as -> <-; simpl;
      (split; [apply dict_get_set|]; split; [apply dict_set_length|]);
      unfold in_sync, cache_file_text; simpl; by rewrite lookup_insert_eq.
Qed.

Lemma reverse_geocode_stores_and_persists_witness :
  let E := demo_externals backend_new_york in
  let w1 := snd (@reverse_geocode E default_config nyc_lat nyc_lon empty_world) in
  dict_get (@cache_key E nyc_lat nyc_lon) (location_cache w1)
    = Some "New York, New York, United States"
  ∧ List.length (location_cache w1) ≤ 1
  ∧ @in_sync E w1.
Proof.
  intros E w1.
  apply (@reverse_geocode_stores_and_persists E default_config nyc_lat nyc_lon
           empty_world w1 "New York, New York, United States");
    [reflexivity|reflexivity|vm_compute; lia|discriminate].
Defined.

(** X4: a cache file that matches the cache in memory still matches it
    after any call to [reverse_geocode]. *)
Theorem reverse_geocode_keeps_sync `{Externals} (cfg : Config) (latitude longitude : float)
    (w : world) :
  in_sync w → in_sync (snd (reverse_geocode cfg latitude longitude w)).
Proof.
  intros Hsync.
  destruct (reverse_geocode_outcomes cfg latitude longitude w)
    as [(v & _ & _ & _ & ->)|[(e & _ & _ & ->)|[(r & -> & _)|(s & _ & _ & _ & Hr)]]];
    [done|done| |].
  - by rewrite count_requests_eq.
  - cbv zeta in Hr. rewrite Hr, count_requests_eq. unfold in_sync, cache_file_text in *.
    destruct (fs w !! cache_file) as [[text|]|] eqn:Hf; [|done..].
    simpl. by rewrite lookup_insert_eq.
Qed.

Lemma reverse_geocode_keeps_sync_witness :
  @in_sync (demo_externals backend_new_york)
    (snd (@reverse_geocode (demo_externals backend_new_york) default_config
            nyc_lat nyc_lon synced_world)).
Proof.
  apply (@reverse_geocode_keeps_sync (demo_externals backend_new_york)). reflexivity.
Defined.

(** X5: a call that returns none or an empty name stores nothing: when
    the cache file can be written, the cache and the files are as before. *)
Theorem reverse_geocode_negative_not_cached `{Externals} (cfg : Config)
    (latitude longitude : float) (w : world) (r : option string) :
  fs w !! cache_file ≠ Some Dir →
  fst (reverse_geocode cfg latitude longitude w) = Ok r →
  r = None ∨ r = Some "" →
  location_cache (snd (reverse_geocode cfg latitude longitude w)) = location_cache w
  ∧ fs (snd (reverse_geocode cfg latitude longitude w)) = fs w.
Proof.
  intros Hdir Hres Hneg.
  destruct (reverse_geocode_outcomes cfg latitude longitude w)
    as [(v & _ & _ & _ & Hr)|[(e & _ & _ & Hr)|[(r' & Hr & _)|(s & _ & Hs & _ & Hr)]]];
    rewrite Hr in Hres |- *; [done|done|by rewrite count_requests_eq|].
  rewrite count_requests_eq in Hres |- *.
  simpl in Hres |- *. destruct (fs w !! cache_file) as [[text|]|] eqn:Hf; [|done|];
    simpl in Hres; injection Hres as <-;
    destruct Hneg as [?|[= ->]]; done.
Qed.

Lemma reverse_geocode_negative_not_cached_witness :
  let E := demo_externals backend_down in
  location_cache (snd (@reverse_geocode E default_config nyc_lat nyc_lon synced_world)) = []
  ∧ fs (snd (@reverse_geocode E default_config nyc_lat nyc_lon synced_world))
    = fs synced_world.
Proof.
  intros E.
  apply (@reverse_geocode_negative_not_cached E default_config nyc_lat nyc_lon
           synced_world None); [discriminate|reflexivity|by left].
Defined.

(** X6: when the cache file cannot be written (its path is a directory),
    a lookup the service answered is still reported as none: the requests
    have been sent and the name is kept in memory, but the caller gets
    nothing. *)
Theorem reverse_geocode_save_failure `{Externals} (cfg : Config)
    (latitude longitude : float) (w : world) (loc : option location) (s : string) :
  let key := cache_key latitude longitude in
  cache_geocoding_results cfg = true →
  fs w !! cache_file = Some Dir →
  scan_cache (cache_distance_threshold cfg) latitude longitude (location_cache w) = Ok None →
  limited_reverse (requests w) key (geocoding_timeout cfg) = Ok loc →
  _parse_location loc = Ok (Some s) →
  s ≠ "" →
  reverse_geocode cfg latitude longitude w
  = (Ok None,
     set_cache (dict_set key s (location_cache w))
               (count_requests (limited_requests (requests w) key (geocoding_timeout cfg)) w)).
Proof.
  intros key Hcache Hdir Hscan Hloc Hparse Hs.
  unfold reverse_geocode, try_all, bind, _is_cached_location_nearby, call_reverse, lift, ret.
  fold key. rewrite Hcache, Hscan. simpl. rewrite Hloc. simpl. rewrite Hparse. simpl.
  rewrite (str_truthy_nonempty s Hs). simpl.
  unfold store. rewrite save_cache_eq, !count_requests_eq. simpl. by rewrite Hdir.
Qed.

Lemma reverse_geocode_save_failure_witness :
  let E := demo_externals backend_new_york in
  @reverse_geocode E default_config nyc_lat nyc_lon blocked_world
  = (Ok None,
     set_cache [("40.7128, -74.006", "New York, New York, United States")]
               (count_request blocked_world)).
Proof.
  intros E.
  apply (@reverse_geocode_save_failure E default_config nyc_lat nyc_lon blocked_world
           (Some new_york) "New York, New York, United States");
    try reflexivity. discriminate.
Defined.

(** X7: what [_save_cache] writes is what [_load_cache] reads at the next
    start, given that the JSON parser reads back the JSON text of the
    cache; the save succeeds whenever the cache file is not a directory. *)
Theorem save_then_load `{Externals} (w : world) :
  fs w !! cache_file ≠ Some Dir →
  json_loads (json_text (location_cache w)) = Some (location_cache w) →
  fst (_save_cache w) = Ok tt
  ∧ _load_cache (fs (snd (_save_cache w))) = Ok (location_cache w).
Proof.
  intros Hdir Hloads. rewrite save_cache_eq.
  destruct (fs w !! cache_file) as [[text|]|] eqn:Hf; [|done|];
    simpl; (split; [done|]); unfold _load_cache;
    by rewrite lookup_insert_eq, Hloads.
Qed.

Lemma save_then_load_witness :
  fst (@_save_cache demo_externals_loads unsaved_world) = Ok tt
  ∧ @_load_cache demo_externals_loads
      (fs (snd (@_save_cache demo_externals_loads unsaved_world)))
    = Ok [("a", "b")].
Proof.
  apply (@save_then_load demo_externals_loads unsaved_world); [discriminate|reflexivity].
Defined.

(** A first run finds no cache file and starts from an empty cache. *)
Example load_cache_missing_file :
  @_load_cache demo_externals_loads ∅ = Ok [].
Proof. reflexivity. Qed.

(** X8: the cache answers with the first entry, in insertion order, that
    lies within the threshold, whatever comes after it: a later entry is
    never preferred, even an exact match. *)
Theorem reverse_geocode_first_match `{Externals} (cfg : Config)
    (latitude longitude : float) (w : world)
    (pre post : list (string * string)) (k v : string) :
  cache_geocoding_results cfg = true →
  location_cache w = (pre ++ (k, v) :: post)%list →
  Forall (λ e, beyond (cache_distance_threshold cfg) latitude longitude e.1) pre →
  within (cache_distance_threshold cfg) latitude longitude k →
  v ≠ "" →
  reverse_geocode cfg latitude longitude w = (Ok (Some v), w).
Proof.
  intros Hcache Hsplit Hpre Hk Hv.
  apply reverse_geocode_on_hit; [done| |done].
  rewrite Hsplit. by apply scan_cache_hit.
Qed.

Lemma reverse_geocode_first_match_witness :
  @reverse_geocode (demo_externals backend_down) default_config nyc_lat nyc_lon layered_world
  = (Ok (Some "Near"), layered_world).
Proof.
  apply (@reverse_geocode_first_match (demo_externals backend_down) default_config
           nyc_lat nyc_lon layered_world
           [("0.0, 0.0", "Null Island")] [("40.7128, -74.006", "Exact")]
           "40.713, -74.006" "Near"); [reflexivity|reflexivity| | |discriminate].
  - constructor; [|constructor]. eexists. split; vm_compute; reflexivity.
  - eexists. split; vm_compute; reflexivity.
Defined.

(** ** Place names: joining and splitting *)

Lemma split_comma_cons (c : ascii) (r : string) :
  split_comma (String c r)
  = if Ascii.eqb c "," && str_startswith_char " " r
    then "" :: split_comma (match r with String _ r' => r' | EmptyString => "" end)
    else match split_comma r with
         | h :: t => String c h :: t
         | [] => [String c ""]
         end.
Proof.
  destruct (Ascii.eqb_spec c ",") as [->|Hc].
  - destruct r as [|a r]; [reflexivity|].
    destruct (Ascii.eqb_spec a " ") as [->|Ha].
    + reflexivity.
    + simpl str_startswith_char. destruct (Ascii.eqb_spec a " "); [done|].
      destruct a as [[] [] [] [] [] [] [] []]; try reflexivity. done.
  - destruct c as [[] [] [] [] [] [] [] []]; try reflexivity. done.
Qed.

Lemma has_comma_space_cons (c : ascii) (r : string) :
  has_comma_space (String c r)
  = (Ascii.eqb c "," && str_startswith_char " " r) || has_comma_space r.
Proof.
  destruct (Ascii.eqb_spec c ",") as [->|Hc].
  - destruct r as [|a r]; [reflexivity|].
    destruct (Ascii.eqb_spec a " ") as [->|Ha].
    + reflexivity.
    + simpl str_startswith_char. destruct (Ascii.eqb_spec a " "); [done|].
      destruct a as [[] [] [] [] [] [] [] []]; try reflexivity. done.
  - destruct c as [[] [] [] [] [] [] [] []]; try reflexivity. done.
Qed.

Lemma split_comma_plain (s : string) :
  has_comma_space s = false → split_comma s = [s].
Proof.
  induction s as [|c r IH]; [done|].
  rewrite has_comma_space_cons, split_comma_cons.
  intros [Hhead Hrest]%orb_false_elim. rewrite Hhead. by rewrite (IH Hrest).
Qed.

Lemma split_comma_app (x t : string) :
  has_comma_space x = false →
  split_comma (x ++ ", " ++ t) = x :: split_comma t.
Proof.
  induction x as [|c x IH]; [done|].
  rewrite has_comma_space_cons. intros [Hhead Hrest]%orb_false_elim.
  rewrite string_app_cons, split_comma_cons, (IH Hrest).
  assert (Ascii.eqb c "," && str_startswith_char " " (x ++ ", " ++ t) = false) as ->; [|done].
  destruct x as [|a x]; [|exact Hhead].
  rewrite string_app_nil_l. simpl. apply andb_false_r.
Qed.

(** Splitting undoes joining, for parts that hold no [", "]. *)
Lemma split_join_comma (l : list string) :
  l ≠ [] → Forall (λ s, has_comma_space s = false) l →
  split_comma (join_comma l) = l.
Proof.
  intros Hne Hall. induction Hall as [|x l Hx Hall IH]; [done|].
  destruct l as [|y l]; [by apply split_comma_plain|].
  change (join_comma (x :: y :: l)) with (x ++ ", " ++ join_comma (y :: l)).
  rewrite split_comma_app by done. by rewrite IH.
Qed.

(** X9: for an address whose parts hold no [", "], the directory name is
    made of the parts themselves: with [group_by_country] the last part
    present (the country when there is one), with [group_by_state] the last
    two in their order, otherwise all of them in reverse order. *)
Theorem location_filters_on_address (cfg : Config) (address : gmap string string) :
  address_parts address ≠ [] →
  Forall (λ s, has_comma_space s = false) (address_parts address) →
  ∃ s, _parse_location (Some {| raw_address := Some address |}) = Ok (Some s)
       ∧ s ≠ ""
       ∧ _apply_location_filters cfg (Some s)
         = Ok (if group_by_country cfg then default "" (last (address_parts address))
               else if group_by_state cfg then join_comma (py_last_two (address_parts address))
               else join_comma (reverse (address_parts address))).
Proof.
  intros Hne Hall. exists (join_comma (address_parts address)).
  split; [done|]. split.
  - destruct (address_parts address) as [|x rest] eqn:Hparts; [done|].
    assert (x ≠ "") as Hx.
    { assert (x ∈ address_parts address) as Hin by (rewrite Hparts; left).
      unfold address_parts, filter_truthy in Hin.
      apply list_elem_of_omap in Hin as (o & _ & Ho).
      destruct o as [s|]; [|done]. destruct (str_truthy s) eqn:Hs; [|done].
      injection Ho as ->. by apply str_truthy_true. }
    destruct x as [|c x]; [done|]. by destruct rest.
  - unfold _apply_location_filters. rewrite split_join_comma by done.
    destruct (group_by_country cfg).
    + unfold py_last. destruct (last (address_parts address)) eqn:Hlast; [done|].
      by apply last_None in Hlast.
    + by destruct (group_by_state cfg), (group_by_city cfg).
Qed.

Lemma location_filters_on_address_witness :
  ∃ s, _parse_location (Some {| raw_address := Some hamlet_address |}) = Ok (Some s)
       ∧ s ≠ ""
       ∧ _apply_location_filters (with_grouping false true false default_config) (Some s)
         = Ok "Windham County, United States".
Proof.
  apply (location_filters_on_address (with_grouping false true false default_config)
           hamlet_address); [discriminate|].
  repeat constructor.
Defined.

(** A part that holds [", "] itself is cut in two. *)
Example location_filters_city_with_comma :
  _apply_location_filters default_config (Some "Washington, D.C., United States")
  = Ok "United States, D.C., Washington".
Proof. reflexivity. Qed.

(** ** Placement: what happens to the source and to other files *)



(** ** The batch: files, requests, accounting *)

Lemma keeps_file_refl (f : gmap string node) (q : string) : keeps_file f f q.
Proof. by intros content. Qed.

Lemma keeps_file_trans (f1 f2 f3 : gmap string node) (q : string) :
  keeps_file f1 f2 q → keeps_file f2 f3 q → keeps_file f1 f3 q.
Proof. intros H12 H23 content Hq. by apply H23, H12. Qed.

Lemma mkdir_fold_raise (e : exn) (ds : list string) :
  foldl (λ r d, rbind r (λ f, mkdir_exist_ok f d)) (Raise e) ds = Raise e.
Proof. induction ds as [|d ds IH]; [done|]. simpl. exact IH. Qed.

Lemma mkdir_fold_keeps (f f' : gmap string node) (ds : list string) (q : string) :
  foldl (λ r d, rbind r (λ f, mkdir_exist_ok f d)) (Ok f) ds = Ok f' →
  keeps_file f f' q.
Proof.
  revert f. induction ds as [|d ds IH]; intros f; simpl.
  - intros [= ->]. apply keeps_file_refl.
  - unfold mkdir_exist_ok at 2.
    destruct (f !! d) as [[text|]|] eqn:Hd.
    + by rewrite mkdir_fold_raise.
    + intros Hrest. eapply keeps_file_trans; [|by apply IH].
      intros content Hq. destruct (decide (d = q)) as [->|]; [congruence|].
      by rewrite lookup_insert_ne.
    + intros Hrest. eapply keeps_file_trans; [|by apply IH].
      intros content Hq. destruct (decide (d = q)) as [->|]; [congruence|].
      by rewrite lookup_insert_ne.
Qed.

Lemma makedirs_keeps_files (p : string) (w : world) (q : string) :
  keeps_file (fs w) (fs (snd (makedirs p w))) q.
Proof.
  unfold makedirs. destruct (String.eqb p ""); [apply keeps_file_refl|].
  destruct (foldl _ _ _) as [f'|e] eqn:Hfold; [|apply keeps_file_refl].
  simpl. by eapply mkdir_fold_keeps.
Qed.

Lemma keeps_file_is_file (f f' : gmap string node) (q : string) :
  keeps_file f f' q → is_file f q → is_file f' q.
Proof. intros Hkeep [content Hq]. exists content. by apply Hkeep. Qed.

Lemma create_output_path_world `{Externals} (cfg : Config) (output city : string)
    (date : option datetime) (w : world) :
  snd (_create_output_path cfg output city date w) = w
  ∨ ∃ p, snd (_create_output_path cfg output city date w) = snd (makedirs p w).
Proof.
  unfold _create_output_path. rewrite create_path_run.
  destruct (match (if sort_by_date cfg then date else None) with
            | Some d => _
            | None => _
            end) as [p|e]; [right; by exists p|by left].
Qed.

Lemma create_unsortable_path_world `{Externals} (cfg : Config) (output : string)
    (date : option datetime) (w : world) :
  snd (_create_unsortable_path cfg output date w) = w
  ∨ ∃ p, snd (_create_unsortable_path cfg output date w) = snd (makedirs p w).
Proof.
  unfold _create_unsortable_path. rewrite create_path_run.
  destruct (match (if sort_by_date cfg then date else None) with
            | Some d => _
            | None => _
            end) as [p|e]; [right; by exists p|by left].
Qed.

(** What making a directory may do to the state. *)
Lemma makedirs_step (p : string) (w : world) (q : string) :
  let w' := snd (makedirs p w) in
  requests w' = requests w ∧ keeps_file (fs w) (fs w') q.
Proof.
  simpl. split; [apply makedirs_keeps|apply makedirs_keeps_files].
Qed.

(** What a call to [reverse_geocode] may do to the state: it sends at
    most three requests, keeps every file other than the cache file, and
    leaves a file where there was one. *)
Lemma reverse_geocode_step `{Externals} (cfg : Config) (latitude longitude : float)
    (w : world) (q : string) :
  let w' := snd (reverse_geocode cfg latitude longitude w) in
  requests w ≤ requests w' ≤ requests w + 3
  ∧ (q ≠ cache_file → keeps_file (fs w) (fs w') q)
  ∧ (is_file (fs w) q → is_file (fs w') q).
Proof.
  pose proof (limited_requests_bound (requests w) (cache_key latitude longitude)
                (geocoding_timeout cfg)) as Hreq.
  destruct (reverse_geocode_outcomes cfg latitude longitude w)
    as [(v & _ & _ & _ & ->)|[(e & _ & _ & ->)|[(r & -> & _)|(s & _ & _ & _ & Hr)]]];
    cbv zeta.
  - simpl. split; [lia|]. split; [intros _; apply keeps_file_refl|done].
  - simpl. split; [lia|]. split; [intros _; apply keeps_file_refl|done].
  - rewrite count_requests_eq. simpl.
    split; [lia|]. split; [intros _; apply keeps_file_refl|done].
  - cbv zeta in Hr. rewrite Hr, count_requests_eq.
    destruct (fs w !! cache_file) as [[text|]|] eqn:Hf; simpl;
      (split; [lia|]); (split; [intros Hq content Hc; by rewrite ?lookup_insert_ne|]);
      try done;
      intros [content Hc]; (destruct (decide (q = cache_file)) as [->|Hq];
        [eexists; apply lookup_insert_eq|exists content; by rewrite lookup_insert_ne]).
Qed.

Lemma reverse_geocode_wrapper_world `{Externals} (cfg : Config) (latitude longitude : float)
    (w : world) :
  snd (_reverse_geocode cfg latitude longitude w)
  = snd (reverse_geocode cfg latitude longitude w).
Proof.
  unfold _reverse_geocode, try_all, bind, ret.
  destruct (reverse_geocode cfg latitude longitude w) as [[[s|]|e] w']; simpl; [|done..].
  by destruct (str_truthy s).
Qed.

Lemma resolve_output_path_step `{Externals} (cfg : Config) (output : string) (img : Image)
    (w : world) (q : string) :
  let w' := snd (resolve_output_path cfg output img w) in
  requests w ≤ requests w' ≤ requests w + 3
  ∧ (q ≠ cache_file → keeps_file (fs w) (fs w') q)
  ∧ (is_file (fs w) q → is_file (fs w') q).
Proof.
  intros w'. subst w'.
  remember (resolve_output_path cfg output img w) as r eqn:Hr.
  unfold resolve_output_path in Hr.
  destruct (_get_gps_coordinates cfg (Some img)) as [lat lon].
  set (date := _get_photo_date cfg (Some img)) in Hr.
  assert (∀ w0, requests w ≤ requests w0 ≤ requests w + 3 →
                (q ≠ cache_file → keeps_file (fs w) (fs w0) q) →
                (is_file (fs w) q → is_file (fs w0) q) →
                ∀ r0, r0 = (let* output_path := _create_unsortable_path cfg output date
                            in ret (output_path, false)) w0 →
                requests w ≤ requests r0.2 ≤ requests w + 3
                ∧ (q ≠ cache_file → keeps_file (fs w) (fs r0.2) q)
                ∧ (is_file (fs w) q → is_file (fs r0.2) q)) as Hunsortable.
  { intros w0 Hreq Hkeep Hfile r0 ->.
    pose proof (create_unsortable_path_world cfg output date w0) as Hw.
    unfold bind, ret.
    destruct (_create_unsortable_path cfg output date w0) as [[path|e] w2];
      simpl in *; (destruct Hw as [->|[p ->]]; [done|]);
      destruct (makedirs_step p w0 q) as [Hsame Hmk]; simpl in Hsame, Hmk;
      (split; [lia|]);
      (split; [intros Hq; eapply keeps_file_trans; [by apply Hkeep|done]
              |intros Hq; by eapply keeps_file_is_file; [|apply Hfile]]). }
  destruct (_validate_gps_coordinates lat lon).
  - unfold bind at 1 in Hr.
    pose proof (reverse_geocode_wrapper_world cfg (default 0%float lat) (default 0%float lon) w)
      as Hw.
    pose proof (reverse_geocode_step cfg (default 0%float lat) (default 0%float lon) w q)
      as (Hreq & Hkeep & Hfile).
    simpl in Hreq, Hkeep, Hfile. rewrite <- Hw in Hreq, Hkeep, Hfile. clear Hw.
    destruct (_reverse_geocode cfg _ _ w) as [[city_rgeo|e] w1]; simpl in Hreq, Hkeep, Hfile;
      [|by subst r].
    unfold bind at 1, lift in Hr.
    destruct (_apply_location_filters cfg city_rgeo) as [city|e]; [|by subst r].
    destruct (str_truthy city); [|by apply (Hunsortable w1)].
    pose proof (create_output_path_world cfg output city date w1) as Hw.
    unfold bind, ret in Hr.
    destruct (_create_output_path cfg output city date w1) as [[path|e] w2];
      simpl in *; subst r; simpl; (destruct Hw as [->|[p ->]]; [done|]);
      destruct (makedirs_step p w1 q) as [Hsame Hmk]; simpl in Hsame, Hmk;
      (split; [lia|]);
      (split; [intros Hq; eapply keeps_file_trans; [by apply Hkeep|done]
              |intros Hq; by eapply keeps_file_is_file; [|apply Hfile]]).
  - apply (Hunsortable w); [lia|intros _; apply keeps_file_refl|done|done].
Qed.

(** Placing a file changes no count and keeps every other file. *)
Lemma place_step (how : transfer) (cfg : Config) (photo_path output_path : string)
    (w : world) (q : string) :
  is_file (fs w) photo_path →
  let w' := snd (place how cfg photo_path output_path w) in
  requests w' = requests w
  ∧ location_cache w' = location_cache w
  ∧ (how = Copy ∨ q ≠ photo_path → keeps_file (fs w) (fs w') q).
Proof.
  intros [content Hsrc].
  destruct (place_cases how cfg photo_path output_path content w Hsrc)
    as [(_ & _ & ->)|(dst & Hfree & -> & _)];
    [|destruct (dir_ready (fs w) dst) as [[]|e]]; simpl.
  - split; [done|]. split; [done|]. intros _. apply keeps_file_refl.
  - split; [done|]. split; [done|]. intros Hhow text Hq.
    assert (dst ≠ q) as Hne by congruence.
    destruct how.
    + by rewrite lookup_insert_ne.
    + destruct Hhow as [?|Hqs]; [done|].
      rewrite lookup_insert_ne by done. by rewrite lookup_delete_ne.
  - split; [done|]. split; [done|]. intros _. apply keeps_file_refl.
Qed.

Lemma handle_photo_step `{Externals} (cfg : Config) (output photo_path : string)
    (w : world) (q : string) :
  let w' := snd (handle_photo cfg output photo_path w) in
  requests w ≤ requests w' ≤ requests w + 3
  ∧ (q ≠ cache_file → copy_files cfg = true ∨ q ≠ photo_path →
     keeps_file (fs w) (fs w') q).
Proof.
  intros w'. subst w'.
  remember (handle_photo cfg output photo_path w) as r eqn:Hr.
  unfold handle_photo, bind at 1, extract_exif_data in Hr.
  destruct (fs w !! photo_path) as [[bytes|]|] eqn:Hsrc;
    [|subst r; simpl; split; [lia|intros _ _; apply keeps_file_refl]..].
  destruct (exif_Image bytes) as [img|];
    [|subst r; simpl; split; [lia|intros _ _; apply keeps_file_refl]].
  unfold bind at 1 in Hr.
  pose proof (resolve_output_path_step cfg output img w q) as (Hreq & Hkeep & _).
  pose proof (resolve_output_path_step cfg output img w photo_path) as (_ & _ & Hfile).
  simpl in Hreq, Hkeep, Hfile. specialize (Hfile (ex_intro _ bytes Hsrc)).
  destruct (resolve_output_path cfg output img w) as [[[output_path is_sortable]|e] w1];
    simpl in Hreq, Hkeep, Hfile; [|by subst r; simpl; split; [|intros ? _; apply Hkeep]].
  unfold bind, ret in Hr.
  assert (∃ how, (if copy_files cfg
                  then _copy_photo cfg photo_path output_path
                  else _move_photo cfg photo_path output_path)
                 = place how cfg photo_path output_path
                 ∧ (copy_files cfg = true ↔ how = Copy)) as (how & Hhow & Hcopy).
  { destruct (copy_files cfg); [exists Copy|exists Move]; by split. }
  rewrite Hhow in Hr.
  pose proof (place_step how cfg photo_path output_path w1 q Hfile) as (Hreq' & _ & Hkeep').
  simpl in Hreq', Hkeep'.
  destruct (place how cfg photo_path output_path w1) as [[dest|e] w2];
    simpl in Hreq', Hkeep'; subst r; simpl;
    (split; [lia|]; intros Hq Hmode; eapply keeps_file_trans; [by apply Hkeep|];
     apply Hkeep'; destruct Hmode as [Hc|?]; [left; by apply Hcopy|by right]).
Qed.

Lemma process_photo_step `{Externals} (cfg : Config) (output : string) (total : nat)
    (c : counters) (photo_path : string) (w : world) (q : string) :
  let w' := (process_photo cfg output total c photo_path w).2 in
  requests w ≤ requests w' ≤ requests w + 3
  ∧ (q ≠ cache_file → copy_files cfg = true ∨ q ≠ photo_path →
     keeps_file (fs w) (fs w') q).
Proof.
  pose proof (handle_photo_step cfg output photo_path w q) as Hstep.
  unfold process_photo.
  by destruct (handle_photo cfg output photo_path w) as [[[[]|]|e] w1].
Qed.

(** X11: a batch never changes or removes a file that was there before,
    the cache file aside: in copy mode this holds for every file, in move
    mode for every file that is not one of the photos. *)
Theorem batch_keeps_files `{Externals} (cfg : Config) (photo_paths : list string)
    (output : string) (w : world) (q : string) :
  q ≠ cache_file →
  copy_files cfg = true ∨ q ∉ photo_paths →
  keeps_file (fs w) (fs (process_photos cfg photo_paths output w).2) q.
Proof.
  intros Hq. unfold process_photos.
  generalize (List.length photo_paths) as total.
  generalize {| processed_photos := 0; sortable_photos := 0; unsortable_photos := 0 |} as c.
  revert w. induction photo_paths as [|p rest IH]; intros w c total Hmode; simpl.
  - apply keeps_file_refl.
  - pose proof (process_photo_step cfg output total c p w q) as [_ Hkeep].
    destruct (process_photo cfg output total c p w) as [[ev c1] w1]. simpl in Hkeep.
    specialize (IH w1 c1 total).
    destruct (process_loop cfg output total c1 rest w1) as [[evs c2] w2]. simpl in *.
    eapply keeps_file_trans.
    + apply Hkeep; [done|]. destruct Hmode as [?|Hnotin]; [by left|right].
      intros ->. apply Hnotin. left.
    + apply IH. destruct Hmode as [?|Hnotin]; [by left|right].
      intros Hin. apply Hnotin. by right.
Qed.

Lemma batch_keeps_files_witness :
  keeps_file (fs demo_world)
    (fs (@process_photos (demo_externals backend_new_york) default_config
           ["/in/a.jpg"; "/in/b.jpg"; "/in/c.jpg"] "/out" demo_world).2)
    "/in/a.jpg".
Proof.
  apply (@batch_keeps_files (demo_externals backend_new_york)); [discriminate|by left].
Defined.

Lemma process_loop_requests `{Externals} (cfg : Config) (output : string) (total : nat)
    (c : counters) (photo_paths : list string) (w : world) :
  requests w ≤ requests (process_loop cfg output total c photo_paths w).2
              ≤ requests w + 3 * List.length photo_paths.
Proof.
  revert w c. induction photo_paths as [|p rest IH]; intros w c; simpl; [lia|].
  pose proof (process_photo_step cfg output total c p w "") as [Hreq _].
  destruct (process_photo cfg output total c p w) as [[ev c1] w1]. simpl in Hreq.
  specialize (IH w1 c1).
  destruct (process_loop cfg output total c1 rest w1) as [[evs c2] w2]. simpl in *. lia.
Qed.

(** X12: a batch makes at most one call through the rate limiter per
    photo, and so sends at most three geocoding requests per photo. *)
Theorem batch_request_bound `{Externals} (cfg : Config) (photo_paths : list string)
    (output : string) (w : world) :
  requests w ≤ requests (process_photos cfg photo_paths output w).2
              ≤ requests w + 3 * List.length photo_paths.
Proof. apply process_loop_requests. Qed.

(** The bound is reached: three photos from New York while the service is
    down cost nine requests. *)
Example batch_requests_service_down :
  requests (@process_photos (demo_externals backend_down) default_config
              ["/in/a.jpg"; "/in/a.jpg"; "/in/a.jpg"] "/out" demo_world).2 = 9.
Proof. vm_compute. reflexivity. Qed.

Lemma process_photo_event `{Externals} (cfg : Config) (output : string) (total : nat)
    (c : counters) (photo_path : string) (w : world) :
  let '(ev, c', _) := process_photo cfg output total c photo_path w in
  ev_path ev = photo_path ∧ ev_total ev = total
  ∧ ev_sortable ev = sortable_photos c' ∧ ev_unsortable ev = unsortable_photos c'
  ∧ sortable_photos c' + unsortable_photos c' = S (sortable_photos c + unsortable_photos c).
Proof.
  unfold process_photo.
  destruct (handle_photo cfg output photo_path w) as [[[[]|]|e] w1]; simpl;
    repeat split; lia.
Qed.

Lemma process_loop_events `{Externals} (cfg : Config) (output : string) (total : nat)
    (c : counters) (photo_paths : list string) (w : world) :
  let '(events, _, _) := process_loop cfg output total c photo_paths w in
  map ev_path events = photo_paths
  ∧ Forall (λ e, ev_total e = total) events
  ∧ (∀ i e, events !! i = Some e →
            ev_sortable e + ev_unsortable e = sortable_photos c + unsortable_photos c + S i).
Proof.
  revert c w. induction photo_paths as [|p rest IH]; intros c w; simpl.
  - repeat split; [constructor|]. intros i e Hi. by rewrite lookup_nil in Hi.
  - pose proof (process_photo_event cfg output total c p w) as Hev.
    destruct (process_photo cfg output total c p w) as [[ev c1] w1].
    destruct Hev as (Hpath & Htotal & Hs & Hu & Hsum).
    specialize (IH c1 w1).
    destruct (process_loop cfg output total c1 rest w1) as [[evs c2] w2].
    destruct IH as (Hpaths & Htotals & Hsums). simpl.
    split; [by rewrite Hpath, Hpaths|]. split; [by constructor|].
    intros [|i] e Hi; simpl in Hi.
    + injection Hi as <-. lia.
    + rewrite (Hsums i e Hi). lia.
Qed.

(** X13: a batch yields one event per photo, in the order of the input
    and each carrying the number of photos as its total; in the event of
    the [i]-th photo the sortable and unsortable counts add up to [i], and
    at the end they add up to the number of photos, of which the processed
    count is at most. *)
Theorem batch_accounting `{Externals} (cfg : Config) (photo_paths : list string)
    (output : string) (w : world) :
  let '(events, c, _) := process_photos cfg photo_paths output w in
  map ev_path events = photo_paths
  ∧ Forall (λ e, ev_total e = List.length photo_paths) events
  ∧ (∀ i e, events !! i = Some e → ev_sortable e + ev_unsortable e = S i)
  ∧ sortable_photos c + unsortable_photos c = List.length photo_paths
  ∧ processed_photos c ≤ List.length photo_paths.
Proof.
  unfold process_photos.
  pose proof (process_loop_events cfg output (List.length photo_paths)
                {| processed_photos := 0; sortable_photos := 0; unsortable_photos := 0 |}
                photo_paths w) as Hev.
  pose proof (process_loop_counts cfg output (List.length photo_paths)
                {| processed_photos := 0; sortable_photos := 0; unsortable_photos := 0 |}
                photo_paths w) as Hcount.
  destruct (process_loop _ _ _ _ _ _) as [[events c] w'].
  destruct Hev as (Hpaths & Htotals & Hsums).
  destruct Hcount as (_ & Hsum & _ & _ & _ & Hproc). simpl in *.
  repeat split; try done; try lia.
Qed.

(** ** Routing of single photos *)

Lemma apply_location_filters_empty (cfg : Config) :
  _apply_location_filters cfg (Some "") = Ok "".
Proof.
  unfold _apply_location_filters.
  by destruct (group_by_country cfg), (group_by_state cfg), (group_by_city cfg).
Qed.

(** X14: when geocoding answers with an empty name (a location whose
    address names no locality, region or country), a photo with valid
    coordinates goes to the unsortable folder, dated like any other:
    [date_dir] is its capture date in the configured format. *)
Theorem nameless_location_goes_unsortable `{Externals} (cfg : Config) (output : string)
    (img : Image) (lat lon : float) (date_dir : string) (w w1 : world) :
  _get_gps_coordinates cfg (Some img) = (Some lat, Some lon) →
  _validate_gps_coordinates (Some lat) (Some lon) = true →
  _reverse_geocode cfg lat lon w = (Ok (Some ""), w1) →
  let date := _get_photo_date cfg (Some img) in
  (∀ d, sort_by_date cfg = true → date = Some d →
        strftime d (date_format cfg) = Ok date_dir) →
  let unsortable_dir := path_join output [unsortable_folder cfg] in
  let p := match (if sort_by_date cfg then date else None) with
           | Some _ => path_join unsortable_dir [date_dir]
           | None => unsortable_dir
           end in
  fst (makedirs p w1) = Ok tt →
  fst (resolve_output_path cfg output img w) = Ok (p, false).
Proof.
  intros Hgps Hval Hgeo date Hfmt unsortable_dir p Hmk. subst p unsortable_dir.
  unfold resolve_output_path. rewrite Hgps, Hval. simpl default.
  unfold bind at 1. rewrite Hgeo. unfold bind at 1, lift.
  rewrite apply_location_filters_empty.
  change (str_truthy "") with false. cbv iota.
  unfold bind, ret. fold date.
  rewrite (create_unsortable_path_eq cfg output date date_dir w1 Hfmt).
  cbv zeta. by rewrite Hmk.
Qed.

Lemma nameless_location_goes_unsortable_witness :
  fst (@resolve_output_path (demo_externals backend_nameless) default_config
         "/out" nyc_image demo_world)
  = Ok ("/out/Unsortable/2024-03-15", false).
Proof.
  apply (@nameless_location_goes_unsortable (demo_externals backend_nameless)
           default_config "/out" nyc_image nyc_lat nyc_lon "2024-03-15" demo_world
           (snd (@_reverse_geocode (demo_externals backend_nameless) default_config
                   nyc_lat nyc_lon demo_world))); try reflexivity.
  intros d _ [= <-]. reflexivity.
Defined.

(** X15: a date attribute that is not a string, or that [strptime]
    rejects, makes [ExifExtractor.get_photo_date] raise (its handler only
    catches [AttributeError]); the wrapper of the pipeline turns that into
    no date, so the photo is filed without a date directory. *)
Theorem malformed_date_is_undated `{Externals} (cfg : Config) (img : Image) (v : pyval) :
  has_exif img = true →
  use_exif_date cfg = true →
  attrs img !! date_taken_key cfg = Some v →
  truthy v = true →
  (∀ s, v = PyStr s → strptime s "%Y:%m:%d %H:%M:%S" = None) →
  (get_photo_date cfg (Some img) = Raise ValueError
   ∨ get_photo_date cfg (Some img) = Raise TypeError)
  ∧ _get_photo_date cfg (Some img) = None.
Proof.
  intros Hexif Huse Hattr Hv Hbad.
  unfold _get_photo_date, get_photo_date. rewrite Hexif, Huse, Hattr, Hv. simpl.
  destruct v as [|f|s|l]; simpl; [done|by split; [right|]| |by split; [right|]].
  rewrite (Hbad s) by done. simpl. by split; [left|].
Qed.

Lemma malformed_date_is_undated_witness :
  let img := {| has_exif := true;
                attrs := list_to_map [("DateTime", PyStr "15 March 2024")] |} in
  (@get_photo_date (demo_externals backend_down) default_config (Some img) = Raise ValueError
   ∨ @get_photo_date (demo_externals backend_down) default_config (Some img) = Raise TypeError)
  ∧ @_get_photo_date (demo_externals backend_down) default_config (Some img) = None.
Proof.
  intros img.
  apply (@malformed_date_is_undated (demo_externals backend_down) default_config img
           (PyStr "15 March 2024")); try reflexivity.
  intros s [= <-]. reflexivity.
Defined.

Lemma mkdir_fold_dirs (f f' : gmap string node) (ds : list string) :
  foldl (λ r d, rbind r (λ f, mkdir_exist_ok f d)) (Ok f) ds = Ok f' →
  (∀ d, d ∈ ds → f' !! d = Some Dir) ∧ (∀ d, f !! d = Some Dir → f' !! d = Some Dir).
Proof.
  revert f. induction ds as [|d0 ds IH]; intros f; simpl.
  - intros [= ->]. split; [|done]. intros d Hd. by apply elem_of_nil in Hd.
  - unfold mkdir_exist_ok at 2.
    assert (foldl (λ r d, rbind r (λ f, mkdir_exist_ok f d))
                  (Ok (<[d0 := Dir]> f)) ds = Ok f' →
            (∀ d, d ∈ d0 :: ds → f' !! d = Some Dir)
            ∧ (∀ d, f !! d = Some Dir → f' !! d = Some Dir)) as Hstep.
    { intros Hg. destruct (IH _ Hg) as [Hin Hkeep]. split.
      - intros d [->|Hd]%elem_of_cons; [|by apply Hin].
        apply Hkeep, lookup_insert_eq.
      - intros d Hd. apply Hkeep.
        destruct (decide (d0 = d)) as [->|]; [apply lookup_insert_eq|].
        by rewrite lookup_insert_ne. }
    destruct (f !! d0) as [[text|]|]; [by rewrite mkdir_fold_raise|apply Hstep..].
Qed.

Lemma mkdir_fold_fixed (f : gmap string node) (ds : list string) :
  (∀ d, d ∈ ds → f !! d = Some Dir) →
  foldl (λ r d, rbind r (λ f, mkdir_exist_ok f d)) (Ok f) ds = Ok f.
Proof.
  induction ds as [|d0 ds IH]; intros Hall; simpl; [done|].
  unfold mkdir_exist_ok at 2. rewrite (Hall d0) by left.
  rewrite insert_id by (apply Hall; left). apply IH. intros d Hd. apply Hall. by right.
Qed.

Lemma makedirs_idempotent (p : string) (w w1 : world) :
  makedirs p w = (Ok tt, w1) → makedirs p w1 = (Ok tt, w1).
Proof.
  unfold makedirs. destruct (String.eqb p ""); [done|].
  destruct (foldl _ _ _) as [f'|e] eqn:Hfold; [|done].
  intros [= <-]. simpl.
  destruct (mkdir_fold_dirs _ _ _ Hfold) as [Hdirs _].
  by rewrite (mkdir_fold_fixed f' _ Hdirs).
Qed.

(** X16: creating a destination directory is idempotent: once
    [_create_output_path] (for a photo with a city) or
    [_create_unsortable_path] (for one without) has returned a path,
    calling it again returns the same path and changes nothing. *)
Theorem create_path_idempotent `{Externals} (cfg : Config) (output : string)
    (city : option string) (date : option datetime) (w w1 : world) (p : string) :
  let create := match city with
                | Some c => _create_output_path cfg output c date
                | None => _create_unsortable_path cfg output date
                end in
  create w = (Ok p, w1) → create w1 = (Ok p, w1).
Proof.
  assert (∀ computed : result string,
            (let* output_path := lift computed in
             let* _ := makedirs output_path in
             ret output_path) w = (Ok p, w1) →
            (let* output_path := lift computed in
             let* _ := makedirs output_path in
             ret output_path) w1 = (Ok p, w1)) as Hrun.
  { intros computed. rewrite !create_path_run. destruct computed as [p0|e]; [|done].
    rewrite (makedirs_fst_snd p0 w).
    destruct (fst (makedirs p0 w)) as [[]|e] eqn:Hmk; [|done].
    intros [= <- <-].
    assert (makedirs p0 w = (Ok tt, snd (makedirs p0 w))) as Hfull.
    { by rewrite (makedirs_fst_snd p0 w), Hmk. }
    by rewrite (makedirs_idempotent _ _ _ Hfull). }
  destruct city as [c|]; simpl; apply Hrun.
Qed.

Lemma create_path_idempotent_witness :
  let E := demo_externals backend_down in
  let w1 := snd (@_create_unsortable_path E default_config "/out" (Some march_15)
                   demo_world) in
  @_create_unsortable_path E default_config "/out" (Some march_15) w1
  = (Ok "/out/Unsortable/2024-03-15", w1).
Proof.
  intros E w1.
  apply (@create_path_idempotent E default_config "/out" None (Some march_15) demo_world w1
           "/out/Unsortable/2024-03-15"). reflexivity.
Defined.

(** A directory cannot be made where a file is in the way. *)
Example create_path_blocked_by_file :
  fst (@_create_unsortable_path (demo_externals backend_down) default_config
         "/in/a.jpg" None demo_world)
  = Raise FileExistsError.
Proof. reflexivity. Qed.

(** X17: a photo path that is missing, is a directory, or holds bytes
    that [exif.Image] cannot parse is counted as unsortable and announced;
    nothing is created, copied or requested for it. *)
Theorem unreadable_photo_event `{Externals} (cfg : Config) (output : string) (total : nat)
    (c : counters) (photo_path : string) (w : world) :
  (∀ bytes, fs w !! photo_path = Some (File bytes) → exif_Image bytes = None) →
  process_photo cfg output total c photo_path w
  = ({| ev_processed := S (processed_photos c); ev_total := total;
        ev_sortable := sortable_photos c; ev_unsortable := S (unsortable_photos c);
        ev_path := photo_path |},
     {| processed_photos := processed_photos c; sortable_photos := sortable_photos c;
        unsortable_photos := S (unsortable_photos c) |},
     w).
Proof.
  intros Hbad. unfold process_photo, handle_photo, bind, extract_exif_data, ret.
  assert ((match fs w !! photo_path with
           | Some (File bytes) => (Ok (exif_Image bytes), w)
           | _ => (Ok None, w)
           end) = (Ok None, w)) as ->.
  { destruct (fs w !! photo_path) as [[bytes|]|]; [|done..]. by rewrite (Hbad bytes). }
  unfold yield, bump_unsortable. simpl. by rewrite Nat.add_1_r.
Qed.

Lemma unreadable_photo_event_witness :
  @process_photo (demo_externals backend_new_york) default_config "/out" 3
     {| processed_photos := 1; sortable_photos := 1; unsortable_photos := 0 |}
     "/in/missing.jpg" demo_world
  = ({| ev_processed := 2; ev_total := 3; ev_sortable := 1; ev_unsortable := 1;
        ev_path := "/in/missing.jpg" |},
     {| processed_photos := 1; sortable_photos := 1; unsortable_photos := 1 |},
     demo_world).
Proof.
  apply (@unreadable_photo_event (demo_externals backend_new_york)).
  intros bytes Hfile. discriminate Hfile.
Defined.

(** X18: with [skip_duplicates], a photo whose name is already taken in
    its destination directory is not transferred, yet the round counts it
    as processed, and as sortable when it was geocoded: the counters cannot
    tell a skipped photo from a placed one. *)
Theorem skipped_duplicate_is_counted `{Externals} (cfg : Config) (output : string)
    (total : nat) (c : counters) (photo_path bytes : string) (img : Image)
    (dir : string) (is_sortable : bool) (w w1 : world) :
  fs w !! photo_path = Some (File bytes) →
  exif_Image bytes = Some img →
  resolve_output_path cfg output img w = (Ok (dir, is_sortable), w1) →
  skip_duplicates cfg = true →
  path_exists (fs w1) (path_join dir [basename photo_path]) = true →
  let c' := {| processed_photos := S (processed_photos c);
               sortable_photos := if is_sortable then S (sortable_photos c)
                                  else sortable_photos c;
               unsortable_photos := if is_sortable then unsortable_photos c
                                    else S (unsortable_photos c) |} in
  process_photo cfg output total c photo_path w
  = ({| ev_processed := processed_photos c'; ev_total := total;
        ev_sortable := sortable_photos c'; ev_unsortable := unsortable_photos c';
        ev_path := photo_path |}, c', w1).
Proof.
  intros Hfile Himg Hres Hskip Hexists c'.
  assert (∀ how, place how cfg photo_path dir w1 = (Ok None, w1)) as Hplace.
  { intros how. unfold place, try_all, bind, get_world, ret. by rewrite Hskip, Hexists. }
  unfold process_photo, handle_photo, bind, extract_exif_data, ret.
  rewrite Hfile, Himg, Hres.
  unfold _copy_photo, _move_photo.
  destruct (copy_files cfg); by rewrite Hplace.
Qed.

Lemma skipped_duplicate_is_counted_witness :
  let E := demo_externals backend_new_york in
  @process_photo E default_config "/out" 1
     {| processed_photos := 0; sortable_photos := 0; unsortable_photos := 0 |}
     "/in/a.jpg" sorted_once_world
  = ({| ev_processed := 1; ev_total := 1; ev_sortable := 1; ev_unsortable := 0;
        ev_path := "/in/a.jpg" |},
     {| processed_photos := 1; sortable_photos := 1; unsortable_photos := 0 |},
     sorted_once_world).
Proof.
  intros E.
  apply (@skipped_duplicate_is_counted E default_config "/out" 1
           {| processed_photos := 0; sortable_photos := 0; unsortable_photos := 0 |}
           "/in/a.jpg" "nyc" nyc_image
           "/out/United States, New York, New York/2024-03-15" true
           sorted_once_world sorted_once_world); vm_compute; reflexivity.
Defined.

(** ** Coordinates: when they are returned *)

(** X19: [get_gps_coordinates] never raises, and it returns coordinates
    only for an image with EXIF data, with GPS extraction enabled, whose
    latitude and longitude are both truthy and of the same kind: two
    tuples (with both hemisphere references present), converted one by
    one, or two floats, returned as they are. *)
Theorem get_gps_coordinates_shape (cfg : Config) (image : option Image) :
  ∃ lat lon,
    get_gps_coordinates cfg image = Ok (lat, lon)
    ∧ ((lat, lon) ≠ (None, None) →
       ∃ img vlat vlon,
         image = Some img ∧ has_exif img = true ∧ use_exif_gps cfg = true
         ∧ attrs img !! "gps_latitude" = Some vlat
         ∧ attrs img !! "gps_longitude" = Some vlon
         ∧ truthy vlat = true ∧ truthy vlon = true
         ∧ ((∃ lat_ref lon_ref,
               is_tuple vlat = true ∧ is_tuple vlon = true
               ∧ attrs img !! "gps_latitude_ref" = Some lat_ref
               ∧ attrs img !! "gps_longitude_ref" = Some lon_ref
               ∧ lat = _convert_to_decimal_degrees vlat lat_ref
               ∧ lon = _convert_to_decimal_degrees vlon lon_ref)
            ∨ (∃ a b, vlat = PyFloat a ∧ vlon = PyFloat b
                      ∧ lat = Some a ∧ lon = Some b))).
Proof.
  unfold get_gps_coordinates.
  destruct image as [img|]; [|by exists None, None].
  destruct (has_exif img) eqn:Hexif; simpl; [|by exists None, None].
  destruct (use_exif_gps cfg) eqn:Huse; [|by exists None, None].
  unfold image_attr.
  destruct (attrs img !! "gps_latitude") as [vlat|] eqn:Hlat; simpl; [|by exists None, None].
  destruct (attrs img !! "gps_longitude") as [vlon|] eqn:Hlon; simpl; [|by exists None, None].
  destruct (truthy vlat) eqn:Htlat; simpl; [|by exists None, None].
  destruct (truthy vlon) eqn:Htlon; simpl; [|by exists None, None].
  destruct (is_tuple vlat && is_tuple vlon) eqn:Htuples.
  - apply andb_true_iff in Htuples as [Ht1 Ht2].
    destruct (attrs img !! "gps_latitude_ref") as [lat_ref|] eqn:Hr1; simpl;
      [|by exists None, None].
    destruct (attrs img !! "gps_longitude_ref") as [lon_ref|] eqn:Hr2; simpl;
      [|by exists None, None].
    eexists _, _. split; [done|]. intros _. exists img, vlat, vlon.
    repeat (split; [done|]). left. by exists lat_ref, lon_ref.
  - destruct (is_float vlat && is_float vlon) eqn:Hfloats; [|by exists None, None].
    apply andb_true_iff in Hfloats as [Hf1 Hf2].
    destruct vlat as [|a| |]; try done. destruct vlon as [|b| |]; try done.
    eexists _, _. split; [done|]. intros _. exists img, (PyFloat a), (PyFloat b).
    repeat (split; [done|]). right. by exists a, b.
Qed.

(** A tuple on one side and a float on the other give no coordinates. *)
Example get_gps_coordinates_mixed :
  get_gps_coordinates default_config
    (Some {| has_exif := true;
             attrs := list_to_map [("gps_latitude", dms 40 42 46.08);
                                   ("gps_latitude_ref", PyStr "N");
                                   ("gps_longitude", PyFloat nyc_lon)] |})
  = Ok (None, None).
Proof. reflexivity. Qed.

(** ** Progress and the end of a batch *)

Lemma process_loop_progress `{Externals} (cfg : Config) (output : string) (total : nat)
    (c : counters) (photo_paths : list string) (w : world) :
  processed_photos c + List.length photo_paths ≤ total →
  Forall (λ e, ev_processed e ≤ total) (process_loop cfg output total c photo_paths w).1.1.
Proof.
  revert c w. induction photo_paths as [|p rest IH]; intros c w Hroom; simpl.
  - constructor.
  - assert (let '(ev, c', _) := process_photo cfg output total c p w in
            ev_processed ev ≤ S (processed_photos c)
            ∧ processed_photos c' ≤ S (processed_photos c)) as Hstep.
    { unfold process_photo.
      destruct (handle_photo cfg output p w) as [[[[]|]|e] w1]; simpl; lia. }
    destruct (process_photo cfg output total c p w) as [[ev c1] w1].
    destruct Hstep as [Hev Hc1]. specialize (IH c1 w1).
    destruct (process_loop cfg output total c1 rest w1) as [[evs c2] w2]. simpl in *.
    constructor; [lia|]. apply IH. lia.
Qed.

(** X20: in every event the processed count is at most the total, and
    the total is the number of photos (not zero when there is an event), so
    the fraction [update_progress] computes for the progress bar is defined
    and never above one. *)
Theorem progress_within_bounds `{Externals} (cfg : Config) (photo_paths : list string)
    (output : string) (w : world) :
  Forall (λ e, ev_processed e ≤ ev_total e ∧ 0 < ev_total e)
         (process_photos cfg photo_paths output w).1.1.
Proof.
  pose proof (Hevents := process_loop_events cfg output
                (List.length photo_paths)
                {| processed_photos := 0; sortable_photos := 0; unsortable_photos := 0 |}
                photo_paths w).
  pose proof (process_loop_progress cfg output (List.length photo_paths)
                {| processed_photos := 0; sortable_photos := 0; unsortable_photos := 0 |}
                photo_paths w (le_n _)) as Hprog.
  pose proof (process_loop_counts cfg output (List.length photo_paths)
                {| processed_photos := 0; sortable_photos := 0; unsortable_photos := 0 |}
                photo_paths w) as Hlen.
  unfold process_photos.
  destruct (process_loop _ _ _ _ _ _) as [[events c] w']. simpl in *.
  destruct Hevents as (_ & Htotals & _). destruct Hlen as (Hlen & _).
  apply Forall_forall. intros e He.
  rewrite Forall_forall in Htotals, Hprog.
  rewrite (Htotals e He). split; [by apply Hprog|].
  destruct events; [by apply elem_of_nil in He|]. simpl in Hlen. lia.
Qed.

(** Setting up the log file changes nothing in the modelled state. *)
Lemma configure_file_logging_world `{Externals} (file level : string) (w : world) :
  snd (configure_file_logging file level w) = w.
Proof. reflexivity. Qed.

(** When the log file cannot be set up, [process_photos_async] stops
    there: no photo is processed and the cache is not saved. *)
Lemma process_photos_async_without_log `{Externals} (cfg : Config)
    (photo_paths : list string) (output : string) (w : world) (e : exn) :
  fst (configure_file_logging (path_join output [log_file cfg]) (log_level cfg) w)
    = Raise e →
  GUI.process_photos_async cfg photo_paths output w = (Raise e, w).
Proof.
  intros Hlog. unfold GUI.process_photos_async, bind.
  pose proof (configure_file_logging_world (path_join output [log_file cfg])
                (log_level cfg) w) as Hw.
  revert Hlog Hw. destruct (configure_file_logging _ _ w) as [r w0]. simpl.
  by intros -> ->.
Qed.

(** Once the log file is set up, [process_photos_async] is the batch
    followed by the save. *)
Lemma process_photos_async_with_log `{Externals} (cfg : Config)
    (photo_paths : list string) (output : string) (w : world) :
  fst (configure_file_logging (path_join output [log_file cfg]) (log_level cfg) w)
    = Ok tt →
  GUI.process_photos_async cfg photo_paths output w
  = let '(events, _, w1) := process_photos cfg photo_paths output w in
    match _save_cache w1 with
    | (Ok _, w2) =>
        (Ok (match last events with
             | Some e => Some (GUI.completion_message (ev_processed e) (ev_total e)
                                 (ev_sortable e) (ev_unsortable e))
             | None => None
             end), w2)
    | (Raise e, w2) => (Raise e, w2)
    end.
Proof.
  intros Hlog. unfold GUI.process_photos_async, bind.
  pose proof (configure_file_logging_world (path_join output [log_file cfg])
                (log_level cfg) w) as Hw.
  revert Hlog Hw. destruct (configure_file_logging _ _ w) as [r w0]. simpl.
  intros -> ->.
  by destruct (process_photos cfg photo_paths output w) as [[events c] w1].
Qed.

(** X21: once the log file has been set up, however the batch went,
    [process_photos_async] ends by saving the cache: when the cache file
    can be written, it returns normally and the file holds the cache that
    is in memory. *)
Theorem batch_ends_in_sync `{Externals} (cfg : Config) (photo_paths : list string)
    (output : string) (w : world) :
  fst (configure_file_logging (path_join output [log_file cfg]) (log_level cfg) w)
    = Ok tt →
  fs (process_photos cfg photo_paths output w).2 !! cache_file ≠ Some Dir →
  (∃ shown, fst (GUI.process_photos_async cfg photo_paths output w) = Ok shown)
  ∧ in_sync (snd (GUI.process_photos_async cfg photo_paths output w)).
Proof.
  intros Hlog Hdir. rewrite (process_photos_async_with_log _ _ _ _ Hlog).
  destruct (process_photos cfg photo_paths output w) as [[events c] w1]. simpl in Hdir.
  rewrite save_cache_eq.
  destruct (fs w1 !! cache_file) as [[text|]|] eqn:Hf; [|done|];
    simpl; (split; [by eexists|]);
    unfold in_sync, cache_file_text; simpl; by rewrite lookup_insert_eq.
Qed.

Lemma batch_ends_in_sync_witness :
  let E := demo_externals backend_down in
  (∃ shown, fst (@GUI.process_photos_async E default_config ["/in/c.jpg"] "/out" ready_world)
            = Ok shown)
  ∧ @in_sync E (snd (@GUI.process_photos_async E default_config ["/in/c.jpg"] "/out"
                       ready_world)).
Proof.
  intros E. apply (@batch_ends_in_sync E); [reflexivity|]. vm_compute. discriminate.
Defined.

(** Without the output directory the log file cannot be opened, and the
    cache in memory is not written. *)
Example batch_without_output_directory :
  @GUI.process_photos_async (demo_externals backend_down) default_config
     ["/in/c.jpg"] "/out" demo_world
  = (Raise FileNotFoundError, demo_world).
Proof. reflexivity. Qed.

(** X22: the completion dialog takes the first field of the last event
    for the total and the second for the processed count: its line
    "Processed photos" always shows the number of photos of the batch, and
    its line "Total photos" shows the processed count of the last event. *)
Theorem completion_dialog_fields `{Externals} (cfg : Config) (photo_paths : list string)
    (output : string) (w : world) (text : string) :
  fst (GUI.process_photos_async cfg photo_paths output w) = Ok (Some text) →
  ∃ e, last (process_photos cfg photo_paths output w).1.1 = Some e
       ∧ ev_processed e ≤ List.length photo_paths
       ∧ text = GUI.completion_message (ev_processed e) (List.length photo_paths)
                  (ev_sortable e) (ev_unsortable e).
Proof.
  intros Hshown.
  pose proof (Hprogress := process_loop_progress cfg output (List.length photo_paths)
                {| processed_photos := 0; sortable_photos := 0; unsortable_photos := 0 |}
                photo_paths w (le_n _)).
  pose proof (process_loop_events cfg output (List.length photo_paths)
                {| processed_photos := 0; sortable_photos := 0; unsortable_photos := 0 |}
                photo_paths w) as Hev.
  destruct (fst (configure_file_logging (path_join output [log_file cfg])
                   (log_level cfg) w)) as [[]|e0] eqn:Hlog;
    [|by rewrite (process_photos_async_without_log _ _ _ _ _ Hlog) in Hshown].
  rewrite (process_photos_async_with_log _ _ _ _ Hlog) in Hshown.
  unfold process_photos in *.
  destruct (process_loop _ _ _ _ _ _) as [[events c] w1]. simpl in *.
  destruct Hev as (_ & Htotals & _).
  destruct (_save_cache w1) as [[[]|e0] w2]; [|done].
  destruct (last events) as [e|] eqn:Hlast; [|done].
  injection Hshown as <-. exists e. split; [done|].
  assert (e ∈ events) as He.
  { apply last_Some in Hlast as [l' ->]. apply elem_of_app. right. left. }
  rewrite Forall_forall in Htotals, Hprogress.
  split; [by apply Hprogress|]. by rewrite (Htotals e He).
Qed.

Lemma completion_dialog_fields_witness :
  let E := demo_externals backend_new_york in
  ∃ e, last (@process_photos E default_config ["/in/b.jpg"; "/in/a.jpg"] "/out"
               ready_world).1.1 = Some e
       ∧ ev_processed e ≤ 2
       ∧ GUI.completion_message 1 2 1 1
         = GUI.completion_message (ev_processed e) 2 (ev_sortable e) (ev_unsortable e).
Proof.
  intros E.
  apply (@completion_dialog_fields E default_config ["/in/b.jpg"; "/in/a.jpg"] "/out"
           ready_world (GUI.completion_message 1 2 1 1)).
  vm_compute. reflexivity.
Defined.

(** ** Loading the configuration *)

Import Configuration.

Lemma find_raw_get_raw (section name : string) (c : ini) :
  has_section section c = true →
  get_raw section name c = find_raw section (optionxform name) c.
Proof.
  unfold has_section, get_raw, find_raw. rewrite bool_decide_eq_true.
  intros [options ->]. simpl. by destruct (options !! optionxform name).
Qed.

(** One round of the inner loop. *)
Lemma fill_option_done (section : string) (c : ini) (entry : string * string)
    (options : gmap string string) :
  option_ok entry = true →
  String.eqb section "" = false → String.eqb section default_section = false →
  ini_sections c !! section = Some options →
  ∃ c' options',
    fill_option section (Done c) entry = Done c'
    ∧ ini_sections c' !! section = Some options'
    ∧ (∀ s, s ≠ section → ini_sections c' !! s = ini_sections c !! s)
    ∧ ini_defaults c' = ini_defaults c
    ∧ (∀ s n, find_raw s n c'
              = match find_raw s n c with
                | Some v => Some v
                | None => if String.eqb s section && String.eqb entry.1 n
                          then Some entry.2 else None
                end).
Proof.
  destruct entry as [name value]. unfold option_ok. simpl.
  intros [Hname Hvalue%negb_true_iff]%andb_true_iff Hs1 Hs2 Hsec.
  apply String.eqb_eq in Hname.
  unfold fill_option, has_option, set. simpl. rewrite Hs1, Hs2, Hsec, Hname. simpl.
  assert (find_raw section name c
          = match options !! name with
            | Some v => Some v
            | None => ini_defaults c !! name
            end) as Hfind.
  { unfold find_raw. rewrite Hsec. simpl. by destruct (options !! name). }
  destruct (options !! name) as [v0|] eqn:Hopt; simpl.
  { exists c, options. repeat split; try done.
    intros s n. destruct (find_raw s n c) eqn:Hf; [done|].
    destruct (String.eqb_spec s section) as [->|]; [|done].
    destruct (String.eqb_spec name n) as [->|]; [|done]. congruence. }
  destruct (ini_defaults c !! name) as [v0|] eqn:Hdef; simpl.
  { exists c, options. repeat split; try done.
    intros s n. destruct (find_raw s n c) eqn:Hf; [done|].
    destruct (String.eqb_spec s section) as [->|]; [|done].
    destruct (String.eqb_spec name n) as [->|]; [|done]. congruence. }
  rewrite Hvalue.
  eexists _, _. split; [done|]. simpl. split; [apply lookup_insert_eq|].
  split; [intros s Hne; by rewrite lookup_insert_ne|]. split; [done|].
  intros s n. unfold find_raw at 1. simpl.
  destruct (String.eqb_spec s section) as [->|Hne].
  - rewrite lookup_insert_eq. simpl.
    destruct (String.eqb_spec name n) as [->|Hn].
    + by rewrite lookup_insert_eq, Hfind.
    + rewrite lookup_insert_ne by done. unfold find_raw. rewrite Hsec. simpl.
      by destruct (options !! n), (ini_defaults c !! n).
  - rewrite lookup_insert_ne by done. unfold find_raw. simpl.
    by destruct (ini_sections c !! s ≫= (λ options0, options0 !! n)),
               (ini_defaults c !! n).
Qed.

Lemma fill_options_done (section : string) (options_list : list (string * string)) (c : ini)
    (options : gmap string string) :
  forallb option_ok options_list = true →
  String.eqb section "" = false → String.eqb section default_section = false →
  ini_sections c !! section = Some options →
  ∃ c' options',
    foldl (fill_option section) (Done c) options_list = Done c'
    ∧ ini_sections c' !! section = Some options'
    ∧ (∀ s, s ≠ section → ini_sections c' !! s = ini_sections c !! s)
    ∧ (∀ s n, find_raw s n c'
              = match find_raw s n c with
                | Some v => Some v
                | None => if String.eqb s section then dict_get n options_list else None
                end).
Proof.
  intros Hok Hs1 Hs2. revert c options.
  induction options_list as [|entry rest IH]; intros c options Hsec; cbn [foldl].
  - exists c, options. repeat split; try done.
    intros s n. destruct (find_raw s n c); [done|]. by destruct (String.eqb s section).
  - simpl in Hok. apply andb_true_iff in Hok as [Hentry Hrest].
    destruct (fill_option_done section c entry options Hentry Hs1 Hs2 Hsec)
      as (c1 & options1 & Hstep & Hsec1 & Hother1 & _ & Hfind1).
    rewrite Hstep.
    destruct (IH Hrest c1 options1 Hsec1) as (c' & options' & Hfold & Hsec' & Hother' & Hfind').
    exists c', options'. split; [done|]. split; [done|].
    split; [intros s Hne; by rewrite Hother', Hother1|].
    intros s n. rewrite Hfind', Hfind1. destruct entry as [k v]. simpl.
    destruct (find_raw s n c); [done|].
    destruct (String.eqb s section); [|done]. simpl.
    by destruct (String.eqb k n).
Qed.

Lemma fill_section_done (c : ini) (entry : string * list (string * string)) :
  section_ok entry = true →
  ∃ c',
    fill_section (Done c) entry = Done c'
    ∧ has_section entry.1 c' = true
    ∧ (∀ s, has_section s c = true → has_section s c' = true)
    ∧ (∀ s n, find_raw s n c'
              = match find_raw s n c with
                | Some v => Some v
                | None => if String.eqb s entry.1 then dict_get n entry.2 else None
                end).
Proof.
  destruct entry as [section options_list]. unfold section_ok. simpl.
  intros [[Hs1%negb_true_iff Hs2%negb_true_iff]%andb_true_iff Hok]%andb_true_iff.
  assert (∃ c0 options,
            (if has_section section c then Done c else add_section section c) = Done c0
            ∧ ini_sections c0 !! section = Some options
            ∧ (∀ s, has_section s c = true → has_section s c0 = true)
            ∧ (∀ s n, find_raw s n c0 = find_raw s n c)) as (c0 & options & -> & Hsec & Hkeep & Hfind).
  { destruct (has_section section c) eqn:Hhas.
    - unfold has_section in Hhas. apply bool_decide_eq_true in Hhas as [options Hsec].
      by exists c, options.
    - unfold add_section. rewrite Hs2, Hhas. eexists _, ∅. split; [done|]. simpl.
      split; [apply lookup_insert_eq|]. split.
      + intros s. unfold has_section. simpl. rewrite !bool_decide_eq_true.
        intros Hs. destruct (decide (section = s)) as [->|].
        * rewrite lookup_insert_eq. by eexists.
        * by rewrite lookup_insert_ne.
      + intros s n. unfold find_raw. simpl.
        destruct (decide (section = s)) as [->|]; [|by rewrite lookup_insert_ne].
        rewrite lookup_insert_eq. simpl. rewrite lookup_empty.
        unfold has_section in Hhas. apply bool_decide_eq_false in Hhas.
        destruct (ini_sections c !! s) eqn:Hc; [destruct Hhas; by eexists|done]. }
  unfold fill_section. simpl.
  destruct (fill_options_done section options_list c0 options Hok Hs1 Hs2 Hsec)
    as (c' & options' & Hfold & Hsec' & Hother & Hfind').
  exists c'. split; [done|]. split; [|split].
  - unfold has_section. apply bool_decide_eq_true. by eexists.
  - intros s Hs. apply Hkeep in Hs. unfold has_section in *.
    rewrite bool_decide_eq_true in *. destruct (decide (s = section)) as [->|Hne].
    + by eexists.
    + by rewrite Hother.
  - intros s n. rewrite Hfind'. by rewrite Hfind.
Qed.

Lemma fill_defaults_done (table : list (string * list (string * string))) (c : ini) :
  forallb section_ok table = true →
  ∃ c',
    fill_defaults table c = Done c'
    ∧ (∀ s, has_section s c = true → has_section s c' = true)
    ∧ (∀ entry, entry ∈ table → has_section entry.1 c' = true)
    ∧ (∀ s n, find_raw s n c'
              = match find_raw s n c with
                | Some v => Some v
                | None => table_get s n table
                end).
Proof.
  unfold fill_defaults. revert c.
  induction table as [|entry rest IH]; intros c Hok; cbn [foldl].
  - exists c. repeat split; try done.
    + intros entry Hin. by apply elem_of_nil in Hin.
    + intros s n. by destruct (find_raw s n c).
  - simpl in Hok. apply andb_true_iff in Hok as [Hentry Hrest].
    destruct (fill_section_done c entry Hentry) as (c1 & Hstep & Hhas1 & Hkeep1 & Hfind1).
    rewrite Hstep.
    destruct (IH c1 Hrest) as (c' & Hfold & Hkeep' & Hin' & Hfind').
    exists c'. split; [done|]. split; [intros s Hs; by apply Hkeep', Hkeep1|].
    split.
    + intros e [->|He]%elem_of_cons; [by apply Hkeep'|by apply Hin'].
    + intros s n. rewrite Hfind', Hfind1. destruct entry as [s0 options_list]. simpl.
      destruct (find_raw s n c); [done|].
      rewrite (String.eqb_sym s0 s).
      destruct (String.eqb s s0); [|done]. by destruct (dict_get n options_list).
Qed.

Lemma table_get_section (section name v : string)
    (table : list (string * list (string * string))) :
  table_get section name table = Some v → ∃ options, (section, options) ∈ table.
Proof.
  induction table as [|[s options] rest IH]; simpl; [done|].
  destruct (String.eqb_spec s section) as [->|].
  - intros _. exists options. left.
  - intros Hrest. destruct (IH Hrest) as [options' Hin]. exists options'. by right.
Qed.

Lemma default_options_ok : forallb section_ok default_options = true.
Proof. vm_compute. reflexivity. Qed.

(** X23: when the configuration file parses, [load_config] does not
    raise and leaves the file as it is; every section of the table of
    defaults exists afterwards, and the value of an option is the one of
    the file (in that section, or else in its [DEFAULT] section) when
    there is one, and the default of the table otherwise. *)
Theorem load_config_values (parse : string → outcome ini) (config_file text : string)
    (f : gmap string node) (file : ini) :
  f !! config_file = Some (File text) →
  parse text = Done file →
  ∃ c,
    load_config parse config_file f = (Done c, f)
    ∧ (∀ entry, entry ∈ default_options → has_section entry.1 c = true)
    ∧ (∀ section name, has_section section c = true →
         get_raw section name c
         = match find_raw section (optionxform name) file with
           | Some v => Some v
           | None => table_get section (optionxform name) default_options
           end).
Proof.
  intros Hfile Hparse. unfold load_config. rewrite Hfile, Hparse.
  destruct (fill_defaults_done default_options file default_options_ok)
    as (c & Hfill & _ & Hsections & Hfind).
  exists c. rewrite Hfill. split; [done|]. split; [done|].
  intros section name Hhas. rewrite find_raw_get_raw by done. apply Hfind.
Qed.

Lemma load_config_values_witness :
  ∃ c,
    load_config demo_parse "config.ini" demo_config_fs = (Done c, demo_config_fs)
    ∧ get_raw "sorting" "date_format" c = Some "%%Y"
    ∧ get_raw "sorting" "sort_by_date" c = Some "True"
    ∧ get_raw "general" "copy_files" c = Some "no".
Proof.
  assert (demo_config_fs !! "config.ini" = Some (File demo_config_text)) as Hfile
    by apply lookup_singleton_eq.
  destruct (load_config_values demo_parse "config.ini" demo_config_text demo_config_fs
              demo_config Hfile eq_refl) as (c & Hload & Hsections & Hget).
  exists c. split; [exact Hload|].
  assert (has_section "sorting" c = true) as Hsorting.
  { destruct (table_get_section "sorting" "sort_by_date" "True" default_options eq_refl)
      as [options Hin]. exact (Hsections _ Hin). }
  assert (has_section "general" c = true) as Hgeneral.
  { destruct (table_get_section "general" "copy_files" "True" default_options eq_refl)
      as [options Hin]. exact (Hsections _ Hin). }
  rewrite !Hget by done. repeat split; vm_compute; reflexivity.
Defined.

Lemma find_raw_empty (section name : string) : find_raw section name empty_ini = None.
Proof. unfold find_raw, empty_ini. cbn [ini_sections ini_defaults]. by rewrite !lookup_empty. Qed.

(** A table without a [DEFAULT] section never sets an option of it. *)
Lemma fill_defaults_keeps_defaults (table : list (string * list (string * string)))
    (c c' : ini) :
  forallb section_ok table = true →
  fill_defaults table c = Done c' →
  ini_defaults c' = ini_defaults c.
Proof.
  unfold fill_defaults. revert c.
  induction table as [|entry rest IH]; intros c Hok; cbn [foldl].
  - by intros [= ->].
  - simpl in Hok. apply andb_true_iff in Hok as [Hentry Hrest].
    destruct entry as [section options_list].
    assert (∀ c0 c1, ini_defaults c0 = ini_defaults c →
                     foldl (fill_option section) (Done c0) options_list = Done c1 →
                     ini_defaults c1 = ini_defaults c) as Hinner.
    { unfold section_ok in Hentry. simpl in Hentry.
      apply andb_true_iff in Hentry as [[Hs1%negb_true_iff Hs2%negb_true_iff]%andb_true_iff _].
      clear -Hs1 Hs2. induction options_list as [|[name value] rest IH];
        intros c0 c1 Hc0; cbn [foldl]; [by intros [= <-]|].
      unfold fill_option at 2. cbn [fst snd].
      destruct (has_option section name c0); [by apply IH|].
      unfold set. rewrite Hs1, Hs2. simpl.
      destruct (str_truthy value && negb (before_set_ok value)).
      { clear. induction rest as [|e rest IH]; [done|]. exact IH. }
      destruct (ini_sections c0 !! section).
      - by apply IH.
      - clear. induction rest as [|e rest IH]; [done|]. exact IH. }
    unfold fill_section at 2. cbn [fst snd].
    destruct (has_section section c) eqn:Hhas.
    + destruct (foldl (fill_option section) (Done c) options_list) as [c1|e] eqn:Hfold.
      * intros Hrest'. rewrite (IH c1 Hrest Hrest'). by apply (Hinner c c1).
      * intros Hfail. exfalso. clear -Hfail.
        induction rest as [|e' rest IH]; [done|]. exact (IH Hfail).
    + unfold add_section. rewrite Hhas.
      destruct (String.eqb section default_section).
      { intros Hfail. exfalso. clear -Hfail.
        assert (∀ e0, foldl (fill_option section) (Failed e0) options_list = Failed e0) as Hf.
        { clear. intros e0. induction options_list as [|o l IH]; [done|]. exact IH. }
        rewrite Hf in Hfail. clear Hf.
        induction rest as [|e' rest IH]; [done|]. exact (IH Hfail). }
      destruct (foldl (fill_option section) _ options_list) as [c1|e] eqn:Hfold.
      * intros Hrest'. rewrite (IH c1 Hrest Hrest'). eapply Hinner; [|exact Hfold]. done.
      * intros Hfail. exfalso. clear -Hfail.
        induction rest as [|e' rest IH]; [done|]. exact (IH Hfail).
Qed.

(** X24: when there is no configuration file, [load_config] creates an
    empty one (the defaults are not written to it) and returns exactly
    the table of defaults. *)
Theorem load_config_missing_file (parse : string → outcome ini) (config_file : string)
    (f : gmap string node) :
  f !! config_file = None →
  ∃ c,
    load_config parse config_file f = (Done c, <[config_file := File ""]> f)
    ∧ (∀ section name, get_raw section name c
                       = table_get section (optionxform name) default_options).
Proof.
  intros Hfile. unfold load_config. rewrite Hfile.
  destruct (fill_defaults_done default_options empty_ini default_options_ok)
    as (c & Hfill & _ & Hsections & Hfind).
  pose proof (fill_defaults_keeps_defaults _ _ _ default_options_ok Hfill) as Hdefaults.
  exists c. rewrite Hfill. split; [done|].
  intros section name.
  specialize (Hfind section (optionxform name)). rewrite find_raw_empty in Hfind.
  rewrite <- Hfind.
  destruct (has_section section c) eqn:Hhas; [by apply find_raw_get_raw|].
  unfold has_section in Hhas. apply bool_decide_eq_false in Hhas.
  unfold get_raw, find_raw. rewrite Hdefaults.
  destruct (ini_sections c !! section) eqn:Hc; [destruct Hhas; by eexists|].
  cbn [mbind option_bind empty_ini ini_defaults]. rewrite lookup_empty.
  by destruct (String.eqb section default_section).
Qed.

Lemma load_config_missing_file_witness :
  ∃ c,
    load_config demo_parse "config.ini" ∅ = (Done c, {[ "config.ini" := File "" ]})
    ∧ (∀ section name, get_raw section name c
                       = table_get section (optionxform name) default_options).
Proof.
  destruct (load_config_missing_file demo_parse "config.ini" ∅ (lookup_empty _))
    as (c & Hload & Hget).
  exists c. split; [|exact Hget]. rewrite Hload. by rewrite insert_empty.
Defined.

(** ** Percent signs in the date format *)

Lemma drop_escaped_percent_cons (c : ascii) (r : string) :
  drop_escaped_percent (String c r)
  = if Ascii.eqb c "%" && str_startswith_char "%" r
    then drop_escaped_percent (match r with String _ r' => r' | EmptyString => "" end)
    else String c (drop_escaped_percent r).
Proof.
  destruct (Ascii.eqb_spec c "%") as [->|Hc].
  - destruct r as [|a r]; [reflexivity|].
    destruct (Ascii.eqb_spec a "%") as [->|Ha].
    + reflexivity.
    + simpl str_startswith_char. destruct (Ascii.eqb_spec a "%"); [done|].
      destruct a as [[] [] [] [] [] [] [] []]; try reflexivity. done.
  - destruct c as [[] [] [] [] [] [] [] []]; try reflexivity. done.
Qed.

Lemma key_match_plain (c : ascii) (r : string) :
  Ascii.eqb c "%" = false → key_match (String c r) = None.
Proof.
  intros Hc. destruct c as [[] [] [] [] [] [] [] []]; try reflexivity. done.
Qed.

Lemma drop_keys_plain (t : string) :
  str_contains "%" t = false → drop_keys 0 t = t.
Proof.
  induction t as [|c r IH]; [done|].
  cbn [str_contains]. intros [Hc Hr]%orb_false_elim.
  cbn [drop_keys]. rewrite (key_match_plain c r Hc). by rewrite (IH Hr).
Qed.

Lemma escape_percent_unescaped (s : string) :
  str_contains "%" (drop_escaped_percent (escape_percent s)) = false.
Proof.
  induction s as [|c r IH]; [done|].
  cbn [escape_percent]. destruct (Ascii.eqb c "%") eqn:Hc.
  - rewrite drop_escaped_percent_cons. simpl. exact IH.
  - rewrite drop_escaped_percent_cons, Hc. simpl. by rewrite Hc, IH.
Qed.

Lemma before_set_accepts_escaped (s : string) : before_set_ok (escape_percent s) = true.
Proof.
  unfold before_set_ok.
  rewrite drop_keys_plain by apply escape_percent_unescaped.
  by rewrite escape_percent_unescaped.
Qed.

Lemma interpolate_some_plain (levels : nat) (values : string → option string)
    (c : ascii) (r : string) :
  Ascii.eqb c "%" = false →
  interpolate_some (S levels) values 0 (String c r)
  = match interpolate_some (S levels) values 0 r with
    | Done t => Done (String c t)
    | Failed e => Failed e
    end.
Proof. intros Hc. cbn [interpolate_some]. by rewrite Hc. Qed.

Lemma interpolate_some_escaped (levels : nat) (values : string → option string)
    (r : string) :
  interpolate_some (S levels) values 0 (String "%" (String "%" r))
  = match interpolate_some (S levels) values 0 r with
    | Done t => Done (String "%"%char t)
    | Failed e => Failed e
    end.
Proof. reflexivity. Qed.

Lemma interpolate_escaped (levels : nat) (values : string → option string) (s : string) :
  interpolate_some (S levels) values 0 (escape_percent s) = Done s.
Proof.
  induction s as [|c r IH]; [done|].
  cbn [escape_percent]. destruct (Ascii.eqb c "%") eqn:Hc.
  - apply Ascii.eqb_eq in Hc as ->. by rewrite interpolate_some_escaped, IH.
  - by rewrite interpolate_some_plain, IH.
Qed.

(** X25: the settings window doubles the percent signs of the date
    format before it sets the option; the parser accepts every value
    escaped in this way, and reading the option afterwards gives back the
    text as it was typed. *)
Theorem escaped_date_format_reads_back (c : ini) (section name s : string)
    (options : gmap string string) :
  String.eqb section "" = false →
  String.eqb section default_section = false →
  ini_sections c !! section = Some options →
  ∃ c', set section name (escape_percent s) c = Done c'
        ∧ get section name c' = Done s.
Proof.
  intros Hs1 Hs2 Hsec. unfold set.
  rewrite before_set_accepts_escaped, andb_false_r, Hs1, Hs2, Hsec.
  cbn [negb orb]. eexists. split; [done|].
  unfold get, unify_values. cbn [ini_sections ini_defaults].
  rewrite lookup_insert_eq, lookup_insert_eq.
  apply (interpolate_escaped 9).
Qed.

Lemma escaped_date_format_reads_back_witness :
  ∃ c', set "sorting" "date_format" (escape_percent "%Y/%m") demo_config = Done c'
        ∧ get "sorting" "date_format" c' = Done "%Y/%m".
Proof.
  apply (escaped_date_format_reads_back demo_config "sorting" "date_format" "%Y/%m"
           {[ "date_format" := "%%Y" ]}); [reflexivity|reflexivity|].
  apply lookup_singleton_eq.
Defined.

(** Without the doubling, a percent sign that starts no reference is
    refused. *)
Example set_refuses_lone_percent :
  set "unsortable" "unsortable_folder" "100%"
      {| ini_defaults := ∅; ini_sections := {[ "unsortable" := ∅ ]} |}
  = Failed InvalidInterpolation.
Proof. reflexivity. Qed.
